(** * Brand audit: content extraction and LLM orchestration

    A shallow embedding of [netlify/functions/competitors.js] (the
    suggest-competitors function), of the Netlify audit function and of the
    Express server, together with the properties the specification states
    about them.

    JavaScript strings are sequences of UTF-16 code units; they are modelled
    as lists of numbers so that [length], [substring], [trim] and the
    regular expressions behave as in the source on every input. *)

From Stdlib Require Import List NArith Arith Bool Lia String Ascii.
From Stdlib Require Import Floats.PrimFloat.
Import ListNotations.

Set Implicit Arguments.
Local Open Scope N_scope.

(** ** Strings *)

Module JsString.

Definition t := list N.

(** An ASCII literal of the source as code units. *)
Definition lit (s : string) : t :=
  map N_of_ascii (list_ascii_of_string s).

Definition dquote : N := 34.
Definition squote : N := 39.

Fixpoint eqb (a b : t) : bool :=
  match a, b with
  | [], [] => true
  | x :: a', y :: b' => N.eqb x y && eqb a' b'
  | _, _ => false
  end.

(** WhiteSpace and LineTerminator of ECMAScript: what [\s] and [trim] use. *)
Definition is_space (c : N) : bool :=
  (9 <=? c) && (c <=? 13) || (c =? 32) || (c =? 160) || (c =? 5760)
  || (8192 <=? c) && (c <=? 8202) || (c =? 8232) || (c =? 8233)
  || (c =? 8239) || (c =? 8287) || (c =? 12288) || (c =? 65279).

Fixpoint trimStart (s : t) : t :=
  match s with
  | c :: s' => if is_space c then trimStart s' else s
  | [] => []
  end.

Definition trimEnd (s : t) : t := rev (trimStart (rev s)).

Definition trim (s : t) : t := trimEnd (trimStart s).

Fixpoint startsWith (s p : t) {struct p} : bool :=
  match p with
  | [] => true
  | x :: p' =>
      match s with
      | y :: s' => N.eqb x y && startsWith s' p'
      | [] => false
      end
  end.

Fixpoint includes (s p : t) : bool :=
  startsWith s p ||
  match s with
  | [] => false
  | _ :: s' => includes s' p
  end.

(** [s.replace(p, r)] with a string pattern: the first occurrence only.
    None of the replacement strings of the source contains [$]. *)
Fixpoint replace (s p r : t) : t :=
  if startsWith s p then r ++ skipn (List.length p) s
  else match s with
       | [] => []
       | c :: s' => c :: replace s' p r
       end.

(** [s.split(sep)] for a one-character separator. *)
Fixpoint split (sep : N) (s : t) : list t :=
  match s with
  | [] => [[]]
  | c :: s' =>
      if N.eqb c sep then [] :: split sep s'
      else match split sep s' with
           | w :: ws => (c :: w) :: ws
           | [] => [[c]]
           end
  end.

(** [s.substring(0, n)] *)
Definition substring0 (n : nat) (s : t) : t := firstn n s.

(** [xs.join(sep)] on strings *)
Fixpoint join (sep : t) (xs : list t) : t :=
  match xs with
  | [] => []
  | [x] => x
  | x :: xs' => x ++ sep ++ join sep xs'
  end.

(** Decimal digits of an array index, for index-named properties. *)
Fixpoint digits (fuel n : nat) (acc : t) : t :=
  match fuel with
  | O => acc
  | S fuel' =>
      let acc' := (48 + N.of_nat (Nat.modulo n 10)) :: acc in
      if Nat.ltb n 10 then acc' else digits fuel' (Nat.div n 10) acc'
  end.

Definition of_index (n : nat) : t := digits (S n) n [].

End JsString.

Definition jsstring : Type := JsString.t.
Notation "'jss' s" := (JsString.lit s) (at level 9, s at level 0, only parsing).

(** ** Regular expressions

    The fragment of ECMAScript patterns the source uses, matched by
    backtracking in the priority order of the language definition. *)

Module Regex.

Inductive cset_item :=
| Range (lo hi : N)
| One (c : N)
| Space        (* \s *)
| NonSpace.    (* \S *)

Inductive re :=
| Empty
| Char (c : N)
| Class (negated : bool) (items : list cset_item)
| Cat (r1 r2 : re)
| Alt (r1 r2 : re)
| Repeat (min : nat) (max : option nat) (greedy : bool) (r : re)
| Group (i : nat) (r : re)
| NegLookahead (r : re)
| WordBoundary
| Bol
| Eol.

(** Position in the subject: the characters already passed (nearest first)
    and the characters still ahead. *)
Definition pos := (list N * list N)%type.
Definition captures := list (nat * jsstring).

(** Case folding of the [i] flag. Every pattern of the source is ASCII, and
    without the [u] flag a non-ASCII character never folds to an ASCII one,
    so folding ASCII letters is exact for these patterns. *)
Definition upper (c : N) : N :=
  if (97 <=? c) && (c <=? 122) then c - 32 else c.

Definition same (icase : bool) (a c : N) : bool :=
  if icase then upper a =? upper c else a =? c.

Definition swapcase (c : N) : N :=
  if (97 <=? c) && (c <=? 122) then c - 32
  else if (65 <=? c) && (c <=? 90) then c + 32 else c.

Definition in_range (lo hi c : N) : bool := (lo <=? c) && (c <=? hi).

Definition in_item (icase : bool) (c : N) (it : cset_item) : bool :=
  match it with
  | Range lo hi => in_range lo hi c || icase && in_range lo hi (swapcase c)
  | One a => same icase a c
  | Space => JsString.is_space c
  | NonSpace => negb (JsString.is_space c)
  end.

Definition in_class (icase negated : bool) (items : list cset_item) (c : N) : bool :=
  xorb negated (existsb (in_item icase c) items).

Definition is_word (c : option N) : bool :=
  match c with
  | None => false
  | Some c =>
      (97 <=? c) && (c <=? 122) || (65 <=? c) && (c <=? 90)
      || (48 <=? c) && (c <=? 57) || (c =? 95)
  end.

(** The characters consumed between two positions of one subject. *)
Definition consumed (z z' : pos) : jsstring :=
  firstn (List.length (snd z) - List.length (snd z')) (snd z).

Definition dec_max (mx : option nat) : option nat := option_map Nat.pred mx.

Definition exhausted (mx : option nat) : bool :=
  match mx with Some O => true | _ => false end.

Definition result_ : Type := option (pos * captures).
Definition continuation : Type := pos -> captures -> result_.
Definition matcher : Type := pos -> captures -> continuation -> result_.

(** A quantified atom. An iteration that is not required and consumes
    nothing is rejected; each iteration uses one unit of [fuel], and
    [min] plus the number of characters ahead bounds the iterations. *)
Fixpoint iterate (step : matcher) (greedy : bool) (k : continuation)
    (fuel mn : nat) (mx : option nat) (z : pos) (c : captures) {struct fuel}
  : result_ :=
  let again (_ : unit) :=
    match fuel with
    | O => None
    | S fuel' =>
        if exhausted mx then None
        else step z c (fun z' c' =>
               if Nat.eqb mn 0
                  && Nat.leb (List.length (snd z)) (List.length (snd z'))
               then None
               else iterate step greedy k fuel' (Nat.pred mn) (dec_max mx) z' c')
    end in
  match mn with
  | S _ => again tt
  | O =>
      if greedy then
        match again tt with Some x => Some x | None => k z c end
      else
        match k z c with Some x => Some x | None => again tt end
  end.

Fixpoint m (icase : bool) (r : re) (z : pos) (c : captures) (k : continuation)
    {struct r} : result_ :=
  match r with
  | Empty => k z c
  | Char a =>
      match snd z with
      | x :: xs => if same icase a x then k (x :: fst z, xs) c else None
      | [] => None
      end
  | Class neg items =>
      match snd z with
      | x :: xs => if in_class icase neg items x then k (x :: fst z, xs) c else None
      | [] => None
      end
  | Cat r1 r2 => m icase r1 z c (fun z' c' => m icase r2 z' c' k)
  | Alt r1 r2 =>
      match m icase r1 z c k with
      | Some x => Some x
      | None => m icase r2 z c k
      end
  | Repeat mn mx greedy r' =>
      iterate (m icase r') greedy k (S (mn + List.length (snd z))) mn mx z c
  | Group i r' => m icase r' z c (fun z' c' => k z' ((i, consumed z z') :: c'))
  | NegLookahead r' =>
      match m icase r' z c (fun z' c' => Some (z', c')) with
      | Some _ => None
      | None => k z c
      end
  | WordBoundary =>
      if xorb (is_word (hd_error (fst z))) (is_word (hd_error (snd z)))
      then k z c else None
  | Bol => match fst z with [] => k z c | _ => None end
  | Eol => match snd z with [] => k z c | _ => None end
  end.

Definition at_pos (icase : bool) (r : re) (z : pos) : result_ :=
  m icase r z [] (fun z' c' => Some (z', c')).

(** Leftmost match at or after a position: start, end, captures. *)
Fixpoint search (icase : bool) (r : re) (before rest : list N)
  : option (pos * pos * captures) :=
  match at_pos icase r (before, rest) with
  | Some (z', c) => Some ((before, rest), z', c)
  | None =>
      match rest with
      | [] => None
      | x :: xs => search icase r (x :: before) xs
      end
  end.

Fixpoint group (i : nat) (c : captures) : option jsstring :=
  match c with
  | [] => None
  | (j, s) :: c' => if Nat.eqb i j then Some s else group i c'
  end.

(** [s.match(r)] without the [g] flag: the whole match and the captures. *)
Definition exec (icase : bool) (r : re) (s : jsstring)
  : option (jsstring * captures) :=
  match search icase r [] s with
  | Some (z, z', c) => Some (consumed z z', c)
  | None => None
  end.

(** Step of a global scan: after an empty match the scan moves on by one
    character. *)
Definition advance (z z' : pos) : option pos :=
  if Nat.ltb (List.length (snd z')) (List.length (snd z)) then Some z'
  else match snd z' with
       | [] => None
       | x :: xs => Some (x :: fst z', xs)
       end.

(** [s.match(r)] with the [g] flag: every match, left to right. *)
Fixpoint scan (fuel : nat) (icase : bool) (r : re) (z : pos) : list jsstring :=
  match fuel with
  | O => []
  | S fuel' =>
      match search icase r (fst z) (snd z) with
      | None => []
      | Some (z1, z2, _) =>
          consumed z1 z2 ::
          match advance z1 z2 with
          | None => []
          | Some z3 => scan fuel' icase r z3
          end
      end
  end.

Definition matchAll (icase : bool) (r : re) (s : jsstring) : list jsstring :=
  scan (S (List.length s)) icase r ([], s).

(** [s.replace(r, by)] with the [g] flag. *)
Fixpoint subst (fuel : nat) (icase : bool) (r : re) (by_ : jsstring) (z : pos)
  : jsstring :=
  match fuel with
  | O => snd z
  | S fuel' =>
      match search icase r (fst z) (snd z) with
      | None => snd z
      | Some (z1, z2, _) =>
          consumed z z1 ++ by_ ++
          match advance z1 z2 with
          | None => []
          | Some z3 => consumed z2 z3 ++ subst fuel' icase r by_ z3
          end
      end
  end.

Definition replaceAll (icase : bool) (r : re) (by_ : jsstring) (s : jsstring)
  : jsstring :=
  subst (S (List.length s)) icase r by_ ([], s).

(** Pattern syntax helpers. *)
Fixpoint str (s : jsstring) : re :=
  match s with
  | [] => Empty
  | [c] => Char c
  | c :: s' => Cat (Char c) (str s')
  end.

Fixpoint cat (rs : list re) : re :=
  match rs with
  | [] => Empty
  | [r] => r
  | r :: rs' => Cat r (cat rs')
  end.

Definition star (r : re) : re := Repeat 0 None true r.
Definition lazy_star (r : re) : re := Repeat 0 None false r.
Definition plus (r : re) : re := Repeat 1 None true r.
Definition opt (r : re) : re := Repeat 0 (Some 1%nat) true r.
Definition none_of (cs : list N) : re := Class true (map One cs).
Definition one_of (cs : list N) : re := Class false (map One cs).
Definition any : re := Class false [Space; NonSpace].   (* [\s\S] *)

End Regex.

(** ** Exceptions and results *)

Inductive exn :=
| TypeError             (* a property or method of a value that has none *)
| URIError              (* decodeURIComponent on a malformed escape *)
| SyntaxError           (* JSON.parse on text that is not JSON *)
| Rejected (what : jsstring).   (* a failure of an external service *)

Inductive result (A : Type) :=
| Ok (a : A)
| Throw (e : exn).
Arguments Ok {A} a.
Arguments Throw {A} e.

(** ** decodeURIComponent *)

Module URI.

Definition hex (c : N) : option N :=
  if (48 <=? c) && (c <=? 57) then Some (c - 48)
  else if (65 <=? c) && (c <=? 70) then Some (c - 55)
  else if (97 <=? c) && (c <=? 102) then Some (c - 87)
  else None.

(** One [%XX] escape at the head of the text. *)
Definition octet (s : jsstring) : option (N * jsstring) :=
  match s with
  | 37 :: a :: b :: s' =>
      match hex a, hex b with
      | Some x, Some y => Some (16 * x + y, s')
      | _, _ => None
      end
  | _ => None
  end.

(** [n] continuation octets, each [10xxxxxx], folded into the code point. *)
Fixpoint continuation (n : nat) (acc : N) (s : jsstring) : option (N * jsstring) :=
  match n with
  | O => Some (acc, s)
  | S n' =>
      match octet s with
      | Some (b, s') =>
          if (128 <=? b) && (b <=? 191)
          then continuation n' (64 * acc + (b - 128)) s'
          else None
      | None => None
      end
  end.

Definition utf16 (cp : N) : jsstring :=
  if cp <? 65536 then [cp]
  else [55296 + (cp - 65536) / 1024; 56320 + (cp - 65536) mod 1024].

Definition scalar (lo cp : N) : bool :=
  (lo <=? cp) && (cp <=? 1114111) && negb ((55296 <=? cp) && (cp <=? 57343)).

Fixpoint decode (fuel : nat) (s : jsstring) : result jsstring :=
  match fuel with
  | O => Ok []
  | S fuel' =>
      match s with
      | [] => Ok []
      | c :: s' =>
          if c =? 37 then
            match octet s with
            | None => Throw URIError
            | Some (b, s1) =>
                let multi (n : nat) (lead lo : N) :=
                  match continuation n lead s1 with
                  | Some (cp, s2) =>
                      if scalar lo cp then
                        match decode fuel' s2 with
                        | Ok d => Ok (utf16 cp ++ d)
                        | Throw e => Throw e
                        end
                      else Throw URIError
                  | None => Throw URIError
                  end in
                if b <? 128 then
                  match decode fuel' s1 with
                  | Ok d => Ok (b :: d)
                  | Throw e => Throw e
                  end
                else if b <? 192 then Throw URIError
                else if b <? 224 then multi 1%nat (b - 192) 128
                else if b <? 240 then multi 2%nat (b - 224) 2048
                else if b <? 248 then multi 3%nat (b - 240) 65536
                else Throw URIError
            end
          else
            match decode fuel' s' with
            | Ok d => Ok (c :: d)
            | Throw e => Throw e
            end
      end
  end.

Definition decodeURIComponent (s : jsstring) : result jsstring :=
  decode (List.length s) s.

End URI.

(** ** The patterns of the source *)

Module Pat.
Import Regex.

(** In the comments of this module, Q stands for the double quote. *)

Definition lt_ : N := 60.
Definition gt_ : N := 62.
Definition colon : N := 58.
Definition pipe : N := 124.
Definition quotes : list N := [JsString.dquote; JsString.squote].

(** [/<X[^>]*>([\s\S]*?)<\/X>/i] for an element name [X] *)
Definition element (name : jsstring) : re :=
  cat [Char lt_; str name; star (none_of [gt_]); Char gt_;
       Group 1 (lazy_star any);
       str (jss "</"); str name; Char gt_].

Definition title := element (jss "title").
Definition h1 := element (jss "h1").
Definition h2 := element (jss "h2").

(** [/<meta[^>]*name=[Q']description[Q'][^>]*content=[Q']([^Q']+)[Q']/i] *)
Definition metaNameContent : re :=
  cat [str (jss "<meta"); star (none_of [gt_]);
       str (jss "name="); one_of quotes; str (jss "description"); one_of quotes;
       star (none_of [gt_]);
       str (jss "content="); one_of quotes; Group 1 (plus (none_of quotes));
       one_of quotes].

(** [/<meta[^>]*content=[Q']([^Q']+)[Q'][^>]*name=[Q']description[Q']/i] *)
Definition metaContentName : re :=
  cat [str (jss "<meta"); star (none_of [gt_]);
       str (jss "content="); one_of quotes; Group 1 (plus (none_of quotes));
       one_of quotes;
       star (none_of [gt_]);
       str (jss "name="); one_of quotes; str (jss "description"); one_of quotes].

(** [/<p[^>]*class=Q[^Q]*(?:hero|subtitle|lead|intro)[^Q]*Q[^>]*>([\s\S]*?)<\/p>/i] *)
Definition heroParagraph : re :=
  cat [str (jss "<p"); star (none_of [gt_]);
       str (jss "class="); Char JsString.dquote;
       star (none_of [JsString.dquote]);
       Alt (str (jss "hero"))
         (Alt (str (jss "subtitle")) (Alt (str (jss "lead")) (str (jss "intro"))));
       star (none_of [JsString.dquote]); Char JsString.dquote;
       star (none_of [gt_]); Char gt_;
       Group 1 (lazy_star any);
       str (jss "</p>")].

(** [/<[^>]+>/g] *)
Definition tag : re := cat [Char lt_; plus (none_of [gt_]); Char gt_].

(** The pattern that removes a script or style element, flags [gi]: the
    opening [<X\b], then [[^<]*], then any number of repetitions of a [<]
    that does not start [<\/X>] followed by [[^<]*], then [<\/X>]. *)
Definition block (name : jsstring) : re :=
  let close := cat [str (jss "</"); str name; Char gt_] in
  cat [Char lt_; str name; WordBoundary; star (none_of [lt_]);
       star (cat [NegLookahead close; Char lt_; star (none_of [lt_])]);
       close].

Definition script := block (jss "script").
Definition style := block (jss "style").

(** [/\s+/g] *)
Definition spaces : re := plus (Class false [Space]).

(** [/\{[\s\S]*\}/] *)
Definition braces : re := cat [Char 123; star any; Char 125].

(** [/(?:color|background|background-color)\s*:\s*(#[0-9a-fA-F]{3,6}|rgb\([^)]+\)|[a-z]+)/gi] *)
Definition color : re :=
  cat [Alt (str (jss "color"))
         (Alt (str (jss "background")) (str (jss "background-color")));
       star (Class false [Space]); Char colon; star (Class false [Space]);
       Group 1
         (Alt (Cat (Char 35)
                 (Repeat 3 (Some 6%nat) true
                    (Class false [Range 48 57; Range 97 102; Range 65 70])))
            (Alt (cat [str (jss "rgb("); plus (none_of [41]); Char 41])
               (plus (Class false [Range 97 122]))))].

(** [/font-family\s*:\s*['Q]?([^'Q;,]+)/gi] *)
Definition fontFamily : re :=
  cat [str (jss "font-family"); star (Class false [Space]); Char colon;
       star (Class false [Space]); opt (one_of [JsString.squote; JsString.dquote]);
       Group 1 (plus (none_of [JsString.squote; JsString.dquote; 59; 44]))].

(** [/['Q]/g] *)
Definition quote : re := one_of [JsString.squote; JsString.dquote].

(** [/fonts\.googleapis\.com\/css[^Q']+family=([^Q'&]+)/i] *)
Definition googleFonts : re :=
  cat [str (jss "fonts.googleapis.com/css"); plus (none_of quotes);
       str (jss "family=");
       Group 1 (plus (none_of [JsString.dquote; JsString.squote; 38]))].

(** The separator of the chart's visual cell: space, middle dot, space. *)
Definition dot_sep : jsstring := [32; 183; 32].

(** [/^ · | · $/g] *)
Definition edgeDot : re := Alt (Cat Bol (str dot_sep)) (Cat (str dot_sep) Eol).

End Pat.

(** ** Values

    The values that cross the boundaries of the program: request payloads,
    parsed LLM replies and the report. Objects keep their properties in
    insertion order. (JavaScript lists the names that are array indices
    first; the statements about maps keyed by brand names are therefore
    about what is found under a name, never about the order.) *)

Unset Elimination Schemes.
Inductive value :=
| VUndefined
| VNull
| VBool (b : bool)
| VNumber (f : float)
| VString (s : jsstring)
| VArray (items : list value)
| VObject (props : list (jsstring * value)).
Set Elimination Schemes.

Module Js.

Definition truthy (v : value) : bool :=
  match v with
  | VUndefined | VNull => false
  | VBool b => b
  | VNumber f => negb (PrimFloat.eqb f 0 || PrimFloat.is_nan f)
  | VString s => negb (JsString.eqb s [])
  | VArray _ | VObject _ => true
  end.

Definition nullish (v : value) : bool :=
  match v with
  | VUndefined | VNull => true
  | _ => false
  end.

(** [a || b] *)
Definition or (a b : value) : value := if truthy a then a else b.

Fixpoint lookup (k : jsstring) (o : list (jsstring * value)) : option value :=
  match o with
  | [] => None
  | (k', v) :: o' => if JsString.eqb k k' then Some v else lookup k o'
  end.

(** Defining a property: an existing key keeps its place. *)
Fixpoint set (k : jsstring) (v : value) (o : list (jsstring * value))
  : list (jsstring * value) :=
  match o with
  | [] => [(k, v)]
  | (k', v') :: o' =>
      if JsString.eqb k k' then (k, v) :: o' else (k', v') :: set k v o'
  end.

Definition assign (o extra : list (jsstring * value)) : list (jsstring * value) :=
  fold_left (fun acc kv => set (fst kv) (snd kv) acc) extra o.

Fixpoint indexed {A} (f : A -> value) (i : nat) (xs : list A)
  : list (jsstring * value) :=
  match xs with
  | [] => []
  | x :: xs' => (JsString.of_index i, f x) :: indexed f (S i) xs'
  end.

(** The own enumerable properties a spread [...v] copies. *)
Definition own (v : value) : list (jsstring * value) :=
  match v with
  | VObject o => o
  | VArray l => indexed (fun x => x) 0 l
  | VString s => indexed (fun c => VString [c]) 0 s
  | _ => []
  end.

(** [{...a, ...b}] *)
Definition spread2 (a b : value) : value :=
  VObject (assign (assign [] (own a)) (own b)).

(** [v.k] for a property name that no prototype defines. *)
Definition get (v : value) (k : jsstring) : result value :=
  match v with
  | VUndefined | VNull => Throw TypeError
  | VObject o => Ok (match lookup k o with Some x => x | None => VUndefined end)
  | _ => Ok VUndefined
  end.

(** [v?.k] *)
Definition get_opt (v : value) (k : jsstring) : value :=
  match get v k with
  | Ok x => x
  | Throw _ => VUndefined
  end.

Definition of_option (o : option jsstring) : value :=
  match o with
  | Some s => VString s
  | None => VNull
  end.

End Js.

(** ** The environment, and computations in it *)

Inductive stage :=
| Suggestion | Messaging | Visuals | FirstImpressions | Comparator | Takeaways.

(** A request to the model: which stage asks, the values interpolated into
    the stage's fixed instruction text (in the order they appear) and the
    attached images. *)
Record request := Request {
  req_stage : stage;
  req_holes : list jsstring;
  req_images : list jsstring
}.

Inductive block :=
| TextBlock (text : jsstring)
| OtherBlock.

Inductive event :=
| Fetched (url : jsstring)
| Captured (url : jsstring)
| Searched (query : value)
| Asked (req : request)
| Waited (ms : nat).

Definition trace := list event.

(** What the program does not implement: the network, the browser, the
    model and the built-ins whose results the source relies on. Each
    external call may depend on everything that happened before it. *)
Record host := Host {
  http_get : trace -> jsstring -> result jsstring;
  screenshot : trace -> jsstring -> option jsstring;
  search_screenshot : trace -> value -> option jsstring;
  messages_create : trace -> request -> result (list block);
  JSON_parse : jsstring -> option value;
  Number_toString : float -> jsstring
}.

Definition M (A : Type) : Type := host -> trace -> result A * trace.

Definition ret {A} (a : A) : M A := fun _ t => (Ok a, t).

Definition throw {A} (e : exn) : M A := fun _ t => (Throw e, t).

Definition bind {A B} (m : M A) (f : A -> M B) : M B :=
  fun h t =>
    match m h t with
    | (Ok a, t') => f a h t'
    | (Throw e, t') => (Throw e, t')
    end.

Definition try_catch {A} (m : M A) (handler : exn -> M A) : M A :=
  fun h t =>
    match m h t with
    | (Ok a, t') => (Ok a, t')
    | (Throw e, t') => handler e h t'
    end.

Definition lift {A} (r : result A) : M A := fun _ t => (r, t).

Declare Scope js_scope.
Delimit Scope js_scope with js.
Notation "x <- m ;; k" := (bind m (fun x => k))
  (at level 61, m at next level, right associativity) : js_scope.
Notation "m ;;; k" := (bind m (fun _ => k))
  (at level 61, right associativity) : js_scope.
Open Scope js_scope.

Fixpoint mapM {A B} (f : A -> M B) (xs : list A) : M (list B) :=
  match xs with
  | [] => ret []
  | x :: xs' => y <- f x ;; ys <- mapM f xs' ;; ret (y :: ys)
  end.

(** A promise, as the outcome it settles with. *)
Definition promise (A : Type) : Type := result A.

(** The call of an async function whose body is [m]. The call does not
    throw: what the body throws rejects the promise. The body runs to its
    end whatever becomes of the promises started beside it; promises that
    are under way together are run here one after the other, in the order
    of their creation. *)
Definition start {A} (m : M A) : M (promise A) :=
  try_catch (a <- m ;; ret (Ok a)) (fun e => ret (Throw e)).

(** [await p] *)
Definition await {A} (p : promise A) : M A := lift p.

(** [Promise.all(ps)] is fulfilled with the values of [ps] when all of them
    are fulfilled, and rejected with the reason of the first that is
    rejected: here the first of the list. The promises of the two audits
    are rejected by a TypeError only (a competitor that is null, a URL
    that is no string), so the reason is the same whichever comes first. *)
Fixpoint Promise_all {A} (ps : list (promise A)) : promise (list A) :=
  match ps with
  | [] => Ok []
  | Ok a :: ps' =>
      match Promise_all ps' with
      | Ok l => Ok (a :: l)
      | Throw e => Throw e
      end
  | Throw e :: _ => Throw e
  end.

(** [await fetch(url)] followed by [await response.text()] *)
Definition fetch (url : jsstring) : M jsstring :=
  fun h t => (http_get h t url, t ++ [Fetched url]).

(** The browser session of [takeScreenshot], from launch to close. *)
Definition capture (url : jsstring) : M (option jsstring) :=
  fun h t => (Ok (screenshot h t url), t ++ [Captured url]).

Definition capture_search (query : value) : M (option jsstring) :=
  fun h t => (Ok (search_screenshot h t query), t ++ [Searched query]).

(** [await anthropic.messages.create(...)], giving [response.content] *)
Definition ask (req : request) : M (list block) :=
  fun h t => (messages_create h t req, t ++ [Asked req]).

(** [await new Promise(r => setTimeout(r, ms))] *)
Definition sleep (ms : nat) : M unit :=
  fun _ t => (Ok tt, t ++ [Waited ms]).

(** [JSON.parse(s)] *)
Definition parse (s : jsstring) : M value :=
  fun h t =>
    (match JSON_parse h s with Some v => Ok v | None => Throw SyntaxError end, t).

(** Conversion to string, as a template literal or [join] performs it. An
    object converts through [toString]; one that carries a property of
    that name has nothing callable there. *)
Fixpoint toString (h : host) (v : value) : result jsstring :=
  match v with
  | VUndefined => Ok (jss "undefined")
  | VNull => Ok (jss "null")
  | VBool true => Ok (jss "true")
  | VBool false => Ok (jss "false")
  | VNumber f => Ok (Number_toString h f)
  | VString s => Ok s
  | VArray l =>
      (fix items (l : list value) : result jsstring :=
         match l with
         | [] => Ok []
         | x :: l' =>
             match (if Js.nullish x then Ok [] else toString h x) with
             | Throw e => Throw e
             | Ok s =>
                 match l' with
                 | [] => Ok s
                 | _ => match items l' with
                        | Ok r => Ok (s ++ [44] ++ r)
                        | Throw e => Throw e
                        end
                 end
             end
         end) l
  | VObject o =>
      match Js.lookup (jss "toString") o with
      | Some _ => Throw TypeError
      | None => Ok (jss "[object Object]")
      end
  end.

Definition str (v : value) : M jsstring := fun h t => (toString h v, t).

(** [xs.join(sep)] on an array of values *)
Fixpoint join_values (sep : jsstring) (xs : list value) : M jsstring :=
  match xs with
  | [] => ret []
  | x :: xs' =>
      s <- (if Js.nullish x then ret [] else str x) ;;
      match xs' with
      | [] => ret s
      | _ => r <- join_values sep xs' ;; ret (s ++ sep ++ r)
      end
  end.

Definition comma_space : jsstring := [44; 32].

(** [v?.join(', ')]: undefined for a missing value, the joined text for an
    array; anything else has no [join] to call. *)
Definition join_opt (v : value) : M value :=
  match v with
  | VUndefined | VNull => ret VUndefined
  | VArray l => s <- join_values comma_space l ;; ret (VString s)
  | _ => throw TypeError
  end.

(** ** URL normalisation and the fetcher

    [normalizeUrl] is the same function in the three programs;
    [fetchWebsite] is the same in the two Netlify functions, and the server
    has its own. *)

Definition http_scheme : jsstring := jss "http://".
Definition https_scheme : jsstring := jss "https://".
Definition scheme_sep : jsstring := jss "://".
Definition www_sep : jsstring := jss "://www.".

Definition normalizeUrl (url : value) : result jsstring :=
  match url with
  | VString s =>
      let url := JsString.trim s in
      Ok (if negb (JsString.startsWith url http_scheme)
             && negb (JsString.startsWith url https_scheme)
          then https_scheme ++ url
          else url)
  | _ => Throw TypeError     (* no [trim] to call *)
  end.

Definition fetchWebsite (url : value) : M (option jsstring) :=
  url <- lift (normalizeUrl url) ;;
  try_catch
    (html <- fetch url ;; ret (Some html))
    (fun _ =>
       try_catch
         (let wwwUrl := JsString.replace url scheme_sep www_sep in
          html <- fetch wwwUrl ;; ret (Some html))
         (fun _ => ret None)).

(** ** Structured content *)

Section Extraction.
Import Regex.

(** Group 1 of the first match, if the pattern matches. *)
Definition first_capture (icase : bool) (r : re) (s : jsstring) : option jsstring :=
  match exec icase r s with
  | Some (_, c) => group 1 c
  | None => None
  end.

(** [m ? m[1].trim() : ''] *)
Definition trimmed_capture (r : re) (html : jsstring) : jsstring :=
  match first_capture true r html with
  | Some g => JsString.trim g
  | None => []
  end.

(** [m ? m[1].replace(/<[^>]+>/g, '').trim() : ''] *)
Definition stripped_capture (r : re) (html : jsstring) : jsstring :=
  match first_capture true r html with
  | Some g => JsString.trim (replaceAll false Pat.tag [] g)
  | None => []
  end.

(** The meta description, with either order of the two attributes. *)
Definition metaDescMatch (html : jsstring) : option jsstring :=
  match first_capture true Pat.metaNameContent html with
  | Some g => Some g
  | None => first_capture true Pat.metaContentName html
  end.

Definition without_blocks (html : jsstring) : jsstring :=
  let text := replaceAll true Pat.script [] html in
  let text := replaceAll true Pat.style [] text in
  replaceAll false Pat.tag [32] text.

Definition collapse (text : jsstring) : jsstring :=
  JsString.trim (replaceAll false Pat.spaces [32] text).

Definition entity (name : string) (by_ : jsstring) (text : jsstring) : jsstring :=
  replaceAll false (str (jss name)) by_ text.

(** [[...new Set(xs)]]: the distinct strings, in first-seen order. *)
Fixpoint distinct_from (seen xs : list jsstring) : list jsstring :=
  match xs with
  | [] => []
  | x :: xs' =>
      if existsb (JsString.eqb x) seen then distinct_from seen xs'
      else x :: distinct_from (x :: seen) xs'
  end.

Definition distinct (xs : list jsstring) : list jsstring := distinct_from [] xs.

(** [xs.map(f).filter(Boolean)] where [f] yields a string or undefined *)
Fixpoint defined_nonempty (f : jsstring -> option jsstring) (xs : list jsstring)
  : list jsstring :=
  match xs with
  | [] => []
  | x :: xs' =>
      match f x with
      | Some (c :: y) => (c :: y) :: defined_nonempty f xs'
      | _ => defined_nonempty f xs'
      end
  end.

(** [c.split(':')[1]?.trim()] *)
Definition color_value (c : jsstring) : option jsstring :=
  option_map JsString.trim (nth_error (JsString.split Pat.colon c) 1).

(** [f.split(':')[1]?.trim().replace(/['Q]/g, '')], Q the double quote *)
Definition font_value (f : jsstring) : option jsstring :=
  option_map (fun v => replaceAll false Pat.quote [] (JsString.trim v))
    (nth_error (JsString.split Pat.colon f) 1).

(** [f.split(':')[0]] *)
Definition family_name (f : jsstring) : jsstring :=
  hd [] (JsString.split Pat.colon f).

Definition could_not_detect : jsstring := jss "Could not detect".

(** [xs.join(', ') || 'Could not detect'] *)
Definition joined_or_unknown (xs : list jsstring) : jsstring :=
  match JsString.join comma_space xs with
  | [] => could_not_detect
  | s => s
  end.

End Extraction.

(** ** Replies and responses *)

Inductive body :=
| Json (v : value)              (* the JSON text of a value *)
| Text (s : jsstring)           (* a string sent as it is *)
| ErrorMessage (e : exn).       (* [{ error: error.message }] of a caught exception *)

Record response := Response { statusCode : nat; payload : body }.

Definition error_object (message : string) : body :=
  Json (VObject [(jss "error", VString (jss message))]).

(** The outer [try]/[catch] of a handler. *)
Definition caught (m : M response) : M response :=
  try_catch m (fun error => ret (Response 500 (ErrorMessage error))).

(** [block.text.match(/\{[\s\S]*\}/)] *)
Definition jsonMatch (text : jsstring) : option jsstring :=
  option_map fst (Regex.exec false Pat.braces text).

(** The reply loop of the Netlify stage functions: the first text block
    with a brace span decides, and [JSON.parse] is not guarded. *)
Fixpoint first_json (content : list block) : M value :=
  match content with
  | [] => ret VNull
  | TextBlock text :: rest =>
      match jsonMatch text with
      | Some span => parse span
      | None => first_json rest
      end
  | OtherBlock :: rest => first_json rest
  end.

(** The reply loop of the server's stage functions: a block whose span
    does not parse is logged and the loop goes on. *)
Fixpoint first_json_guarded (otherwise : value) (content : list block) : M value :=
  match content with
  | [] => ret otherwise
  | TextBlock text :: rest =>
      match jsonMatch text with
      | Some span => try_catch (parse span) (fun _ => first_json_guarded otherwise rest)
      | None => first_json_guarded otherwise rest
      end
  | OtherBlock :: rest => first_json_guarded otherwise rest
  end.

(** The comparison loops assign and do not return: the last block wins. *)
Fixpoint last_json (comparison : value) (content : list block) : M value :=
  match content with
  | [] => ret comparison
  | TextBlock text :: rest =>
      match jsonMatch text with
      | Some span => v <- parse span ;; last_json v rest
      | None => last_json comparison rest
      end
  | OtherBlock :: rest => last_json comparison rest
  end.

Fixpoint last_json_guarded (comparison : value) (content : list block) : M value :=
  match content with
  | [] => ret comparison
  | TextBlock text :: rest =>
      match jsonMatch text with
      | Some span =>
          comparison <- try_catch (parse span) (fun _ => ret comparison) ;;
          last_json_guarded comparison rest
      | None => last_json_guarded comparison rest
      end
  | OtherBlock :: rest => last_json_guarded comparison rest
  end.

Definition post : jsstring := jss "POST".

(** A Netlify function event: the method and the raw body. *)
Record lambda_event := LambdaEvent {
  httpMethod : jsstring;
  event_body : option jsstring
}.

(** [JSON.parse(event.body)]; a null body is parsed as the text [null]. *)
Definition parse_body (event : lambda_event) : M value :=
  parse (match event_body event with Some s => s | None => jss "null" end).

(** ** Shared pieces of the two audit programs *)

Definition em_dash : jsstring := [8212].
Definition spaced_dash : jsstring := [32; 8212; 32].
Definition newline : jsstring := [10].
Definition none_text : value := VString (jss "None").

(** [v?.voiceAdjectives?.join(', ')] *)
Definition voice_joined (inf : value) : M value :=
  join_opt (Js.get_opt inf (jss "voiceAdjectives")).

(** [inf?.voiceAdjectives?.join(', ') || 'unknown'] *)
Definition formatVoiceForComparison (inf : value) : M value :=
  adjs <- voice_joined inf ;;
  ret (Js.or adjs (VString (jss "unknown"))).

(** The body shared by [formatVoice] and [formatVoiceFull]. *)
Definition voice_cell (inf : value) : M value :=
  adjs <- voice_joined inf ;;
  let adjs := Js.or adjs (VString []) in
  let summary := Js.or (Js.get_opt inf (jss "voiceSummary")) (VString []) in
  if Js.truthy adjs then
    a <- str adjs ;;
    tail <- (if Js.truthy summary
             then s <- str summary ;; ret (spaced_dash ++ s)
             else ret []) ;;
    ret (VString (a ++ tail))
  else ret (Js.or summary (VString em_dash)).

(** [xs?.map(f).join(', ')] where [xs] came from a parsed reply *)
Definition map_join_opt (f : value -> M value) (xs : value) : M value :=
  match xs with
  | VUndefined | VNull => ret VUndefined
  | VArray l =>
      ys <- mapM f l ;;
      s <- join_values comma_space ys ;;
      ret (VString s)
  | _ => throw TypeError
  end.

(** [o.pattern] *)
Definition pattern_of (o : value) : M value := lift (Js.get o (jss "pattern")).

(** A competitor profile [{ name: c.name, ...c.inferred }] *)
Definition named_profile (name inferred : value) : value :=
  VObject (Js.assign [(jss "name", name)] (Js.own inferred)).

(** Text lines joined by [sep]. *)
Definition lines (sep : jsstring) (xs : list jsstring) : jsstring :=
  JsString.join sep xs.

(** ** The suggest-competitors function (Netlify) *)

Module Suggest.

Record structured := Structured { h1 : jsstring; text : jsstring }.

Definition extractStructuredContent (html : option jsstring) : structured :=
  match html with
  | None | Some [] => Structured [] []
  | Some html =>
      let h1 := stripped_capture Pat.h1 html in
      let text := without_blocks html in
      let text := JsString.substring0 800 (collapse text) in
      Structured h1 text
  end.

(** [for (const block of response.content) ...]: the first span found is
    the whole response body. *)
Fixpoint first_span (content : list block) : option jsstring :=
  match content with
  | [] => None
  | TextBlock text :: rest =>
      match jsonMatch text with
      | Some span => Some span
      | None => first_span rest
      end
  | OtherBlock :: rest => first_span rest
  end.

Definition handler (event : lambda_event) : M response :=
  if negb (JsString.eqb (httpMethod event) post) then
    ret (Response 405 (Text (jss "Method Not Allowed")))
  else caught (
    parsed <- parse_body event ;;
    companyUrl <- lift (Js.get parsed (jss "companyUrl")) ;;
    companyName <- lift (Js.get parsed (jss "companyName")) ;;
    if negb (Js.truthy companyUrl) || negb (Js.truthy companyName) then
      ret (Response 400 (error_object "Missing company URL or name"))
    else
      html <- fetchWebsite companyUrl ;;
      let structured := extractStructuredContent html in
      name <- str companyName ;;
      content <- ask (Request Suggestion [name; h1 structured; text structured] []) ;;
      match first_span content with
      | Some span => ret (Response 200 (Text span))
      | None =>
          ret (Response 200 (Json (VObject [(jss "competitors", VArray [])])))
      end).

End Suggest.

(** ** The audit function (Netlify) *)

Module Audit.

Record structured := Structured {
  metaTitle : jsstring;
  metaDescription : jsstring;
  h1 : jsstring;
  subheadline : jsstring;
  text : jsstring
}.

Definition extractStructuredContent (html : option jsstring) : structured :=
  match html with
  | None | Some [] => Structured [] [] [] [] []
  | Some html =>
      let metaTitle := trimmed_capture Pat.title html in
      let metaDescription :=
        match metaDescMatch html with
        | Some g => JsString.trim g
        | None => []
        end in
      let h1 := stripped_capture Pat.h1 html in
      let subheadline := stripped_capture Pat.h2 html in
      let text := without_blocks html in
      let text := entity "&amp;" [38] (entity "&nbsp;" [32] text) in
      let text := JsString.substring0 1500 (collapse text) in
      Structured metaTitle metaDescription
        (JsString.substring0 200 h1) (JsString.substring0 300 subheadline) text
  end.

Definition extractMessaging (companyName : value) (content : structured) : M value :=
  name <- str companyName ;;
  reply <- ask (Request Messaging
                  [name; h1 content; subheadline content; text content] []) ;;
  first_json reply.

Definition analyzeFirstImpressions (companyName : value)
    (metaTitle metaDescription h1 : jsstring) : M value :=
  name <- str companyName ;;
  reply <- ask (Request FirstImpressions [name; metaTitle; metaDescription; h1] []) ;;
  first_json reply.

Definition competitor_line (c : value) : M jsstring :=
  n <- lift (Js.get c (jss "name")) ;; n <- str n ;;
  p <- lift (Js.get c (jss "positioning")) ;; p <- str p ;;
  ret (n ++ jss ": " ++ p).

Definition generateTakeaways (companyName companyData : value)
    (competitorData : list value) (comparison : value) : M value :=
  name <- str companyName ;;
  positioning <- lift (Js.get companyData (jss "positioning")) ;;
  positioning <- str positioning ;;
  voice <- voice_joined companyData ;;
  voice <- str voice ;;
  competitors <- mapM competitor_line competitorData ;;
  score <- lift (Js.get comparison (jss "score")) ;;
  score <- str score ;;
  overlaps <- map_join_opt pattern_of (Js.get_opt comparison (jss "overlaps")) ;;
  overlaps <- str (Js.or overlaps none_text) ;;
  reply <- ask (Request Takeaways
                  [name; positioning; voice; lines comma_space competitors;
                   score; overlaps] []) ;;
  first_json reply.

(** What the handler keeps of one competitor. *)
Record competitor := Competitor {
  c_name : value;
  c_url : value;
  c_structured : structured
}.

Record analysed := Analysed {
  a_name : value;
  a_url : value;
  a_scraped : value;
  a_inferred : value;
  a_firstImpressions : value
}.

(** The async callback of [competitors.map]: one competitor's page. *)
Definition collect (comp : value) : M competitor :=
  name <- lift (Js.get comp (jss "name")) ;;
  url <- lift (Js.get comp (jss "url")) ;;
  html <- fetchWebsite url ;;
  ret (Competitor name url (extractStructuredContent html)).

(** The body of the loop over [competitorData]. *)
Definition analyse (comp : competitor) : M analysed :=
  sleep 500 ;;;
  messaging <- extractMessaging (c_name comp) (c_structured comp) ;;
  sleep 500 ;;;
  firstImpressions <-
    analyzeFirstImpressions (c_name comp) (metaTitle (c_structured comp))
      (metaDescription (c_structured comp)) (h1 (c_structured comp)) ;;
  ret (Analysed (c_name comp) (c_url comp)
         (VObject [(jss "h1", VString (h1 (c_structured comp)));
                   (jss "subheadline", VString (subheadline (c_structured comp)))])
         (Js.or messaging (VObject []))
         (Js.or firstImpressions (VObject []))).

Definition summary_line (name positioning inferred : value) : M jsstring :=
  n <- str name ;;
  p <- str positioning ;;
  v <- formatVoiceForComparison inferred ;;
  v <- str v ;;
  ret (n ++ jss ": " ++ [JsString.dquote] ++ p ++ [JsString.dquote]
         ++ jss " | Voice: " ++ v).

Definition competitor_summary (c : analysed) : M jsstring :=
  p <- lift (Js.get (a_inferred c) (jss "positioning")) ;;
  summary_line (a_name c) p (a_inferred c).

(** [c.inferred.positioning || dash] *)
Definition positioning_cell (inferred : value) : value :=
  Js.or (Js.get_opt inferred (jss "positioning")) (VString em_dash).

Definition chartData (companyName companyMessaging : value)
    (competitorResults : list analysed) : M value :=
  voice <- voice_cell companyMessaging ;;
  voices <- mapM (fun c => voice_cell (a_inferred c)) competitorResults ;;
  ret (VObject
         [(jss "columns",
            VArray (VString (jss "Category") :: companyName
                      :: map a_name competitorResults));
          (jss "rows",
            VArray
              [VObject
                 [(jss "category", VString (jss "Positioning"));
                  (jss "values",
                    VArray (positioning_cell companyMessaging
                              :: map (fun c => positioning_cell (a_inferred c))
                                   competitorResults))];
               VObject
                 [(jss "category", VString (jss "Voice"));
                  (jss "values", VArray (voice :: voices))]])]).

(** One entry of the [firstImpressions] map. *)
Definition impression_entry (firstImpressions metaTitle metaDescription : value)
  : value :=
  VObject (Js.set (jss "metaDescription") metaDescription
             (Js.set (jss "metaTitle") metaTitle
                (Js.assign [] (Js.own firstImpressions)))).

Definition competitor_entry (c : analysed) : M (jsstring * value) :=
  key <- str (a_name c) ;;
  metaTitle <- lift (Js.get (a_scraped c) (jss "metaTitle")) ;;
  metaDescription <- lift (Js.get (a_scraped c) (jss "metaDescription")) ;;
  ret (key, impression_entry (a_firstImpressions c) metaTitle metaDescription).

Definition fifty : float := 50%float.

(** [competitors?.length] is truthy. *)
Definition has_length (competitors : value) : bool :=
  match competitors with
  | VArray l => negb (Nat.eqb (List.length l) 0)
  | VString s => negb (Nat.eqb (List.length s) 0)
  | VObject o => Js.truthy (Js.get_opt competitors (jss "length"))
  | _ => false
  end.

(** [competitors.map(...)]: only an array has the method. *)
Definition elements (competitors : value) : M (list value) :=
  match competitors with
  | VArray l => ret l
  | _ => throw TypeError
  end.

Definition handler (event : lambda_event) : M response :=
  if negb (JsString.eqb (httpMethod event) post) then
    ret (Response 405 (Text (jss "Method Not Allowed")))
  else caught (
    parsed <- parse_body event ;;
    companyUrl <- lift (Js.get parsed (jss "companyUrl")) ;;
    companyName <- lift (Js.get parsed (jss "companyName")) ;;
    competitors <- lift (Js.get parsed (jss "competitors")) ;;
    if negb (Js.truthy companyUrl) || negb (Js.truthy companyName)
       || negb (has_length competitors) then
      ret (Response 400 (error_object "Missing required fields"))
    else
      (* Fetch websites *)
      companyHtml <- fetchWebsite companyUrl ;;
      let companyStructured := extractStructuredContent companyHtml in
      comps <- elements competitors ;;
      promises <- mapM (fun comp => start (collect comp)) comps ;;
      competitorData <- await (Promise_all promises) ;;
      (* Analyze company *)
      companyMessaging <- extractMessaging companyName companyStructured ;;
      sleep 500 ;;;
      companyFirstImpressions <-
        analyzeFirstImpressions companyName (metaTitle companyStructured)
          (metaDescription companyStructured) (h1 companyStructured) ;;
      (* Analyze competitors *)
      competitorResults <- mapM analyse competitorData ;;
      (* Compare brands *)
      sleep 500 ;;;
      own_line <- summary_line companyName
                    (Js.get_opt companyMessaging (jss "positioning"))
                    companyMessaging ;;
      other_lines <- mapM competitor_summary competitorResults ;;
      let brandSummaries := lines newline (own_line :: other_lines) in
      name <- str companyName ;;
      comparisonResponse <-
        ask (Request Comparator [brandSummaries; name; name] []) ;;
      comparison <- last_json VNull comparisonResponse ;;
      (* Generate takeaways *)
      sleep 500 ;;;
      takeaways <-
        generateTakeaways companyName
          (Js.spread2 companyMessaging companyFirstImpressions)
          (map (fun c => named_profile (a_name c) (a_inferred c)) competitorResults)
          (Js.or comparison (VObject [])) ;;
      (* Build chart *)
      chart <- chartData companyName companyMessaging competitorResults ;;
      key <- str companyName ;;
      entries <- mapM competitor_entry competitorResults ;;
      ret (Response 200 (Json (VObject
        [(jss "score",
           Js.or (Js.get_opt comparison (jss "score")) (VNumber fifty));
         (jss "verdict",
           Js.or (Js.get_opt comparison (jss "verdict")) (VString []));
         (jss "overlaps",
           Js.or (Js.get_opt comparison (jss "overlaps")) (VArray []));
         (jss "standouts",
           Js.or (Js.get_opt comparison (jss "standouts")) (VArray []));
         (jss "takeaways", Js.or takeaways (VObject []));
         (jss "chart", chart);
         (jss "firstImpressions",
           VObject (Js.assign
                      [(key, impression_entry companyFirstImpressions
                               (VString (metaTitle companyStructured))
                               (VString (metaDescription companyStructured)))]
                      (Js.assign [] entries)))])))).

End Audit.

(** ** The server *)

Module Server.

Record structured := Structured {
  metaTitle : jsstring;
  metaDescription : jsstring;
  h1 : jsstring;
  subheadline : jsstring;
  colors : jsstring;
  fonts : jsstring;
  text : jsstring
}.

(** The font names before the final join: the first three distinct
    [font-family] values, then the families of a Google Fonts link. *)
Definition declared_fonts (html : jsstring) : list jsstring :=
  let fontMatches := Regex.matchAll true Pat.fontFamily html in
  firstn 3 (distinct (defined_nonempty font_value fontMatches)).

Definition google_families (html : jsstring) : result (list jsstring) :=
  match first_capture true Pat.googleFonts html with
  | Some g =>
      match URI.decodeURIComponent g with
      | Ok d => Ok (map family_name (JsString.split Pat.pipe d))
      | Throw e => Throw e
      end
  | None => Ok []
  end.

(** [[...new Set(fonts)].slice(0, 3)] *)
Definition font_list (html : jsstring) : result (list jsstring) :=
  match google_families html with
  | Ok googleFonts => Ok (firstn 3 (distinct (declared_fonts html ++ googleFonts)))
  | Throw e => Throw e
  end.

Definition color_list (html : jsstring) : list jsstring :=
  let colorMatches := Regex.matchAll true Pat.color html in
  firstn 5 (distinct (defined_nonempty color_value colorMatches)).

(** The server's function calls [html.match] first: a null argument has no
    such method. Its callers pass [html || '']. *)
Definition extractStructuredContent (html : option jsstring) : result structured :=
  match html with
  | None => Throw TypeError
  | Some html =>
      let metaTitle := trimmed_capture Pat.title html in
      let metaDescription :=
        match metaDescMatch html with
        | Some g => JsString.trim g
        | None => []
        end in
      let h1 := stripped_capture Pat.h1 html in
      let subheadline := stripped_capture Pat.h2 html in
      let subheadline :=
        match subheadline with
        | [] => stripped_capture Pat.heroParagraph html
        | _ => subheadline
        end in
      let colors := color_list html in
      match font_list html with
      | Throw e => Throw e
      | Ok fonts =>
          let text := without_blocks html in
          let text :=
            entity "&quot;" [JsString.dquote]
              (entity "&gt;" [62]
                 (entity "&lt;" [60]
                    (entity "&amp;" [38] (entity "&nbsp;" [32] text)))) in
          let text := JsString.substring0 1500 (collapse text) in
          Ok (Structured
                (JsString.substring0 200 metaTitle)
                (JsString.substring0 300 metaDescription)
                (JsString.substring0 200 h1)
                (JsString.substring0 300 subheadline)
                (joined_or_unknown colors)
                (joined_or_unknown fonts)
                text)
      end
  end.

(** The server retries only a URL that has no [www.] yet. *)
Definition fetchWebsite (url : value) : M (option jsstring) :=
  url <- lift (normalizeUrl url) ;;
  try_catch
    (html <- fetch url ;; ret (Some html))
    (fun _ =>
       if negb (JsString.includes url www_sep) then
         let wwwUrl := JsString.replace url scheme_sep www_sep in
         try_catch
           (html <- fetch wwwUrl ;; ret (Some html))
           (fun _ => ret None)
       else ret None).

Definition takeScreenshot (url : value) : M (option jsstring) :=
  url <- lift (normalizeUrl url) ;;
  capture url.

Definition takeGoogleScreenshot (searchQuery : value) : M (option jsstring) :=
  capture_search searchQuery.

(** [if (shot) content.push(image)] *)
Definition attached (shot : option jsstring) : list jsstring :=
  match shot with
  | Some (c :: s) => [c :: s]
  | _ => []
  end.

Definition extractMessaging (companyName : value) (structuredContent : structured)
  : M value :=
  name <- str companyName ;;
  reply <- ask (Request Messaging
                  [name; h1 structuredContent; subheadline structuredContent;
                   text structuredContent] []) ;;
  first_json_guarded VNull reply.

Definition analyzeFirstImpressions (companyName : value)
    (metaTitle metaDescription : jsstring)
    (websiteScreenshot googleScreenshot : option jsstring) : M value :=
  name <- str companyName ;;
  reply <- ask (Request FirstImpressions [name; metaTitle; metaDescription]
                  (attached googleScreenshot ++ attached websiteScreenshot)) ;;
  first_json_guarded VNull reply.

Definition visual_fields (s : string) : value :=
  VObject [(jss "colors", VString (jss s));
           (jss "typography", VString (jss s));
           (jss "visualStyle", VString (jss s))].

Definition extractVisuals (companyName : value) (screenshotBase64 : option jsstring)
  : M value :=
  match screenshotBase64 with
  | None | Some [] => ret (visual_fields "Could not capture")
  | Some shot =>
      name <- str companyName ;;
      reply <- ask (Request Visuals [name] [shot]) ;;
      first_json_guarded (visual_fields "Unknown") reply
  end.

Definition competitor_line (c : value) : M jsstring :=
  n <- lift (Js.get c (jss "name")) ;; n <- str n ;;
  p <- lift (Js.get c (jss "positioning")) ;; p <- str p ;;
  v <- voice_joined c ;; v <- str v ;;
  s <- lift (Js.get c (jss "visualStyle")) ;; s <- str s ;;
  ret (jss "- " ++ n ++ jss ": " ++ p ++ jss " | Voice: " ++ v
         ++ jss " | Visual: " ++ s).

(** [${companyData.k}] *)
Definition field (o : value) (k : string) : M jsstring :=
  v <- lift (Js.get o (jss k)) ;; str v.

Definition generateTakeaways (companyName companyData : value)
    (competitorData : list value) (comparison : value) : M value :=
  name <- str companyName ;;
  positioning <- field companyData "positioning" ;;
  voice <- voice_joined companyData ;;
  voice <- str voice ;;
  colors <- field companyData "colors" ;;
  typography <- field companyData "typography" ;;
  visualStyle <- field companyData "visualStyle" ;;
  firstImpression <- field companyData "firstImpression" ;;
  competitors <- mapM competitor_line competitorData ;;
  score <- field comparison "score" ;;
  overlaps <- map_join_opt pattern_of (Js.get_opt comparison (jss "overlaps")) ;;
  overlaps <- str (Js.or overlaps none_text) ;;
  standouts <- join_opt (Js.get_opt comparison (jss "standouts")) ;;
  standouts <- str (Js.or standouts none_text) ;;
  reply <- ask (Request Takeaways
                  [name; positioning; voice; colors; typography; visualStyle;
                   firstImpression; lines newline competitors; score; overlaps;
                   standouts; name] []) ;;
  first_json_guarded VNull reply.

(** One element of [competitorFetches]. *)
Record fetched := FetchedSite {
  f_name : value;
  f_url : value;
  f_html : option jsstring;
  f_screenshot : option jsstring;
  f_googleScreenshot : option jsstring
}.

(** One element of [competitorData]: the fetch and its structured content. *)
Record competitor := Competitor {
  c_fetch : fetched;
  c_structured : structured
}.

(** One element of [competitorResults], with the screenshot the report
    reads from [competitorData] at the same index. *)
Record analysed := Analysed {
  a_name : value;
  a_url : value;
  a_scraped : value;
  a_inferred : value;
  a_firstImpressions : value;
  a_googleScreenshot : option jsstring;
  a_screenshot : option jsstring
}.

(** The async callback of [competitors.map] inside [Promise.all]. *)
Definition collect (comp : value) : M fetched :=
  name <- lift (Js.get comp (jss "name")) ;;
  url <- lift (Js.get comp (jss "url")) ;;
  html <- fetchWebsite url ;;
  shot <- takeScreenshot url ;;
  google <- takeGoogleScreenshot name ;;
  ret (FetchedSite name url html shot google).

(** [html || ''] *)
Definition or_empty (html : option jsstring) : option jsstring :=
  match html with
  | Some (c :: s) => Some (c :: s)
  | _ => Some []
  end.

Definition structure (comp : fetched) : M competitor :=
  s <- lift (extractStructuredContent (or_empty (f_html comp))) ;;
  ret (Competitor comp s).

(** The body of the loop over [competitorData]. *)
Definition analyse (comp : competitor) : M analysed :=
  let f := c_fetch comp in
  let s := c_structured comp in
  sleep 500 ;;;
  messaging <- extractMessaging (f_name f) s ;;
  sleep 500 ;;;
  visuals <- extractVisuals (f_name f) (f_screenshot f) ;;
  sleep 500 ;;;
  firstImpressions <-
    analyzeFirstImpressions (f_name f) (metaTitle s) (metaDescription s)
      (f_screenshot f) (f_googleScreenshot f) ;;
  ret (Analysed (f_name f) (f_url f)
         (VObject [(jss "h1", VString (h1 s));
                   (jss "subheadline", VString (subheadline s));
                   (jss "metaTitle", VString (metaTitle s));
                   (jss "metaDescription", VString (metaDescription s))])
         (Js.spread2 (Js.or messaging (VObject [])) (Js.or visuals (VObject [])))
         (Js.or firstImpressions (VObject []))
         (f_googleScreenshot f)
         (f_screenshot f)).

(** One element of [allBrands]. *)
Record brand := Brand {
  b_name : value;
  b_positioning : value;
  b_voice : value;
  b_visual : value
}.

Definition brand_of (name inferred : value) : M brand :=
  positioning <- lift (Js.get inferred (jss "positioning")) ;;
  voice <- formatVoiceForComparison inferred ;;
  visual <- lift (Js.get inferred (jss "visualStyle")) ;;
  ret (Brand name positioning voice visual).

Definition brand_summary (b : brand) : M jsstring :=
  n <- str (b_name b) ;;
  p <- str (b_positioning b) ;;
  v <- str (b_voice b) ;;
  s <- str (b_visual b) ;;
  ret (n ++ jss ": " ++ [JsString.dquote] ++ p ++ [JsString.dquote]
         ++ jss " | Voice: " ++ v ++ jss " | Visual: " ++ s).

Definition formatVoice (inferred : value) : M value :=
  if negb (Js.truthy inferred) then ret (VString em_dash)
  else voice_cell inferred.

(** [${inferred.k || ''}] *)
Definition field_or_empty (inferred : value) (k : string) : M jsstring :=
  v <- lift (Js.get inferred (jss k)) ;; str (Js.or v (VString [])).

(** The cell of the Visual Style row. *)
Definition visual_cell (inferred : value) : M value :=
  colors <- field_or_empty inferred "colors" ;;
  typography <- field_or_empty inferred "typography" ;;
  visualStyle <- field_or_empty inferred "visualStyle" ;;
  ret (VString (Regex.replaceAll false Pat.edgeDot []
                  (colors ++ Pat.dot_sep ++ typography ++ Pat.dot_sep
                     ++ visualStyle))).

Definition positioning_of (inferred : value) : M value :=
  lift (Js.get inferred (jss "positioning")).

Definition chartData (companyName companyInferred : value)
    (competitorResults : list analysed) : M value :=
  positioning <- positioning_of companyInferred ;;
  positionings <- mapM (fun c => positioning_of (a_inferred c)) competitorResults ;;
  voice <- formatVoice companyInferred ;;
  voices <- mapM (fun c => formatVoice (a_inferred c)) competitorResults ;;
  visual <- visual_cell companyInferred ;;
  visuals <- mapM (fun c => visual_cell (a_inferred c)) competitorResults ;;
  ret (VObject
         [(jss "columns",
            VArray (VString (jss "Category") :: companyName
                      :: map a_name competitorResults));
          (jss "rows",
            VArray
              [VObject [(jss "category", VString (jss "Positioning"));
                        (jss "values", VArray (positioning :: positionings))];
               VObject [(jss "category", VString (jss "Voice"));
                        (jss "values", VArray (voice :: voices))];
               VObject [(jss "category", VString (jss "Visual Style"));
                        (jss "values", VArray (visual :: visuals))]])]).

Definition screenshot_entry (url : jsstring) (image : option jsstring) : value :=
  VObject [(jss "url", VString url); (jss "image", Js.of_option image)].

Definition impression_entry (firstImpressions metaTitle metaDescription : value)
  : value :=
  VObject (Js.set (jss "metaDescription") metaDescription
             (Js.set (jss "metaTitle") metaTitle
                (Js.assign [] (Js.own firstImpressions)))).

(** [{ [companyName]: own, ...Object.fromEntries(rest) }] *)
Definition keyed (key : jsstring) (own_entry : value)
    (keys : list jsstring) (entries : list value) : value :=
  VObject (Js.assign [(key, own_entry)] (Js.assign [] (combine keys entries))).

(** [competitors.length === 0] *)
Definition length_is_zero (competitors : value) : bool :=
  match competitors with
  | VArray l => Nat.eqb (List.length l) 0
  | VString s => Nat.eqb (List.length s) 0
  | VObject o =>
      match Js.lookup (jss "length") o with
      | Some (VNumber f) => PrimFloat.eqb f 0
      | _ => false
      end
  | _ => false
  end.

Definition elements (competitors : value) : M (list value) :=
  match competitors with
  | VArray l => ret l
  | _ => throw TypeError
  end.

(** The handler of [POST /api/audit]; [req_body] is [req.body]. *)
Definition audit (req_body : value) : M response :=
  caught (
    companyUrl <- lift (Js.get req_body (jss "companyUrl")) ;;
    companyName <- lift (Js.get req_body (jss "companyName")) ;;
    competitors <- lift (Js.get req_body (jss "competitors")) ;;
    if negb (Js.truthy companyUrl) || negb (Js.truthy companyName)
       || negb (Js.truthy competitors) || length_is_zero competitors then
      ret (Response 400 (error_object "Missing required fields"))
    else
      (* Step 1: fetch content and take screenshots. The array handed to
         [Promise.all] is built first, which starts every promise; a list
         of competitors without [map] throws there. Awaiting the promises
         in their order gives the rejection of the first that is rejected. *)
      html <- start (fetchWebsite companyUrl) ;;
      shot <- start (takeScreenshot companyUrl) ;;
      google <- start (takeGoogleScreenshot companyName) ;;
      comps <- elements competitors ;;
      fetches <- mapM (fun comp => start (collect comp)) comps ;;
      companyHtml <- await html ;;
      companyScreenshot <- await shot ;;
      companyGoogleScreenshot <- await google ;;
      competitorFetches <- await (Promise_all fetches) ;;
      companyStructured <- lift (extractStructuredContent (or_empty companyHtml)) ;;
      competitorData <- mapM structure competitorFetches ;;
      (* Step 2: messaging, visuals, first impressions *)
      companyMessaging <- extractMessaging companyName companyStructured ;;
      sleep 500 ;;;
      companyVisuals <- extractVisuals companyName companyScreenshot ;;
      sleep 500 ;;;
      companyFirstImpressions <-
        analyzeFirstImpressions companyName (metaTitle companyStructured)
          (metaDescription companyStructured)
          companyScreenshot companyGoogleScreenshot ;;
      let companyInferred := Js.spread2 companyMessaging companyVisuals in
      if negb (Js.truthy companyMessaging) then
        ret (Response 500 (error_object "Could not analyze your website"))
      else
        competitorResults <- mapM analyse competitorData ;;
        (* Step 3: compare all brands *)
        sleep 1000 ;;;
        own_brand <- brand_of companyName companyInferred ;;
        other_brands <-
          mapM (fun c => brand_of (a_name c) (a_inferred c)) competitorResults ;;
        summaries <- mapM brand_summary (own_brand :: other_brands) ;;
        let brandSummaries := lines newline summaries in
        name <- str companyName ;;
        analysisResponse <-
          ask (Request Comparator [brandSummaries; name; name; name] []) ;;
        comparison <- last_json_guarded VNull analysisResponse ;;
        if negb (Js.truthy comparison) then
          ret (Response 500 (error_object "Could not compare brands"))
        else
          chart <- chartData companyName companyInferred competitorResults ;;
          (* Takeaways for the user's brand *)
          sleep 500 ;;;
          takeaways <-
            generateTakeaways companyName
              (Js.spread2 companyInferred companyFirstImpressions)
              (map (fun c => named_profile (a_name c) (a_inferred c))
                 competitorResults)
              comparison ;;
          score <- lift (Js.get comparison (jss "score")) ;;
          verdict <- lift (Js.get comparison (jss "verdict")) ;;
          overlaps <- lift (Js.get comparison (jss "overlaps")) ;;
          standouts <- lift (Js.get comparison (jss "standouts")) ;;
          key <- str companyName ;;
          url <- lift (normalizeUrl companyUrl) ;;
          urls <- mapM (fun c => lift (normalizeUrl (a_url c))) competitorResults ;;
          keys <- mapM (fun c => str (a_name c)) competitorResults ;;
          ret (Response 200 (Json (VObject
            [(jss "score", score);
             (jss "verdict", verdict);
             (jss "overlaps", overlaps);
             (jss "standouts", standouts);
             (jss "takeaways", Js.or takeaways (VObject []));
             (jss "chart", chart);
             (jss "screenshots",
               keyed key (screenshot_entry url companyScreenshot) keys
                 (map (fun p => screenshot_entry (fst p) (a_screenshot (snd p)))
                    (combine urls competitorResults)));
             (jss "googleScreenshots",
               keyed key (Js.of_option companyGoogleScreenshot) keys
                 (map (fun c => Js.of_option (a_googleScreenshot c))
                    competitorResults));
             (jss "firstImpressions",
               keyed key
                 (impression_entry companyFirstImpressions
                    (VString (metaTitle companyStructured))
                    (VString (metaDescription companyStructured)))
                 keys
                 (map (fun c =>
                         impression_entry (a_firstImpressions c)
                           (Js.get_opt (a_scraped c) (jss "metaTitle"))
                           (Js.get_opt (a_scraped c) (jss "metaDescription")))
                    competitorResults))])))).

(** The reply loop of [POST /api/suggest-competitors]: the first span
    that parses and whose [competitors] can be read is the data; a block
    that fails either way is logged and the loop goes on. *)
Fixpoint first_data (content : list block) : M (option value) :=
  match content with
  | [] => ret None
  | TextBlock text :: rest =>
      match jsonMatch text with
      | Some span =>
          try_catch
            (data <- parse span ;;
             lift (Js.get data (jss "competitors")) ;;;
             ret (Some data))
            (fun _ => first_data rest)
      | None => first_data rest
      end
  | OtherBlock :: rest => first_data rest
  end.

(** The handler of [POST /api/suggest-competitors]; [req_body] is
    [req.body]. *)
Definition suggest (req_body : value) : M response :=
  caught (
    companyUrl <- lift (Js.get req_body (jss "companyUrl")) ;;
    companyName <- lift (Js.get req_body (jss "companyName")) ;;
    if negb (Js.truthy companyUrl) || negb (Js.truthy companyName) then
      ret (Response 400 (error_object "Missing company URL or name"))
    else
      html <- fetchWebsite companyUrl ;;
      structured <- lift (extractStructuredContent (or_empty html)) ;;
      name <- str companyName ;;
      content <-
        ask (Request Suggestion
               [name; h1 structured; JsString.substring0 800 (text structured)]
               []) ;;
      data <- first_data content ;;
      match data with
      | Some data => ret (Response 200 (Json data))
      | None =>
          ret (Response 200 (Json (VObject [(jss "competitors", VArray [])])))
      end).

End Server.

(** * The vocabulary of the statements *)

Definition spaces_only (s : jsstring) : Prop :=
  Forall (fun c => JsString.is_space c = true) s.

Definition has_scheme (u : jsstring) : bool :=
  JsString.startsWith u http_scheme || JsString.startsWith u https_scheme.

(** What holds of the server's font list for a page with a Google Fonts
    link whose family parameter decodes to [d]. *)
Definition merged_fonts (html d : jsstring) (fonts : list jsstring) : Prop :=
  let families := map family_name (JsString.split Pat.pipe d) in
  let merged := distinct (Server.declared_fonts html ++ families) in
  fonts = firstn 3 merged /\
  (List.length fonts <= 3)%nat /\
  NoDup fonts /\
  (forall f, In f families -> ~ In Pat.colon f) /\
  (forall f, In f fonts -> In f (Server.declared_fonts html) \/ In f families) /\
  (forall f, In f families -> (List.length merged <= 3)%nat -> In f fonts).

(** The events a computation adds all satisfy [P]. *)
Definition emits {A} (P : event -> Prop) (m : M A) : Prop :=
  forall h t, exists evs, snd (m h t) = t ++ evs /\ Forall P evs.

(** Requests to the model come only from the allowed stages. *)
Definition only (allowed : stage -> bool) (e : event) : Prop :=
  match e with
  | Asked r => allowed (req_stage r) = true
  | _ => True
  end.

Definition never (e : event) : Prop := False.

(** No text block of a reply holds a span that parses. *)
Definition no_json (h : host) (content : list block) : Prop :=
  forall text span,
    In (TextBlock text) content -> jsonMatch text = Some span ->
    JSON_parse h span = None.

(** What an unguarded loop makes of a reply. *)
Definition unguarded_value (h : host) (content : list block) : result value :=
  match Suggest.first_span content with
  | None => Ok VNull
  | Some span =>
      match JSON_parse h span with
      | Some v => Ok v
      | None => Throw SyntaxError
      end
  end.

(** A computation either stops before asking the model, or its last
    effect is one request, whose reply decides the result. Every earlier
    event satisfies [P]. *)
Definition answers {A} (P : event -> Prop)
    (value_of : host -> list block -> result A -> Prop) (m : M A) : Prop :=
  forall h t r t', m h t = (r, t') ->
    (exists evs, t' = t ++ evs /\ Forall P evs) \/
    (exists evs req,
       t' = (t ++ evs) ++ [Asked req] /\ Forall P evs /\
       match messages_create h (t ++ evs) req with
       | Ok content => value_of h content r
       | Throw e => r = Throw e
       end).

Definition guarded (d : value) (h : host) (content : list block)
    (r : result value) : Prop :=
  exists v, r = Ok v /\ (no_json h content -> v = d).

Definition unguarded (h : host) (content : list block) (r : result value) : Prop :=
  r = unguarded_value h content.

Definition quiet : event -> Prop := only (fun _ => false).

(** What C3 says of the server's four stage functions, for the run that
    asked [req] at [t] and got [content]: the result is a value, and it
    is null (for the visuals, the [Unknown] record) when no span of the
    reply parses. *)
Definition server_stages_contain (h : host) (t : trace) (req : request)
    (content : list block) : Prop :=
  (forall name s r,
     Server.extractMessaging name s h t = (r, t ++ [Asked req]) ->
     exists v, r = Ok v /\ (no_json h content -> v = VNull)) /\
  (forall name metaTitle metaDescription shot google r,
     Server.analyzeFirstImpressions name metaTitle metaDescription shot google h t
       = (r, t ++ [Asked req]) ->
     exists v, r = Ok v /\ (no_json h content -> v = VNull)) /\
  (forall name shot r,
     Server.extractVisuals name shot h t = (r, t ++ [Asked req]) ->
     exists v, r = Ok v /\
               (no_json h content -> v = Server.visual_fields "Unknown")) /\
  (forall name data competitors comparison r,
     Server.generateTakeaways name data competitors comparison h t
       = (r, t ++ [Asked req]) ->
     exists v, r = Ok v /\ (no_json h content -> v = VNull)).

(** The same run through the Netlify audit's three stage functions: null
    when no text block has a brace span; otherwise [JSON.parse] of the
    first span, whose failure is thrown to the caller. *)
Definition netlify_stages_parse_unguarded (h : host) (t : trace) (req : request)
    (content : list block) : Prop :=
  let outcome :=
    match Suggest.first_span content with
    | None => Ok VNull
    | Some span =>
        match JSON_parse h span with
        | Some v => Ok v
        | None => Throw SyntaxError
        end
    end in
  (forall name s r,
     Audit.extractMessaging name s h t = (r, t ++ [Asked req]) -> r = outcome) /\
  (forall name metaTitle metaDescription h1 r,
     Audit.analyzeFirstImpressions name metaTitle metaDescription h1 h t
       = (r, t ++ [Asked req]) -> r = outcome) /\
  (forall name data competitors comparison r,
     Audit.generateTakeaways name data competitors comparison h t
       = (r, t ++ [Asked req]) -> r = outcome).

Definition no_competitors : body :=
  Json (VObject [(jss "competitors", VArray [])]).

Definition suggest_yields (h : host) (content : list block)
    (r : result response) : Prop :=
  r = Ok (match Suggest.first_span content with
          | Some span => Response 200 (Text span)
          | None => Response 200 no_competitors
          end).

Definition stage_eqb (a b : stage) : bool :=
  match a, b with
  | Suggestion, Suggestion | Messaging, Messaging | Visuals, Visuals
  | FirstImpressions, FirstImpressions | Comparator, Comparator
  | Takeaways, Takeaways => true
  | _, _ => false
  end.

(** Some request of the trace comes from stage [s]. *)
Definition asked (s : stage) (t : trace) : bool :=
  existsb (fun e => match e with
                    | Asked r => stage_eqb s (req_stage r)
                    | _ => false
                    end) t.

(** The first request from a stage that satisfies [p], with the trace
    before it. *)
Fixpoint find_request (p : stage -> bool) (t : trace) : option (trace * request) :=
  match t with
  | [] => None
  | Asked r :: t' =>
      if p (req_stage r) then Some ([], r)
      else option_map (fun f => (Asked r :: fst f, snd f)) (find_request p t')
  | e :: t' => option_map (fun f => (e :: fst f, snd f)) (find_request p t')
  end.

Definition first_request : trace -> option (trace * request) :=
  find_request (fun _ => true).

Definition is_comparator (s : stage) : bool := stage_eqb Comparator s.

Definition except (p : stage -> bool) : event -> Prop :=
  only (fun s => negb (p s)).

Definition calm : event -> Prop :=
  only (fun s => match s with Comparator | Takeaways => false | _ => true end).

Definition anything : event -> Prop := only (fun _ => true).

Definition analyze_failed : response :=
  Response 500 (error_object "Could not analyze your website").

Definition compare_failed : response :=
  Response 500 (error_object "Could not compare brands").

Definition chart_row (category : string) (values : list value) : value :=
  VObject [(jss "category", VString (jss category)); (jss "values", VArray values)].

Definition chart_of (companyName : value) (names : list value) (rows : list value)
  : value :=
  VObject [(jss "columns",
             VArray (VString (jss "Category") :: companyName :: names));
           (jss "rows", VArray rows)].

(** [c.name] of a competitor of the request *)
Definition name_of (comp : value) : value := Js.get_opt comp (jss "name").

Definition body_text (event : lambda_event) : jsstring :=
  match event_body event with
  | Some s => s
  | None => jss "null"
  end.

(** The code units of the two braces. *)
Definition open_brace : N := 123.
Definition close_brace : N := 125.

(** The text from its first opening brace to its last closing brace after
    that. *)
Definition brace_span (text span : jsstring) : Prop :=
  exists pre mid post,
    text = pre ++ open_brace :: mid ++ close_brace :: post /\
    ~ In open_brace pre /\ ~ In close_brace post /\
    span = open_brace :: mid ++ [close_brace].

(** What the reply pattern still has to match after its star: a closing
    brace, where the match ends. *)
Definition closing : Regex.continuation :=
  fun z c => Regex.m false (Regex.Char close_brace) z c (fun z' c' => Some (z', c')).

(** No closing brace follows an opening brace. *)
Definition no_braces (text : jsstring) : Prop :=
  forall pre mid post, text <> pre ++ open_brace :: mid ++ close_brace :: post.

(** ** Vocabulary of the further properties *)

(** A run of [m] on a host that satisfies [H] adds events that satisfy
    [I], and when it returns a value, events and value satisfy [Q]. *)
Definition run_spec {A} (H : host -> Prop) (I : list event -> Prop)
    (Q : list event -> A -> Prop) (m : M A) : Prop :=
  forall h t r t', H h -> m h t = (r, t') ->
    exists evs, t' = t ++ evs /\ I evs /\ forall a, r = Ok a -> Q evs a.

Definition any_host (h : host) : Prop := True.

(** Pacing: a request to the model is made only after a wait of at least
    half a second since the request before it. [rested] tells whether
    such a wait has passed. *)
Fixpoint paced_from (rested : bool) (t : trace) : bool :=
  match t with
  | [] => true
  | Asked _ :: t' => rested && paced_from false t'
  | Waited ms :: t' => paced_from (rested || Nat.leb 500 ms) t'
  | _ :: t' => paced_from rested t'
  end.

Fixpoint rested_after (rested : bool) (t : trace) : bool :=
  match t with
  | [] => rested
  | Asked _ :: t' => rested_after false t'
  | Waited ms :: t' => rested_after (rested || Nat.leb 500 ms) t'
  | _ :: t' => rested_after rested t'
  end.

Definition paced (t : trace) : bool := paced_from true t.

(** [m] keeps the pace when started in state [a], and leaves state [b]
    (at least) when it returns. *)
Definition steps {A} (a b : bool) (m : M A) : Prop :=
  run_spec any_host (fun evs => paced_from a evs = true)
    (fun evs _ => b = true -> rested_after a evs = true) m.

Definition is_request (e : event) : bool :=
  match e with Asked _ => true | _ => false end.

Definition is_get (e : event) : bool :=
  match e with Fetched _ => true | _ => false end.

Definition is_capture (e : event) : bool :=
  match e with Captured _ | Searched _ => true | _ => false end.

Definition count_events (p : event -> bool) (t : trace) : nat :=
  List.length (filter p t).

(** The number of elements of an array, and 0 for any other value. *)
Definition size (v : value) : nat :=
  match v with
  | VArray l => List.length l
  | _ => 0%nat
  end.

(** No event of the kind [p]. *)
Definition free (p : event -> bool) (e : event) : Prop := p e = false.

(** A run of [m] adds at most [n] events of the kind [p]; a value it
    returns satisfies [Q]. *)
Definition costs {A} (H : host -> Prop) (p : event -> bool) (n : nat)
    (Q : A -> Prop) (m : M A) : Prop :=
  run_spec H (fun evs => (count_events p evs <= n)%nat) (fun _ a => Q a) m.

Definition anyhow {A} (a : A) : Prop := True.

(** The [competitors] of the request a Netlify event carries. *)
Definition competitors_of (h : host) (event : lambda_event) : value :=
  match JSON_parse h (body_text event) with
  | Some parsed => Js.get_opt parsed (jss "competitors")
  | None => VUndefined
  end.

(** A host whose browser never delivers a screenshot. *)
Definition browserless (h : host) : Prop :=
  (forall t url, screenshot h t url = None) /\
  (forall t query, search_screenshot h t query = None).

(** A request that is not from the Visuals stage and carries no image. *)
Definition imageless (e : event) : Prop :=
  match e with
  | Asked r => stage_eqb Visuals (req_stage r) = false /\ req_images r = []
  | _ => True
  end.

(** On a host without screenshots [m] makes imageless requests only, and
    a value it returns satisfies [Q]. *)
Definition degrades {A} (Q : A -> Prop) (m : M A) : Prop :=
  run_spec browserless (Forall imageless) (fun _ a => Q a) m.

Definition blind (f : Server.fetched) : Prop :=
  Server.f_screenshot f = None /\ Server.f_googleScreenshot f = None.

(** The property names of the server's report, in order: those it reads
    from the comparison, and those it builds. *)
Definition server_comparison_keys : list jsstring :=
  [jss "score"; jss "verdict"; jss "overlaps"; jss "standouts"].

Definition server_built_keys : list jsstring :=
  [jss "takeaways"; jss "chart"; jss "screenshots"; jss "googleScreenshots";
   jss "firstImpressions"].

Definition server_report_keys : list jsstring :=
  server_comparison_keys ++ server_built_keys.

Definition is_undefined (v : value) : bool :=
  match v with VUndefined => true | _ => false end.

(** The property names in the JSON text of an object, which [res.json]
    sends: [JSON.stringify] leaves out a property whose value is
    undefined. *)
Definition json_keys (o : list (jsstring * value)) : list jsstring :=
  map fst (filter (fun kv => negb (is_undefined (snd kv))) o).

(** The property names of the Netlify audit's report, in order. *)
Definition netlify_report_keys : list jsstring :=
  [jss "score"; jss "verdict"; jss "overlaps"; jss "standouts"; jss "takeaways";
   jss "chart"; jss "firstImpressions"].

(** The property [k] of a report is there and is truthy. *)
Definition filled (report : list (jsstring * value)) (k : string) : Prop :=
  exists v, Js.lookup (jss k) report = Some v /\ Js.truthy v = true.

(** The brace span of [text] is JSON for [v]. *)
Definition parses (h : host) (text : jsstring) (v : value) : Prop :=
  exists span, brace_span text span /\ JSON_parse h span = Some v.

(** What a guarded reply loop gives: the value of the first text block
    whose span parses, and [d] when there is none. *)
Definition first_parsed (d : value) (h : host) (content : list block)
    (r : result value) : Prop :=
  (exists before text after v,
     content = before ++ TextBlock text :: after /\
     (forall t' v', In (TextBlock t') before -> ~ parses h t' v') /\
     parses h text v /\ r = Ok v)
  \/
  ((forall t' v', In (TextBlock t') content -> ~ parses h t' v') /\ r = Ok d).

(** Each of the server's four stage functions, in the run that ends with
    the request [req], gives the first parsed value of the reply. *)
Definition server_stages_first_parsed (h : host) (t : trace) (req : request)
    (content : list block) : Prop :=
  (forall name s r,
     Server.extractMessaging name s h t = (r, t ++ [Asked req]) ->
     first_parsed VNull h content r) /\
  (forall name metaTitle metaDescription shot google r,
     Server.analyzeFirstImpressions name metaTitle metaDescription shot google h t
       = (r, t ++ [Asked req]) ->
     first_parsed VNull h content r) /\
  (forall name shot r,
     Server.extractVisuals name shot h t = (r, t ++ [Asked req]) ->
     first_parsed (Server.visual_fields "Unknown") h content r) /\
  (forall name data competitors comparison r,
     Server.generateTakeaways name data competitors comparison h t
       = (r, t ++ [Asked req]) ->
     first_parsed VNull h content r).

(** The brace span of [text] is JSON for a value whose [competitors] can
    be read. *)
Definition usable (h : host) (text : jsstring) (v : value) : Prop :=
  parses h text v /\ Js.nullish v = false.

(** What the server's suggest endpoint makes of a reply. *)
Definition suggested (h : host) (content : list block) (r : result response)
  : Prop :=
  (exists before text after v,
     content = before ++ TextBlock text :: after /\
     (forall t' v', In (TextBlock t') before -> ~ usable h t' v') /\
     usable h text v /\ r = Ok (Response 200 (Json v)))
  \/
  ((forall t' v', In (TextBlock t') content -> ~ usable h t' v') /\
   r = Ok (Response 200 no_competitors)).

Definition is_array (v : value) : bool :=
  match v with VArray _ => true | _ => false end.

(** The [metaTitle] and the [metaDescription] of a first-impressions
    entry. *)
Definition meta_of (entry : value) : value * value :=
  (Js.get_opt entry (jss "metaTitle"), Js.get_opt entry (jss "metaDescription")).

Definition is_string (v : value) : Prop := exists s, v = VString s.

(** The [companyName] of the request a Netlify event carries. *)
Definition companyName_of (h : host) (event : lambda_event) : value :=
  match JSON_parse h (body_text event) with
  | Some parsed => Js.get_opt parsed (jss "companyName")
  | None => VUndefined
  end.

(** The property names of the brands [names], as the report's maps have
    them. *)
Definition keys_of (h : host) (names : list value) (keys : list jsstring) : Prop :=
  Forall2 (fun n k => toString h n = Ok k) names keys.

(** Both fields of a first-impressions entry are strings. *)
Definition has_meta (entry : value) : Prop :=
  is_string (fst (meta_of entry)) /\ is_string (snd (meta_of entry)).

(** The order of the stages in an audit: first the requests that analyse
    one brand, then the Comparator, then the Takeaway stage. *)
Inductive phase := Analysing | Compared | Advised.

Definition next_phase (p : phase) (s : stage) : option phase :=
  match p, s with
  | Analysing, (Messaging | Visuals | FirstImpressions) => Some Analysing
  | Analysing, Comparator => Some Compared
  | Compared, Takeaways => Some Advised
  | _, _ => None
  end.

Fixpoint phase_after (p : phase) (t : trace) : option phase :=
  match t with
  | [] => Some p
  | Asked r :: t' =>
      match next_phase p (req_stage r) with
      | Some q => phase_after q t'
      | None => None
      end
  | _ :: t' => phase_after p t'
  end.

Definition in_order (t : trace) : bool :=
  match phase_after Analysing t with Some _ => true | None => false end.

(** [m] keeps the order when started in phase [a]; it is in phase [b]
    when it returns. *)
Definition moves {A} (a b : phase) (m : M A) : Prop :=
  run_spec any_host (fun evs => phase_after a evs <> None)
    (fun evs _ => phase_after a evs = Some b) m.

(** [m] keeps the order when started in phase [a]. *)
Definition keeps {A} (a : phase) (m : M A) : Prop :=
  run_spec any_host (fun evs => phase_after a evs <> None) (fun _ _ => True) m.

(** No white space at either end. *)
Definition trimmed (s : jsstring) : Prop :=
  (forall c rest, s = c :: rest -> JsString.is_space c = false) /\
  (forall c rest, s = rest ++ [c] -> JsString.is_space c = false).

(** Every run of white space becomes one space; [in_run] tells whether
    the character before was white space. *)
Fixpoint squeeze (in_run : bool) (s : jsstring) : jsstring :=
  match s with
  | [] => []
  | c :: s' =>
      if JsString.is_space c
      then if in_run then squeeze true s' else 32 :: squeeze true s'
      else c :: squeeze false s'
  end.

(** Every white-space character of [s] is a space that follows a
    character which is not white space; [after_space] tells whether the
    character before [s] was white space (or [s] starts the text). *)
Fixpoint spaced_from (after_space : bool) (s : jsstring) : bool :=
  match s with
  | [] => true
  | c :: s' =>
      if JsString.is_space c
      then (c =? 32) && negb after_space && spaced_from true s'
      else spaced_from false s'
  end.

(** No white space at the start, no white space but the space, and no
    two spaces side by side. *)
Definition single_spaced (s : jsstring) : bool := spaced_from true s.

(** The match that ends where the pattern ends. *)
Definition accept : Regex.continuation := fun z c => Some (z, c).

Definition space_class : Regex.re := Regex.Class false [Regex.Space].

(** [s] starts with a tag: [<], one or more characters other than [>],
    and [>]. *)
Definition starts_tag (s : jsstring) : Prop :=
  exists y mid post,
    s = Pat.lt_ :: y :: mid ++ Pat.gt_ :: post /\ y <> Pat.gt_ /\ ~ In Pat.gt_ mid.

(** A tag stands somewhere in [s]. *)
Definition has_tag (s : jsstring) : Prop :=
  exists pre r, s = pre ++ r /\ starts_tag r.

(** Every [<] of [s] has [>] right after it. *)
Definition dead (s : jsstring) : Prop :=
  forall p1 p2, s = p1 ++ Pat.lt_ :: p2 -> exists p3, p2 = Pat.gt_ :: p3.

Definition not_gt : Regex.re := Regex.none_of [Pat.gt_].

(** What the tag pattern still has to match after its run of characters:
    the closing [>]. *)
Definition close_tag : Regex.continuation :=
  fun z c => Regex.m false (Regex.Char Pat.gt_) z c accept.

(** What is left of [s] after a start that is [p] up to the case of
    ASCII letters. *)
Fixpoint ci_strip (p s : jsstring) : option jsstring :=
  match p with
  | [] => Some s
  | a :: p' =>
      match s with
      | x :: s' => if Regex.same true a x then ci_strip p' s' else None
      | [] => None
      end
  end.

Definition starts_ci (p s : jsstring) : bool :=
  match ci_strip p s with Some _ => true | None => false end.

(** Where [p] first stands in [s], up to case. *)
Fixpoint find_ci (p s : jsstring) : option nat :=
  if starts_ci p s then Some 0%nat
  else match s with
       | [] => None
       | _ :: s' => option_map S (find_ci p s')
       end.

(** The start and the end of an element, as the patterns spell them. *)
Definition opening (name : jsstring) : jsstring := Pat.lt_ :: name.
Definition closing_of (name : jsstring) : jsstring :=
  jss "</" ++ name ++ [Pat.gt_].

(** The pattern after the element's name and after its content. *)
Definition after_name (name : jsstring) : Regex.re :=
  Regex.cat [Regex.star (Regex.none_of [Pat.gt_]); Regex.Char Pat.gt_;
             Regex.Group 1 (Regex.lazy_star Regex.any);
             Regex.str (jss "</"); Regex.str name; Regex.Char Pat.gt_].

Definition after_content (name : jsstring) : Regex.re :=
  Regex.cat [Regex.str (jss "</"); Regex.str name; Regex.Char Pat.gt_].

(** The colour values of a page, in page order: of each match of the
    colour pattern what stands between its first colon and the next,
    trimmed; a match that gives nothing is dropped. *)
Definition color_values (html : jsstring) : list jsstring :=
  defined_nonempty color_value (Regex.matchAll true Pat.color html).

(** What holds of the server's list of colours: it is the first five
    different colour values of the page. *)
Definition listed_colors (html : jsstring) (colors : list jsstring) : Prop :=
  let values := distinct (color_values html) in
  colors = firstn 5 values /\
  (List.length colors <= 5)%nat /\
  NoDup colors /\
  Forall (fun c => c <> []) colors /\
  (forall c, In c colors -> In c (color_values html)) /\
  (forall c, In c (color_values html) -> (List.length values <= 5)%nat ->
             In c colors).

(** Pages for the font examples. *)

Definition inter_roboto_page : jsstring :=
  jss "<link href='https://fonts.googleapis.com/css?family=Inter:400|Roboto:700' rel='stylesheet'>".

Definition three_fonts_page : jsstring :=
  jss "<style>h1{font-family: Arial;} h2{font-family: Georgia;} p{font-family: Verdana;}</style><link href='https://fonts.googleapis.com/css?family=Inter:400|Roboto:700' rel='stylesheet'>".

(** ** Test doubles

    Hosts for the concrete runs below: a network that is down or serves one
    page, a browser that captures nothing, and a model that answers each
    stage with a fixed text. [JSON_parse] is given as the table of the
    texts a run parses. *)

Module Double.

Definition quoted (s : string) : jsstring :=
  [JsString.dquote] ++ jss s ++ [JsString.dquote].

Fixpoint parse_table (table : list (jsstring * value)) (s : jsstring)
  : option value :=
  match table with
  | [] => None
  | (k, v) :: table' => if JsString.eqb s k then Some v else parse_table table' s
  end.

Definition unreachable : exn := Rejected (jss "fetch failed").

(** Nothing answers: every GET fails, no capture, the model refuses. *)
Definition offline : host := {|
  http_get := fun _ _ => Throw unreachable;
  screenshot := fun _ _ => None;
  search_screenshot := fun _ _ => None;
  messages_create := fun _ _ => Throw unreachable;
  JSON_parse := fun _ => None;
  Number_toString := fun _ => jss "0"
|}.

(** The network serves [page] everywhere (or is down), the browser
    captures nothing, and the model answers each stage with [reply]. *)
Definition serving (page : option jsstring) (reply : stage -> list block)
    (table : list (jsstring * value)) : host := {|
  http_get := fun _ _ =>
    match page with Some p => Ok p | None => Throw unreachable end;
  screenshot := fun _ _ => None;
  search_screenshot := fun _ _ => None;
  messages_create := fun _ r => Ok (reply (req_stage r));
  JSON_parse := parse_table table;
  Number_toString := fun _ => jss "0"
|}.

(** A reply without any brace, and one whose span is not JSON. *)
Definition refusal : list block := [TextBlock (jss "I cannot help with that.")].
Definition broken : list block := [TextBlock (jss "Here you go: {oops}")].

Definition acme : value := VString (jss "Acme").

(** The body of a suggest-competitors request, as text and as parsed. *)
Definition suggest_text : jsstring :=
  jss "{" ++ quoted "companyUrl" ++ jss ":" ++ quoted "acme.com" ++ jss ","
    ++ quoted "companyName" ++ jss ":" ++ quoted "Acme" ++ jss "}".

Definition suggest_payload : value :=
  VObject [(jss "companyUrl", VString (jss "acme.com"));
           (jss "companyName", acme)].

Definition suggest_event : lambda_event :=
  LambdaEvent (jss "POST") (Some suggest_text).

(** The request for suggestions the handler makes when the site is down. *)
Definition suggest_request : request :=
  Request Suggestion [jss "Acme"; []; []] [].

Definition suggest_trace : trace :=
  [Fetched (jss "https://acme.com"); Fetched (jss "https://www.acme.com")].

(** The messaging request for Acme when nothing was scraped. *)
Definition messaging_request : request :=
  Request Messaging [jss "Acme"; []; []; []] [].

Definition bolt : value := VString (jss "Bolt").

(** An audit of Acme against one competitor, as [req.body] and as the
    text of a Netlify event. *)
Definition audit_payload : value :=
  VObject [(jss "companyUrl", VString (jss "acme.com"));
           (jss "companyName", acme);
           (jss "competitors",
             VArray [VObject [(jss "name", bolt);
                              (jss "url", VString (jss "bolt.com"))]])].

Definition audit_text : jsstring :=
  jss "{" ++ quoted "companyUrl" ++ jss ":" ++ quoted "acme.com" ++ jss ","
    ++ quoted "companyName" ++ jss ":" ++ quoted "Acme" ++ jss ","
    ++ quoted "competitors" ++ jss ":[{" ++ quoted "name" ++ jss ":"
    ++ quoted "Bolt" ++ jss "," ++ quoted "url" ++ jss ":" ++ quoted "bolt.com"
    ++ jss "}]}".

Definition audit_event : lambda_event := LambdaEvent (jss "POST") (Some audit_text).

(** Replies that parse. *)
Definition messaging_text : jsstring :=
  jss "{" ++ quoted "positioning" ++ jss ":" ++ quoted "rockets for everyone"
    ++ jss "}".

Definition messaging_value : value :=
  VObject [(jss "positioning", VString (jss "rockets for everyone"))].

Definition comparison_text : jsstring :=
  jss "{" ++ quoted "verdict" ++ jss ":" ++ quoted "interchangeable" ++ jss "}".

Definition comparison_value : value :=
  VObject [(jss "verdict", VString (jss "interchangeable"))].

Definition texts : list (jsstring * value) :=
  [(audit_text, audit_payload);
   (messaging_text, messaging_value);
   (comparison_text, comparison_value)].

(** The site is down; the model refuses every stage. *)
Definition refusing : host := serving None (fun _ => refusal) texts.

(** The model answers the messaging stage only. *)
Definition messaging_only : host :=
  serving None
    (fun s => match s with
              | Messaging => [TextBlock messaging_text]
              | _ => refusal
              end) texts.

(** The model answers the messaging stage and the Comparator. *)
Definition cooperative : host :=
  serving None
    (fun s => match s with
              | Messaging => [TextBlock messaging_text]
              | Comparator => [TextBlock comparison_text]
              | _ => refusal
              end) texts.

(** What the server does before its first request to the model. *)
Definition server_collection : trace :=
  [Fetched (jss "https://acme.com"); Fetched (jss "https://www.acme.com");
   Captured (jss "https://acme.com"); Searched acme;
   Fetched (jss "https://bolt.com"); Fetched (jss "https://www.bolt.com");
   Captured (jss "https://bolt.com"); Searched bolt].

(** The whole run of the server when the model refuses. *)
Definition server_refused_trace : trace :=
  server_collection ++
  [Asked messaging_request; Waited 500; Waited 500;
   Asked (Request FirstImpressions [jss "Acme"; []; []] [])].

(** What the Netlify audit does before its first request to the model. *)
Definition netlify_collection : trace :=
  [Fetched (jss "https://acme.com"); Fetched (jss "https://www.acme.com");
   Fetched (jss "https://bolt.com"); Fetched (jss "https://www.bolt.com")].

Definition netlify_refused : result response * trace :=
  Audit.handler audit_event refusing [].

Definition netlify_answered : result response * trace :=
  Audit.handler audit_event cooperative [].

Definition rockets : value := VString (jss "rockets for everyone").
Definition dash : value := VString em_dash.

(** A reply whose first block holds a span that is not JSON and whose
    second block parses. *)
Definition second_block : list block :=
  [TextBlock (jss "Here you go: {oops}"); TextBlock messaging_text].

Definition retrying : host := serving None (fun _ => second_block) texts.

(** Suggestions that parse, after a block that does not. *)
Definition suggestions_text : jsstring :=
  jss "{" ++ quoted "competitors" ++ jss ":[{" ++ quoted "name" ++ jss ":"
    ++ quoted "Bolt" ++ jss "}]}".

Definition suggestions_value : value :=
  VObject [(jss "competitors", VArray [VObject [(jss "name", bolt)]])].

Definition suggestions : list block :=
  [TextBlock (jss "Here you go: {oops}"); TextBlock suggestions_text].

Definition suggesting : host :=
  serving None (fun _ => suggestions) [(suggestions_text, suggestions_value)].

(** A page with a title and a heading. *)
Definition sample_page : jsstring :=
  jss "<html><head><TITLE> Acme Rockets </TITLE></head><body><H1 class='x'> Hello <b>World</b> </h1><p>Fast.</p></body></html>".

Definition after_title : jsstring :=
  jss " Acme Rockets </TITLE></head><body><H1 class='x'> Hello <b>World</b> </h1><p>Fast.</p></body></html>".

Definition after_heading : jsstring :=
  jss " Hello <b>World</b> </h1><p>Fast.</p></body></html>".

(** A page with three colour declarations, two of them the same. *)
Definition colors_page : jsstring :=
  jss "<p style='color: red; background:#fff; color:red'>x</p>".

(** An audit of Acme against a competitor that is null and Bolt. *)
Definition half_payload : value :=
  VObject [(jss "companyUrl", VString (jss "acme.com"));
           (jss "companyName", acme);
           (jss "competitors",
             VArray [VNull;
                     VObject [(jss "name", bolt);
                              (jss "url", VString (jss "bolt.com"))]])].

(** An audit request whose competitors are a text. *)
Definition listless_payload : value :=
  VObject [(jss "companyUrl", VString (jss "acme.com"));
           (jss "companyName", acme);
           (jss "competitors", VString (jss "Bolt"))].

(** An audit of Acme against a competitor of the same name. *)
Definition twin_payload : value :=
  VObject [(jss "companyUrl", VString (jss "acme.com"));
           (jss "companyName", acme);
           (jss "competitors",
             VArray [VObject [(jss "name", acme);
                              (jss "url", VString (jss "acme.org"))]])].

Definition twin_text : jsstring :=
  jss "{" ++ quoted "companyUrl" ++ jss ":" ++ quoted "acme.com" ++ jss ","
    ++ quoted "companyName" ++ jss ":" ++ quoted "Acme" ++ jss ","
    ++ quoted "competitors" ++ jss ":[{" ++ quoted "name" ++ jss ":"
    ++ quoted "Acme" ++ jss "," ++ quoted "url" ++ jss ":" ++ quoted "acme.org"
    ++ jss "}]}".

Definition twin_event : lambda_event := LambdaEvent (jss "POST") (Some twin_text).

Definition twins : host :=
  serving None
    (fun s => match s with
              | Messaging => [TextBlock messaging_text]
              | Comparator => [TextBlock comparison_text]
              | _ => refusal
              end) ((twin_text, twin_payload) :: texts).

(** A page with six different colours. *)
Definition rainbow_page : jsstring :=
  jss "<style>a{color:red} b{color:orange} c{color:yellow} d{color:green} e{color:blue} f{color:violet}</style>".

(** A colour value that holds a comma. *)
Definition rgb_page : jsstring :=
  jss "<p style='color: rgb(1, 2, 3)'>x</p>".

End Double.

(** * Properties *)

(** ** Strings *)

Lemma eqb_eq (a b : jsstring) : JsString.eqb a b = true <-> a = b.
Proof.
  revert b; induction a as [|x a IH]; intros [|y b]; simpl; split;
    try discriminate; try reflexivity.
  - intros H. apply andb_true_iff in H as [Hx Hab].
    apply N.eqb_eq in Hx. apply IH in Hab. congruence.
  - intros H. injection H as -> ->. rewrite N.eqb_refl. simpl. now apply IH.
Qed.

Lemma startsWith_app (s p : jsstring) :
  JsString.startsWith s p = true <-> exists rest, s = p ++ rest.
Proof.
  revert s; induction p as [|x p IH]; intros s.
  - split; [intros _; now exists s | reflexivity].
  - destruct s as [|y s]; simpl.
    + split; [discriminate | intros [rest H]; discriminate].
    + rewrite andb_true_iff, N.eqb_eq, IH. split.
      * intros [-> [rest ->]]. now exists rest.
      * intros [rest H]. injection H as -> ->. split; [reflexivity | now exists rest].
Qed.

Lemma trimStart_split (s : jsstring) :
  exists lead, s = lead ++ JsString.trimStart s /\ spaces_only lead.
Proof.
  induction s as [|c s [lead [E L]]]; simpl.
  - exists []. split; [reflexivity | constructor].
  - destruct (JsString.is_space c) eqn:Hc.
    + exists (c :: lead). split; [simpl; congruence | now constructor].
    + exists []. split; [reflexivity | constructor].
Qed.

Lemma trimStart_head (s : jsstring) c rest :
  JsString.trimStart s = c :: rest -> JsString.is_space c = false.
Proof.
  induction s as [|x s IH]; simpl; [discriminate|].
  destruct (JsString.is_space x) eqn:Hx; [exact IH|].
  intros H. injection H as -> _. exact Hx.
Qed.

Lemma trimEnd_split (s : jsstring) :
  exists trail, s = JsString.trimEnd s ++ trail /\ spaces_only trail.
Proof.
  unfold JsString.trimEnd.
  destruct (trimStart_split (rev s)) as [lead [E L]].
  exists (rev lead). split.
  - rewrite <- rev_app_distr, <- E. symmetry. apply rev_involutive.
  - unfold spaces_only in *. apply Forall_forall. intros c Hc.
    rewrite Forall_forall in L. apply L. now apply in_rev.
Qed.

Lemma trimEnd_last (s : jsstring) c rest :
  JsString.trimEnd s = rest ++ [c] -> JsString.is_space c = false.
Proof.
  unfold JsString.trimEnd. intros H.
  apply (f_equal (@rev N)) in H. rewrite rev_involutive, rev_app_distr in H.
  simpl in H. now apply trimStart_head in H.
Qed.

(** [trim] removes a run of white space at each end and leaves a string
    that neither starts nor ends with white space. *)
Lemma trim_spec (s : jsstring) :
  exists lead trail,
    s = lead ++ JsString.trim s ++ trail /\
    spaces_only lead /\ spaces_only trail /\
    (forall c rest, JsString.trim s = c :: rest -> JsString.is_space c = false) /\
    (forall c rest, JsString.trim s = rest ++ [c] -> JsString.is_space c = false).
Proof.
  unfold JsString.trim.
  destruct (trimStart_split s) as [lead [E L]].
  destruct (trimEnd_split (JsString.trimStart s)) as [trail [E' T]].
  exists lead, trail. repeat split; try assumption.
  - rewrite <- E'. exact E.
  - intros c rest H. rewrite H in E'. simpl in E'.
    now apply trimStart_head in E'.
  - intros c rest. apply trimEnd_last.
Qed.

Lemma normalizeUrl_string (s : jsstring) :
  normalizeUrl (VString s) =
    Ok (if has_scheme (JsString.trim s) then JsString.trim s
        else https_scheme ++ JsString.trim s).
Proof.
  unfold normalizeUrl, has_scheme.
  destruct (JsString.startsWith (JsString.trim s) http_scheme);
    destruct (JsString.startsWith (JsString.trim s) https_scheme); reflexivity.
Qed.

(** A normalised URL is a scheme followed by the rest. *)
Lemma normalizeUrl_scheme (s : jsstring) :
  exists scheme rest,
    normalizeUrl (VString s) = Ok (scheme ++ rest) /\
    (scheme = http_scheme \/ scheme = https_scheme).
Proof.
  rewrite normalizeUrl_string. unfold has_scheme.
  destruct (JsString.startsWith (JsString.trim s) http_scheme) eqn:H1.
  - apply startsWith_app in H1 as [rest E]. exists http_scheme, rest.
    simpl. rewrite E. auto.
  - destruct (JsString.startsWith (JsString.trim s) https_scheme) eqn:H2.
    + apply startsWith_app in H2 as [rest E]. exists https_scheme, rest.
      simpl. rewrite E. auto.
    + exists https_scheme, (JsString.trim s). simpl. auto.
Qed.

(** Replacing the first [://] of a normalised URL puts [www.] right after
    the scheme. *)
Lemma www_after_scheme (scheme rest : jsstring) :
  scheme = http_scheme \/ scheme = https_scheme ->
  JsString.replace (scheme ++ rest) scheme_sep www_sep
    = scheme ++ jss "www." ++ rest.
Proof.
  intros [-> | ->]; vm_compute; reflexivity.
Qed.

(** ** The fetcher *)

(** What the first GET decides, for either fetcher. *)
Lemma fetchWebsite_first (s : jsstring) (h : host) (t : trace) u :
  normalizeUrl (VString s) = Ok u ->
  (exists r rest, fetchWebsite (VString s) h t = (r, t ++ Fetched u :: rest)) /\
  (exists r rest, Server.fetchWebsite (VString s) h t = (r, t ++ Fetched u :: rest)).
Proof.
  intros E. unfold fetchWebsite, Server.fetchWebsite, bind, lift, try_catch, fetch, ret.
  rewrite E. split.
  - destruct (http_get h t u).
    + now exists (Ok (Some a)), [].
    + destruct (http_get h (t ++ [Fetched u]) _).
      * eexists _, [_]. rewrite <- app_assoc. reflexivity.
      * eexists _, [_]. rewrite <- app_assoc. reflexivity.
  - destruct (http_get h t u).
    + now exists (Ok (Some a)), [].
    + destruct (JsString.includes u www_sep); simpl.
      * now exists (Ok None), [].
      * destruct (http_get h (t ++ [Fetched u]) _).
        -- eexists _, [_]. rewrite <- app_assoc. reflexivity.
        -- eexists _, [_]. rewrite <- app_assoc. reflexivity.
Qed.

(** C7. Normalising a string trims the white space around it and puts
    [https://] in front unless the trimmed text starts with [http://] or
    [https://]; [example.com] becomes [https://example.com]; and the first
    GET of either fetcher goes to the normalised URL. *)
Theorem normalizeUrl_trims_and_adds_scheme :
  (forall s : jsstring,
     exists lead core trail u,
       s = lead ++ core ++ trail /\
       spaces_only lead /\ spaces_only trail /\
       (forall c rest, core = c :: rest -> JsString.is_space c = false) /\
       (forall c rest, core = rest ++ [c] -> JsString.is_space c = false) /\
       normalizeUrl (VString s) = Ok u /\
       u = (if JsString.startsWith core (jss "http://")
               || JsString.startsWith core (jss "https://")
            then core else jss "https://" ++ core) /\
       forall (h : host) (t : trace),
         (exists r rest, fetchWebsite (VString s) h t = (r, t ++ Fetched u :: rest)) /\
         (exists r rest,
            Server.fetchWebsite (VString s) h t = (r, t ++ Fetched u :: rest)))
  /\ normalizeUrl (VString (jss "example.com")) = Ok (jss "https://example.com").
Proof.
  split; [|reflexivity].
  intros s. destruct (trim_spec s) as [lead [trail [E [L [T [Hh Hl]]]]]].
  exists lead, (JsString.trim s), trail,
    (if has_scheme (JsString.trim s) then JsString.trim s
     else https_scheme ++ JsString.trim s).
  split; [exact E|]. split; [exact L|]. split; [exact T|].
  split; [exact Hh|]. split; [exact Hl|].
  split; [apply normalizeUrl_string|]. split; [reflexivity|].
  intros h t. apply fetchWebsite_first, normalizeUrl_string.
Qed.

(** The complete behaviour of the two fetchers on a string. *)
Lemma fetchWebsite_cases (s : jsstring) (h : host) (t : trace) :
  exists scheme rest,
    let u := scheme ++ rest in
    let www := scheme ++ jss "www." ++ rest in
    let retry :=
      (Ok (match http_get h (t ++ [Fetched u]) www with
           | Ok html => Some html
           | Throw _ => None
           end),
       t ++ [Fetched u; Fetched www]) in
    normalizeUrl (VString s) = Ok u /\
    (scheme = http_scheme \/ scheme = https_scheme) /\
    fetchWebsite (VString s) h t =
      match http_get h t u with
      | Ok html => (Ok (Some html), t ++ [Fetched u])
      | Throw _ => retry
      end /\
    Server.fetchWebsite (VString s) h t =
      match http_get h t u with
      | Ok html => (Ok (Some html), t ++ [Fetched u])
      | Throw _ =>
          if JsString.includes u www_sep then (Ok None, t ++ [Fetched u])
          else retry
      end.
Proof.
  destruct (normalizeUrl_scheme s) as [scheme [rest [E S]]].
  exists scheme, rest. cbv zeta. split; [exact E|]. split; [exact S|].
  unfold fetchWebsite, Server.fetchWebsite, bind, lift, try_catch, fetch, ret.
  rewrite E, (www_after_scheme rest S). split.
  - destruct (http_get h t (scheme ++ rest)); [reflexivity|].
    destruct (http_get h (t ++ [Fetched (scheme ++ rest)]) _);
      rewrite <- app_assoc; reflexivity.
  - destruct (http_get h t (scheme ++ rest)); [reflexivity|].
    destruct (JsString.includes (scheme ++ rest) www_sep); [reflexivity|]. simpl.
    destruct (http_get h (t ++ [Fetched (scheme ++ rest)]) _);
      rewrite <- app_assoc; reflexivity.
Qed.

(** C8, as the code has it. Neither fetcher throws on a string. When the
    first GET succeeds its text is the result. When it fails, the Netlify
    fetcher makes exactly one more GET, to the same URL with [www.] put
    after the scheme, and gives that text or null; the server's fetcher
    does the same unless the URL already contains [://www.], in which case
    it gives null after the one GET. *)
Theorem fetchWebsite_retry_policy (s : jsstring) (h : host) (t : trace) :
  exists scheme rest,
    let u := scheme ++ rest in
    let www := scheme ++ jss "www." ++ rest in
    normalizeUrl (VString s) = Ok u /\
    (scheme = jss "http://" \/ scheme = jss "https://") /\
    (forall html, http_get h t u = Ok html ->
       fetchWebsite (VString s) h t = (Ok (Some html), t ++ [Fetched u]) /\
       Server.fetchWebsite (VString s) h t = (Ok (Some html), t ++ [Fetched u])) /\
    (forall e, http_get h t u = Throw e ->
       (exists r,
          fetchWebsite (VString s) h t = (Ok r, t ++ [Fetched u; Fetched www]) /\
          (forall html, http_get h (t ++ [Fetched u]) www = Ok html -> r = Some html) /\
          (forall e', http_get h (t ++ [Fetched u]) www = Throw e' -> r = None)) /\
       (JsString.includes u (jss "://www.") = false ->
          Server.fetchWebsite (VString s) h t = fetchWebsite (VString s) h t) /\
       (JsString.includes u (jss "://www.") = true ->
          Server.fetchWebsite (VString s) h t = (Ok None, t ++ [Fetched u]))).
Proof.
  destruct (fetchWebsite_cases s h t) as [scheme [rest [E [S [N V]]]]].
  exists scheme, rest. cbv zeta. split; [exact E|]. split; [exact S|]. split.
  - intros html G. rewrite N, V, G. split; reflexivity.
  - intros e G. rewrite N, V, G. split; [|split].
    + eexists. split; [reflexivity|]. split.
      * intros html G'. rewrite G'. reflexivity.
      * intros e' G'. rewrite G'. reflexivity.
    + intros I. change www_sep with (jss "://www.") in *. rewrite I. reflexivity.
    + intros I. change www_sep with (jss "://www.") in *. rewrite I. reflexivity.
Qed.

(** C8 fails on the server: with the network down, a URL that already has
    [www.] gets one GET and no retry. *)
Lemma server_fetch_www_not_retried :
  http_get Double.offline [] (jss "https://www.example.com")
    = Throw Double.unreachable /\
  Server.fetchWebsite (VString (jss "https://www.example.com")) Double.offline []
    = (Ok None, [Fetched (jss "https://www.example.com")]).
Proof. split; reflexivity. Qed.

(** ** Structured content *)

Lemma substring0_length (n : nat) (s : jsstring) :
  (List.length (JsString.substring0 n s) <= n)%nat.
Proof. apply firstn_le_length. Qed.

Lemma decode_throws_URIError (fuel : nat) (s : jsstring) e :
  URI.decode fuel s = Throw e -> e = URIError.
Proof.
  revert s; induction fuel as [|fuel IH]; intros s; simpl; [discriminate|].
  destruct s as [|c s']; [discriminate|].
  destruct (c =? 37).
  - destruct (URI.octet (c :: s')) as [[b s1]|]; [|congruence].
    assert (K : forall n lead lo,
               match URI.continuation n lead s1 with
               | Some (cp, s2) =>
                   if URI.scalar lo cp
                   then match URI.decode fuel s2 with
                        | Ok d => Ok (URI.utf16 cp ++ d)
                        | Throw e => Throw e
                        end
                   else Throw URIError
               | None => Throw URIError
               end = Throw e -> e = URIError).
    { intros n lead lo. destruct (URI.continuation n lead s1) as [[cp s2]|];
        [|congruence].
      destruct (URI.scalar lo cp); [|congruence].
      destruct (URI.decode fuel s2) eqn:D; [discriminate|].
      intros H. injection H as <-. eapply IH, D. }
    destruct (b <? 128).
    + destruct (URI.decode fuel s1) eqn:D; [discriminate|].
      intros H. injection H as <-. eapply IH, D.
    + destruct (b <? 192); [congruence|].
      destruct (b <? 224); [exact (K 1%nat (b - 192) 128)|].
      destruct (b <? 240); [exact (K 2%nat (b - 224) 2048)|].
      destruct (b <? 248); [exact (K 3%nat (b - 240) 65536)|congruence].
  - destruct (URI.decode fuel s') eqn:D; [discriminate|].
    intros H. injection H as <-. eapply IH, D.
Qed.

Lemma existsb_eqb_In (x : jsstring) (seen : list jsstring) :
  existsb (JsString.eqb x) seen = true <-> In x seen.
Proof.
  rewrite existsb_exists. split.
  - intros [y [Hy E]]. apply eqb_eq in E. now subst.
  - intros H. exists x. split; [exact H | now apply eqb_eq].
Qed.

Lemma distinct_from_In (seen xs : list jsstring) (x : jsstring) :
  In x (distinct_from seen xs) <-> In x xs /\ ~ In x seen.
Proof.
  revert seen; induction xs as [|y xs IH]; intros seen; simpl.
  - tauto.
  - destruct (existsb (JsString.eqb y) seen) eqn:E.
    + apply existsb_eqb_In in E. rewrite IH. split.
      * tauto.
      * intros [[-> | H] N]; [contradiction | tauto].
    + assert (N : ~ In y seen).
      { intros H. apply existsb_eqb_In in H. congruence. }
      simpl. rewrite IH. simpl. split.
      * intros [-> | [H K]]; [tauto | tauto].
      * intros [[-> | H] K]; [tauto|].
        destruct (list_eq_dec N.eq_dec y x) as [-> | D]; [tauto|].
        right. split; [exact H|]. intros [F | F]; [congruence | tauto].
Qed.

Lemma distinct_from_NoDup (seen xs : list jsstring) :
  NoDup (distinct_from seen xs).
Proof.
  revert seen; induction xs as [|y xs IH]; intros seen; simpl.
  - constructor.
  - destruct (existsb (JsString.eqb y) seen); [apply IH|].
    constructor; [|apply IH].
    rewrite distinct_from_In. simpl. tauto.
Qed.

Lemma distinct_In (xs : list jsstring) (x : jsstring) :
  In x (distinct xs) <-> In x xs.
Proof. unfold distinct. rewrite distinct_from_In. simpl. tauto. Qed.

Lemma firstn_In {A} (n : nat) (l : list A) (x : A) :
  In x (firstn n l) -> In x l.
Proof.
  intros H. rewrite <- (firstn_skipn n l). apply in_or_app. now left.
Qed.

Lemma firstn_NoDup {A} (n : nat) (l : list A) :
  NoDup l -> NoDup (firstn n l).
Proof.
  intros H. rewrite <- (firstn_skipn n l) in H.
  now apply NoDup_app_remove_r in H.
Qed.

(** The first piece of a split holds no separator. *)
Lemma split_head_no_sep (sep : N) (s : jsstring) :
  ~ In sep (hd [] (JsString.split sep s)).
Proof.
  induction s as [|c s IH]; simpl; [tauto|].
  destruct (N.eqb c sep) eqn:E; simpl; [tauto|].
  destruct (JsString.split sep s) as [|w ws]; simpl in *.
  - intros [H | []]. subst. rewrite N.eqb_refl in E. discriminate.
  - intros [H | H]; [|tauto]. subst. rewrite N.eqb_refl in E. discriminate.
Qed.

Lemma family_name_no_colon (f : jsstring) : ~ In Pat.colon (family_name f).
Proof. apply split_head_no_sep. Qed.

(** The server's extractor fails only on a null argument or on a Google
    Fonts family that is not a well-formed escape sequence. *)
Lemma server_extract_cases (html : jsstring) :
  match Server.font_list html with
  | Ok fonts =>
      exists r, Server.extractStructuredContent (Some html) = Ok r /\
                Server.fonts r = joined_or_unknown fonts /\
                Server.colors r = joined_or_unknown (Server.color_list html) /\
                (List.length (Server.metaTitle r) <= 200)%nat /\
                (List.length (Server.metaDescription r) <= 300)%nat /\
                (List.length (Server.h1 r) <= 200)%nat /\
                (List.length (Server.subheadline r) <= 300)%nat /\
                (List.length (Server.text r) <= 1500)%nat
  | Throw e =>
      Server.extractStructuredContent (Some html) = Throw e /\ e = URIError /\
      exists g, first_capture true Pat.googleFonts html = Some g /\
                URI.decodeURIComponent g = Throw URIError
  end.
Proof.
  unfold Server.extractStructuredContent.
  destruct (Server.font_list html) as [fonts|e] eqn:F.
  - eexists. split; [reflexivity|].
    cbv beta iota delta [Server.metaTitle Server.metaDescription Server.h1
                           Server.subheadline Server.colors Server.fonts
                           Server.text].
    repeat split; apply substring0_length.
  - split; [reflexivity|].
    unfold Server.font_list, Server.google_families in F.
    destruct (first_capture true Pat.googleFonts html) as [g|]; [|discriminate].
    destruct (URI.decodeURIComponent g) as [d|e'] eqn:D; [discriminate|].
    injection F as <-.
    assert (e' = URIError) by (eapply decode_throws_URIError; exact D).
    subst. split; [reflexivity|]. now exists g.
Qed.

(** The caps the code applies. The two Netlify extractors are total, on
    null too: the suggest extractor caps the body text at 800; the audit
    extractor caps the heading at 200, the subheading at 300 and the body
    text at 1500. The server's extractor, on every string on which it
    returns, gives all seven fields with title at most 200, description at
    most 300, heading at most 200, subheading at most 300 and body text at
    most 1500; it returns unless the family parameter of a Google Fonts
    link is a malformed escape; on null it throws. *)
Theorem extractStructuredContent_caps :
  (forall html : option jsstring,
     (List.length (Suggest.text (Suggest.extractStructuredContent html)) <= 800)%nat)
  /\
  (forall html : option jsstring,
     (List.length (Audit.h1 (Audit.extractStructuredContent html)) <= 200)%nat /\
     (List.length (Audit.subheadline (Audit.extractStructuredContent html)) <= 300)%nat /\
     (List.length (Audit.text (Audit.extractStructuredContent html)) <= 1500)%nat)
  /\
  (forall html : jsstring,
     (exists r,
        Server.extractStructuredContent (Some html) = Ok r /\
        (List.length (Server.metaTitle r) <= 200)%nat /\
        (List.length (Server.metaDescription r) <= 300)%nat /\
        (List.length (Server.h1 r) <= 200)%nat /\
        (List.length (Server.subheadline r) <= 300)%nat /\
        (List.length (Server.text r) <= 1500)%nat)
     \/
     (Server.extractStructuredContent (Some html) = Throw URIError /\
      exists g, first_capture true Pat.googleFonts html = Some g /\
                URI.decodeURIComponent g = Throw URIError))
  /\
  Server.extractStructuredContent None = Throw TypeError.
Proof.
  split; [|split; [|split]].
  - intros [[|c s]|]; unfold Suggest.extractStructuredContent;
      cbv beta iota delta [Suggest.text];
      first [apply substring0_length | apply Nat.le_0_l].
  - intros [[|c s]|]; unfold Audit.extractStructuredContent;
      cbv beta iota delta [Audit.h1 Audit.subheadline Audit.text];
      repeat split; first [apply substring0_length | apply Nat.le_0_l].
  - intros html. pose proof (server_extract_cases html) as H.
    destruct (Server.font_list html) as [fonts|e].
    + left. destruct H as [r [E [_ [_ H]]]]. exists r. split; assumption.
    + right. destruct H as [E [-> G]]. split; assumption.
  - reflexivity.
Qed.

(** The server's extractor has no guard for null; its callers pass
    [html || '']. *)
Lemma server_extract_null_throws :
  Server.extractStructuredContent None = Throw TypeError.
Proof. reflexivity. Qed.

(** A second slip against C4: the Netlify audit extractor caps the
    heading and the subheading and returns the title as long as it is. *)
Example audit_title_not_capped :
  List.length
    (Audit.metaTitle
       (Audit.extractStructuredContent
          (Some (jss "<title>" ++ repeat 97 201 ++ jss "</title>"))))
  = 201%nat.
Proof. vm_compute. reflexivity. Qed.

(** C4 fails in the code by a slip. The server's extractor hands the
    family parameter of a Google Fonts link to [decodeURIComponent]
    outside any [try]: on a page whose parameter is a malformed escape it
    throws a URIError, where the claim has it return a record for every
    page. The Netlify audit extractor, which has no font step, returns a
    record for the same page. *)
Example server_extract_bad_escape :
  Server.extractStructuredContent
    (Some (jss "<link href='https://fonts.googleapis.com/css?family=%zz'>"))
  = Throw URIError /\
  Audit.extractStructuredContent
    (Some (jss "<link href='https://fonts.googleapis.com/css?family=%zz'>"))
  = Audit.Structured [] [] [] [] [].
Proof. split; vm_compute; reflexivity. Qed.

(** C5, as the code has it. Each Netlify extractor gives the same
    all-empty record for null and for the empty string. The server's
    extractor gives, for the empty string, empty title, description,
    heading, subheading and text and the text [Could not detect] for
    colors and fonts; its callers turn null into the empty string; on null
    itself it throws. *)
Theorem extractStructuredContent_null_and_empty :
  Suggest.extractStructuredContent None = Suggest.Structured [] [] /\
  Suggest.extractStructuredContent (Some []) = Suggest.Structured [] [] /\
  Audit.extractStructuredContent None = Audit.Structured [] [] [] [] [] /\
  Audit.extractStructuredContent (Some []) = Audit.Structured [] [] [] [] [] /\
  Server.extractStructuredContent (Some []) =
    Ok (Server.Structured [] [] [] []
          (jss "Could not detect") (jss "Could not detect") []) /\
  Server.extractStructuredContent (Server.or_empty None) =
    Server.extractStructuredContent (Some []) /\
  Server.extractStructuredContent None = Throw TypeError.
Proof. repeat split; vm_compute; reflexivity. Qed.

(** C5 fails on the server: the record for the empty string is not all
    empty, and null does not give a record. *)
Lemma server_extract_empty_not_all_empty :
  Server.extractStructuredContent (Some []) =
    Ok (Server.Structured [] [] [] []
          (jss "Could not detect") (jss "Could not detect") []) /\
  Server.extractStructuredContent None = Throw TypeError.
Proof. split; vm_compute; reflexivity. Qed.

(** ** Fonts *)

(** C6, as the code has it. For a page with a Google Fonts link whose
    family parameter decodes, the family names are the pipe-separated
    pieces cut at their first colon; they are appended to the (at most
    three) distinct [font-family] values, duplicates are dropped and the
    first three names are kept. So the list has at most three distinct
    entries, each a declared font or a family name, and every family name
    is in it when the merged list has at most three names. *)
Theorem google_fonts_merged (html g d : jsstring) :
  first_capture true Pat.googleFonts html = Some g ->
  URI.decodeURIComponent g = Ok d ->
  exists fonts r,
    Server.font_list html = Ok fonts /\
    merged_fonts html d fonts /\
    Server.extractStructuredContent (Some html) = Ok r /\
    Server.fonts r = joined_or_unknown fonts.
Proof.
  intros G D.
  pose proof (server_extract_cases html) as H.
  assert (F : Server.font_list html =
              Ok (firstn 3 (distinct (Server.declared_fonts html
                     ++ map family_name (JsString.split Pat.pipe d))))).
  { unfold Server.font_list, Server.google_families. rewrite G, D. reflexivity. }
  rewrite F in H. destruct H as [r [E [Fr _]]].
  eexists _, r. split; [exact F|]. split; [|split; [exact E | exact Fr]].
  unfold merged_fonts. cbv zeta. split; [reflexivity|]. split; [apply firstn_le_length|].
  split; [apply firstn_NoDup, distinct_from_NoDup|]. split; [|split].
  - intros f Hf. apply in_map_iff in Hf as [x [<- _]]. apply family_name_no_colon.
  - intros f Hf. apply firstn_In, distinct_In, in_app_or in Hf. exact Hf.
  - intros f Hf L. rewrite firstn_all2 by exact L.
    apply distinct_In, in_or_app. now right.
Qed.

(** The example of the specification: the two families, without weights. *)
Lemma google_fonts_merged_witness :
  first_capture true Pat.googleFonts inter_roboto_page
    = Some (jss "Inter:400|Roboto:700") /\
  URI.decodeURIComponent (jss "Inter:400|Roboto:700")
    = Ok (jss "Inter:400|Roboto:700") /\
  exists fonts r,
    Server.font_list inter_roboto_page = Ok fonts /\
    merged_fonts inter_roboto_page (jss "Inter:400|Roboto:700") fonts /\
    Server.extractStructuredContent (Some inter_roboto_page) = Ok r /\
    Server.fonts r = joined_or_unknown fonts.
Proof.
  split; [vm_compute; reflexivity|]. split; [vm_compute; reflexivity|].
  apply (@google_fonts_merged inter_roboto_page (jss "Inter:400|Roboto:700")
           (jss "Inter:400|Roboto:700")); vm_compute; reflexivity.
Defined.

Example inter_roboto_fonts :
  Server.font_list inter_roboto_page = Ok [jss "Inter"; jss "Roboto"] /\
  (exists r, Server.extractStructuredContent (Some inter_roboto_page) = Ok r /\
             Server.fonts r = jss "Inter, Roboto").
Proof.
  split; [vm_compute; reflexivity|].
  eexists. split; vm_compute; reflexivity.
Qed.

(** C6 fails when three fonts are declared: the link is found, and neither
    family is in the list. *)
Lemma three_declared_fonts_hide_google_fonts :
  first_capture true Pat.googleFonts three_fonts_page
    = Some (jss "Inter:400|Roboto:700") /\
  Server.font_list three_fonts_page
    = Ok [jss "Arial"; jss "Georgia"; jss "Verdana"] /\
  (exists r, Server.extractStructuredContent (Some three_fonts_page) = Ok r /\
             Server.fonts r = jss "Arial, Georgia, Verdana").
Proof.
  split; [vm_compute; reflexivity|]. split; [vm_compute; reflexivity|].
  eexists. split; vm_compute; reflexivity.
Qed.

(** ** Runs and their traces *)

Lemma emits_run {A P} {m : M A} {h t r t'} :
  emits P m -> m h t = (r, t') -> exists evs, t' = t ++ evs /\ Forall P evs.
Proof. intros E H. specialize (E h t). rewrite H in E. exact E. Qed.

Lemma never_nil {evs : list event} : Forall never evs -> evs = [].
Proof. destruct evs; [reflexivity|]. intros H. inversion H. contradiction. Qed.

Lemma silent_run {A} {m : M A} {h t r t'} :
  emits never m -> m h t = (r, t') -> t' = t.
Proof.
  intros E H. destruct (emits_run E H) as [evs [-> F]].
  rewrite (never_nil F). apply app_nil_r.
Qed.

Lemma emits_weaken {A} (P Q : event -> Prop) (m : M A) :
  (forall e, P e -> Q e) -> emits P m -> emits Q m.
Proof.
  intros PQ E h t. destruct (E h t) as [evs [H F]]. exists evs.
  split; [exact H|]. eapply Forall_impl; eassumption.
Qed.

Lemma emits_quiet {A} P (m : M A) : emits never m -> emits P m.
Proof. apply emits_weaken. intros e []. Qed.

Lemma emits_nothing {A} P (m : M A) :
  (forall h t, snd (m h t) = t) -> emits P m.
Proof.
  intros H h t. exists []. split; [rewrite app_nil_r; apply H | constructor].
Qed.

Lemma emits_one {A} (P : event -> Prop) (m : M A) e :
  P e -> (forall h t, snd (m h t) = t ++ [e]) -> emits P m.
Proof. intros Pe H h t. exists [e]. split; [apply H | now constructor]. Qed.

Lemma emits_ret {A} P (a : A) : emits P (ret a).
Proof. now apply emits_nothing. Qed.

Lemma emits_throw {A} P e : emits P (@throw A e).
Proof. now apply emits_nothing. Qed.

Lemma emits_lift {A} P (r : result A) : emits P (lift r).
Proof. now apply emits_nothing. Qed.

Lemma emits_str P v : emits P (str v).
Proof. now apply emits_nothing. Qed.

Lemma emits_parse P s : emits P (parse s).
Proof. now apply emits_nothing. Qed.

Lemma emits_bind {A B} P (m : M A) (f : A -> M B) :
  emits P m -> (forall a, emits P (f a)) -> emits P (bind m f).
Proof.
  intros Hm Hf h t. unfold bind.
  destruct (Hm h t) as [e1 [E1 F1]].
  destruct (m h t) as [[a|e] t1]; simpl in E1; subst t1.
  - destruct (Hf a h (t ++ e1)) as [e2 [E2 F2]].
    exists (e1 ++ e2). rewrite app_assoc. split; [exact E2|].
    apply Forall_app. now split.
  - now exists e1.
Qed.

Lemma emits_try_catch {A} P (m : M A) (f : exn -> M A) :
  emits P m -> (forall e, emits P (f e)) -> emits P (try_catch m f).
Proof.
  intros Hm Hf h t. unfold try_catch.
  destruct (Hm h t) as [e1 [E1 F1]].
  destruct (m h t) as [[a|e] t1]; simpl in E1; subst t1.
  - now exists e1.
  - destruct (Hf e h (t ++ e1)) as [e2 [E2 F2]].
    exists (e1 ++ e2). rewrite app_assoc. split; [exact E2|].
    apply Forall_app. now split.
Qed.

Lemma emits_mapM {A B} P (f : A -> M B) (xs : list A) :
  (forall x, emits P (f x)) -> emits P (mapM f xs).
Proof.
  intros Hf. induction xs as [|x xs IH]; simpl.
  - apply emits_ret.
  - apply emits_bind; [apply Hf|]. intros y.
    apply emits_bind; [apply IH|]. intros ys. apply emits_ret.
Qed.

Lemma emits_fetch allowed url : emits (only allowed) (fetch url).
Proof. now apply emits_one with (e := Fetched url). Qed.

Lemma emits_capture allowed url : emits (only allowed) (capture url).
Proof. now apply emits_one with (e := Captured url). Qed.

Lemma emits_capture_search allowed q : emits (only allowed) (capture_search q).
Proof. now apply emits_one with (e := Searched q). Qed.

Lemma emits_sleep allowed ms : emits (only allowed) (sleep ms).
Proof. now apply emits_one with (e := Waited ms). Qed.

Lemma emits_ask allowed req :
  allowed (req_stage req) = true -> emits (only allowed) (ask req).
Proof. intros H. now apply emits_one with (e := Asked req). Qed.

Lemma emits_join_values P sep xs : emits P (join_values sep xs).
Proof.
  induction xs as [|x xs IH]; simpl; [apply emits_ret|].
  apply emits_bind.
  - destruct (Js.nullish x); [apply emits_ret | apply emits_str].
  - intros s. destruct xs; [apply emits_ret|].
    apply emits_bind; [exact IH|]. intros r. apply emits_ret.
Qed.

Lemma emits_first_json P content : emits P (first_json content).
Proof.
  induction content as [|[text|] rest IH]; simpl; [apply emits_ret| |exact IH].
  destruct (jsonMatch text); [apply emits_parse | exact IH].
Qed.

Lemma emits_first_json_guarded P d content : emits P (first_json_guarded d content).
Proof.
  induction content as [|[text|] rest IH]; simpl; [apply emits_ret| |exact IH].
  destruct (jsonMatch text); [|exact IH].
  apply emits_try_catch; [apply emits_parse | intros; exact IH].
Qed.

Lemma emits_last_json P c content : emits P (last_json c content).
Proof.
  revert c; induction content as [|[text|] rest IH]; intros c; simpl;
    [apply emits_ret| |apply IH].
  destruct (jsonMatch text); [|apply IH].
  apply emits_bind; [apply emits_parse | intros; apply IH].
Qed.

Lemma emits_last_json_guarded P c content : emits P (last_json_guarded c content).
Proof.
  revert c; induction content as [|[text|] rest IH]; intros c; simpl;
    [apply emits_ret| |apply IH].
  destruct (jsonMatch text); [|apply IH].
  apply emits_bind; [|intros; apply IH].
  apply emits_try_catch; [apply emits_parse | intros; apply emits_ret].
Qed.

Ltac head_of t :=
  lazymatch t with
  | ?f _ => head_of f
  | _ => t
  end.

(** Decides [emits] goals by the structure of the computation. *)
Ltac emits_step :=
  lazymatch goal with
  | |- emits _ (bind _ _) => apply emits_bind; [|intros]
  | |- emits _ (ret _) => apply emits_ret
  | |- emits _ (throw _) => apply emits_throw
  | |- emits _ (lift _) => apply emits_lift
  | |- emits _ (str _) => apply emits_str
  | |- emits _ (parse _) => apply emits_parse
  | |- emits _ (try_catch _ _) => apply emits_try_catch; [|intros]
  | |- emits _ (mapM _ _) => apply emits_mapM; intros
  | |- emits _ (join_values _ _) => apply emits_join_values
  | |- emits _ (first_json _) => apply emits_first_json
  | |- emits _ (first_json_guarded _ _) => apply emits_first_json_guarded
  | |- emits _ (last_json _ _) => apply emits_last_json
  | |- emits _ (last_json_guarded _ _) => apply emits_last_json_guarded
  | |- emits (only _) (fetch _) => apply emits_fetch
  | |- emits (only _) (capture _) => apply emits_capture
  | |- emits (only _) (capture_search _) => apply emits_capture_search
  | |- emits (only _) (sleep _) => apply emits_sleep
  | |- emits (only _) (ask _) =>
      apply emits_ask; simpl; first [assumption | reflexivity]
  | |- emits _ (match ?x with _ => _ end) => destruct x
  | |- emits _ (let _ := _ in _) => cbv zeta
  | |- emits _ ?m => let f := head_of m in progress unfold f
  end.

Ltac emits_auto := repeat emits_step.

(** ** The brace span *)

Lemma any_matches (x : N) :
  Regex.in_class false false [Regex.Space; Regex.NonSpace] x = true.
Proof.
  unfold Regex.in_class. simpl. now destruct (JsString.is_space x).
Qed.

Lemma star_any_cons (k : Regex.continuation) b y ys c :
  Regex.m false (Regex.star Regex.any) (b, y :: ys) c k =
  match Regex.m false (Regex.star Regex.any) (y :: b, ys) c k with
  | Some x => Some x
  | None => k (b, y :: ys) c
  end.
Proof.
  unfold Regex.star, Regex.any.
  cbn [Regex.m Regex.iterate Regex.exhausted snd fst Nat.add List.length
       Nat.eqb andb Nat.pred Regex.dec_max option_map].
  rewrite any_matches.
  replace (Nat.leb (S (List.length ys)) (List.length ys)) with false
    by (symmetry; apply Nat.leb_gt; lia).
  reflexivity.
Qed.

Lemma closing_cons b y ys c :
  closing (b, y :: ys) c =
  if close_brace =? y then Some ((y :: b, ys), c) else None.
Proof. reflexivity. Qed.

Lemma star_then_close_none b rest c :
  ~ In close_brace rest ->
  Regex.m false (Regex.star Regex.any) (b, rest) c closing = None.
Proof.
  revert b; induction rest as [|y ys IH]; intros b N.
  - reflexivity.
  - rewrite star_any_cons, IH by (intros I; apply N; now right).
    rewrite closing_cons. destruct (close_brace =? y) eqn:E; [|reflexivity].
    apply N.eqb_eq in E. exfalso. apply N. now left.
Qed.

Lemma star_then_close_last b mid post c :
  ~ In close_brace post ->
  Regex.m false (Regex.star Regex.any) (b, mid ++ close_brace :: post) c closing
  = Some ((close_brace :: rev mid ++ b, post), c).
Proof.
  intros N. revert b; induction mid as [|y ys IH]; intros b; simpl app.
  - rewrite star_any_cons, star_then_close_none, closing_cons by exact N.
    now rewrite N.eqb_refl.
  - rewrite star_any_cons, IH. simpl. now rewrite <- app_assoc.
Qed.

Lemma braces_at b x xs :
  Regex.at_pos false Pat.braces (b, x :: xs) =
  if open_brace =? x
  then Regex.m false (Regex.star Regex.any) (x :: b, xs) [] closing
  else None.
Proof. reflexivity. Qed.

Lemma braces_at_end b : Regex.at_pos false Pat.braces (b, []) = None.
Proof. reflexivity. Qed.

Lemma search_nil r b :
  Regex.search false r b [] =
  match Regex.at_pos false r (b, []) with
  | Some (z', c) => Some ((b, []), z', c)
  | None => None
  end.
Proof. reflexivity. Qed.

Lemma search_cons r b x xs :
  Regex.search false r b (x :: xs) =
  match Regex.at_pos false r (b, x :: xs) with
  | Some (z', c) => Some ((b, x :: xs), z', c)
  | None => Regex.search false r (x :: b) xs
  end.
Proof. reflexivity. Qed.

Lemma split_last_close (xs : jsstring) :
  In close_brace xs ->
  exists mid post, xs = mid ++ close_brace :: post /\ ~ In close_brace post.
Proof.
  induction xs as [|y ys IH]; [intros []|].
  intros I. destruct (in_dec N.eq_dec close_brace ys) as [J | J].
  - destruct (IH J) as [mid [post [-> P]]]. now exists (y :: mid), post.
  - destruct I as [-> | I]; [|contradiction]. now exists [], ys.
Qed.

Lemma search_no_close b rest :
  ~ In close_brace rest -> Regex.search false Pat.braces b rest = None.
Proof.
  revert b; induction rest as [|x xs IH]; intros b N.
  - now rewrite search_nil, braces_at_end.
  - rewrite search_cons, braces_at,
      star_then_close_none by (intros I; apply N; now right).
    destruct (open_brace =? x); apply IH; intros I; apply N; now right.
Qed.

Lemma search_braces b rest :
  match Regex.search false Pat.braces b rest with
  | Some (z, z', c) =>
      exists pre mid post,
        rest = pre ++ open_brace :: mid ++ close_brace :: post /\
        ~ In open_brace pre /\ ~ In close_brace post /\
        z = (rev pre ++ b, open_brace :: mid ++ close_brace :: post) /\
        snd z' = post
  | None =>
      forall pre mid post, rest <> pre ++ open_brace :: mid ++ close_brace :: post
  end.
Proof.
  revert b; induction rest as [|x xs IH]; intros b.
  - rewrite search_nil, braces_at_end. intros [|? ?] ? ?; discriminate.
  - rewrite search_cons, braces_at. destruct (open_brace =? x) eqn:E.
    + apply N.eqb_eq in E. subst x.
      destruct (in_dec N.eq_dec close_brace xs) as [I | I].
      * destruct (split_last_close xs I) as [mid [post [-> P]]].
        rewrite star_then_close_last by exact P.
        exists [], mid, post. repeat split; auto.
      * rewrite star_then_close_none by exact I.
        rewrite search_no_close by exact I.
        intros pre mid post H. apply I.
        destruct pre as [|p pre]; simpl in H.
        -- injection H as ->. apply in_or_app. right. now left.
        -- injection H as _ ->. apply in_or_app. right. right.
           apply in_or_app. right. now left.
    + specialize (IH (x :: b)).
      destruct (Regex.search false Pat.braces (x :: b) xs) as [[[z z'] c]|].
      * destruct IH as [pre [mid [post [-> [A [B [-> Z]]]]]]].
        exists (x :: pre), mid, post. repeat split; auto.
        -- intros [-> | I]; [discriminate E | contradiction].
        -- simpl. now rewrite <- app_assoc.
      * intros pre mid post H. destruct pre as [|p pre].
        -- injection H as E' _. subst x. discriminate E.
        -- injection H as _ H. exact (IH _ _ _ H).
Qed.

Lemma firstn_length_app {A} (l1 l2 : list A) :
  firstn (List.length l1) (l1 ++ l2) = l1.
Proof. induction l1 as [|x l1 IH]; simpl; [reflexivity | now rewrite IH]. Qed.

Lemma consumed_span mid post b b' :
  Regex.consumed (b, open_brace :: mid ++ close_brace :: post) (b', post)
  = open_brace :: mid ++ [close_brace].
Proof.
  unfold Regex.consumed. simpl snd.
  replace (List.length (open_brace :: mid ++ close_brace :: post) - List.length post)%nat
    with (List.length (open_brace :: mid ++ [close_brace])).
  - change (open_brace :: mid ++ close_brace :: post)
      with ((open_brace :: mid) ++ [close_brace] ++ post).
    rewrite app_assoc. apply firstn_length_app.
  - cbn [List.length]. rewrite !length_app. cbn [List.length]. lia.
Qed.

(** [jsonMatch] gives the text from the first opening brace to the last
    closing brace, when a closing brace follows an opening one. *)
Lemma jsonMatch_span (text : jsstring) :
  match jsonMatch text with
  | Some span => brace_span text span
  | None => no_braces text
  end.
Proof.
  unfold jsonMatch, Regex.exec.
  pose proof (search_braces [] text) as H.
  destruct (Regex.search false Pat.braces [] text) as [[[z z'] c]|]; simpl.
  - destruct H as [pre [mid [post [-> [A [B [-> Z]]]]]]].
    exists pre, mid, post. repeat split; auto.
    destruct z' as [b' r']. simpl in Z. subst r'. apply consumed_span.
  - exact H.
Qed.

(** ** Reply loops *)

Lemma no_json_tail h b content : no_json h (b :: content) -> no_json h content.
Proof. intros H text span I. apply H. now right. Qed.

Lemma first_json_guarded_run d content h t :
  exists v, first_json_guarded d content h t = (Ok v, t) /\
            (no_json h content -> v = d).
Proof.
  induction content as [|[text|] rest [v [E N]]]; simpl.
  - now exists d.
  - destruct (jsonMatch text) as [span|] eqn:J.
    + unfold try_catch, parse. destruct (JSON_parse h span) as [w|] eqn:P.
      * exists w. split; [reflexivity|]. intros H.
        rewrite (H text span) in P; [discriminate | now left | exact J].
      * exists v. split; [exact E|]. intros H. eapply N, no_json_tail, H.
    + exists v. split; [exact E|]. intros H. eapply N, no_json_tail, H.
  - exists v. split; [exact E|]. intros H. eapply N, no_json_tail, H.
Qed.

Lemma last_json_guarded_run c content h t :
  exists v, last_json_guarded c content h t = (Ok v, t) /\
            (no_json h content -> v = c).
Proof.
  revert c; induction content as [|[text|] rest IH]; intros c; simpl.
  - now exists c.
  - destruct (jsonMatch text) as [span|] eqn:J.
    + unfold bind, try_catch, parse, ret.
      destruct (JSON_parse h span) as [w|] eqn:P.
      * destruct (IH w) as [v [E N]]. exists v. split; [exact E|]. intros H.
        rewrite (H text span) in P; [discriminate | now left | exact J].
      * destruct (IH c) as [v [E N]]. exists v. split; [exact E|].
        intros H. eapply N, no_json_tail, H.
    + destruct (IH c) as [v [E N]]. exists v. split; [exact E|].
      intros H. eapply N, no_json_tail, H.
  - destruct (IH c) as [v [E N]]. exists v. split; [exact E|].
    intros H. eapply N, no_json_tail, H.
Qed.

Lemma first_json_run content h t :
  first_json content h t = (unguarded_value h content, t).
Proof.
  unfold unguarded_value.
  induction content as [|[text|] rest IH]; simpl; [reflexivity| |exact IH].
  destruct (jsonMatch text); [reflexivity | exact IH].
Qed.

Lemma jsonMatch_none (text : jsstring) :
  jsonMatch text = None <-> no_braces text.
Proof.
  pose proof (jsonMatch_span text) as H. split.
  - intros E. now rewrite E in H.
  - intros N. destruct (jsonMatch text) as [span|]; [|reflexivity].
    destruct H as [pre [mid [post [E _]]]]. now apply N in E.
Qed.

(** The span the suggest handler returns is the brace span of the first
    text block that has one. *)
Lemma first_span_cases content :
  match Suggest.first_span content with
  | Some span =>
      exists before text after,
        content = before ++ TextBlock text :: after /\
        (forall t, In (TextBlock t) before -> no_braces t) /\
        brace_span text span
  | None => forall t, In (TextBlock t) content -> no_braces t
  end.
Proof.
  induction content as [|[text|] rest IH]; simpl.
  - intros t [].
  - pose proof (jsonMatch_span text) as J.
    destruct (jsonMatch text) as [span|].
    + exists [], text, rest. split; [reflexivity|]. split; [intros t []|exact J].
    + destruct (Suggest.first_span rest) as [span|].
      * destruct IH as [before [x [after [-> [B S]]]]].
        exists (TextBlock text :: before), x, after. split; [reflexivity|].
        split; [|exact S]. intros t [E | I]; [now injection E as <- | now apply B].
      * intros t [E | I]; [now injection E as <- | now apply IH].
  - destruct (Suggest.first_span rest) as [span|].
    + destruct IH as [before [x [after [-> [B S]]]]].
      exists (OtherBlock :: before), x, after. split; [reflexivity|].
      split; [|exact S]. intros t [E | I]; [discriminate E | now apply B].
    + intros t [E | I]; [discriminate E | now apply IH].
Qed.

Lemma snoc_neq {A} (t : list A) (x : A) : t ++ [x] <> t.
Proof.
  intros H. apply (f_equal (@List.length A)) in H.
  rewrite length_app in H. simpl in H. lia.
Qed.

(** ** Stage functions *)

Lemma quiet_not_asked {evs req} : Forall quiet evs -> ~ In (Asked req) evs.
Proof.
  intros F I. rewrite Forall_forall in F. specialize (F _ I). discriminate F.
Qed.

Lemma never_quiet e : never e -> quiet e.
Proof. intros []. Qed.

Lemma answers_bind {A B} P value_of (m : M A) (f : A -> M B) :
  emits P m -> (forall a, answers P value_of (f a)) ->
  answers P value_of (bind m f).
Proof.
  intros Hm Hf h t r t' H. unfold bind in H.
  destruct (m h t) as [[a|e] t1] eqn:E;
    destruct (emits_run Hm E) as [e1 [-> F1]].
  - destruct (Hf a h _ r t' H) as [[e2 [-> F2]] | [e2 [req [-> [F2 V]]]]].
    + left. exists (e1 ++ e2). rewrite app_assoc. split; [reflexivity|].
      apply Forall_app. now split.
    + right. exists (e1 ++ e2), req. rewrite (app_assoc t e1 e2).
      split; [reflexivity|]. split; [apply Forall_app; now split | exact V].
  - left. exists e1. injection H as <- <-. now split.
Qed.

Lemma answers_ret {A} P value_of (v : A) : answers P value_of (ret v).
Proof.
  intros h t r t' H. left. exists []. injection H as <- <-.
  rewrite app_nil_r. now split.
Qed.

Lemma answers_ask {A} P value_of req (k : list block -> M A) :
  (forall content h t, exists r, k content h t = (r, t) /\ value_of h content r) ->
  answers P value_of (bind (ask req) k).
Proof.
  intros K h t r t' H. right. exists [], req. rewrite !app_nil_r.
  unfold bind, ask in H. split; [|split; [constructor|]].
  - destruct (messages_create h t req) as [content|e].
    + destruct (K content h (t ++ [Asked req])) as [r' [E _]].
      rewrite E in H. now injection H.
    + now injection H.
  - destruct (messages_create h t req) as [content|e].
    + destruct (K content h (t ++ [Asked req])) as [r' [E V]].
      rewrite E in H. injection H as <- _. exact V.
    + now injection H.
Qed.

Lemma answers_ask_guarded P d req :
  answers P (guarded d) (bind (ask req) (fun reply => first_json_guarded d reply)).
Proof.
  apply answers_ask. intros content h t.
  destruct (first_json_guarded_run d content h t) as [v [E N]].
  exists (Ok v). split; [exact E | now exists v].
Qed.

Lemma answers_ask_unguarded P req :
  answers P unguarded (bind (ask req) (fun reply => first_json reply)).
Proof.
  apply answers_ask. intros content h t. eexists. split; [apply first_json_run|].
  reflexivity.
Qed.

Ltac answers_step :=
  lazymatch goal with
  | |- answers _ _ (bind (ask _) _) =>
      first [apply answers_ask_guarded | apply answers_ask_unguarded]
  | |- answers _ _ (bind _ _) => apply answers_bind; [emits_auto | intros]
  | |- answers _ _ (ret _) => apply answers_ret
  | |- answers _ _ (match ?x with _ => _ end) => destruct x
  end.

Lemma server_extractMessaging_answers name s :
  answers never (guarded VNull) (Server.extractMessaging name s).
Proof. unfold Server.extractMessaging. repeat answers_step. Qed.

Lemma server_analyzeFirstImpressions_answers name mt md ws gs :
  answers never (guarded VNull) (Server.analyzeFirstImpressions name mt md ws gs).
Proof. unfold Server.analyzeFirstImpressions. repeat answers_step. Qed.

Lemma server_extractVisuals_answers name shot :
  answers never (guarded (Server.visual_fields "Unknown"))
    (Server.extractVisuals name shot).
Proof. unfold Server.extractVisuals. repeat answers_step. Qed.

Lemma server_generateTakeaways_answers name data comps cmp :
  answers never (guarded VNull) (Server.generateTakeaways name data comps cmp).
Proof. unfold Server.generateTakeaways. repeat answers_step. Qed.

Lemma audit_extractMessaging_answers name s :
  answers never unguarded (Audit.extractMessaging name s).
Proof. unfold Audit.extractMessaging. repeat answers_step. Qed.

Lemma audit_analyzeFirstImpressions_answers name mt md h1 :
  answers never unguarded (Audit.analyzeFirstImpressions name mt md h1).
Proof. unfold Audit.analyzeFirstImpressions. repeat answers_step. Qed.

Lemma audit_generateTakeaways_answers name data comps cmp :
  answers never unguarded (Audit.generateTakeaways name data comps cmp).
Proof. unfold Audit.generateTakeaways. repeat answers_step. Qed.

(** From [answers] to the run whose last event is the request [req]. *)
Lemma answers_at {A P value_of} {m : M A} {h t pre r req content} :
  (forall e, P e -> quiet e) ->
  answers P value_of m ->
  messages_create h (t ++ pre) req = Ok content ->
  m h t = (r, (t ++ pre) ++ [Asked req]) ->
  value_of h content r.
Proof.
  intros Q A0 C H.
  destruct (A0 h t r _ H) as [[evs [E F]] | [evs [req' [E [F V]]]]].
  - exfalso. rewrite <- app_assoc in E. apply app_inv_head in E.
    apply (Forall_impl _ Q) in F. apply (@quiet_not_asked evs req F).
    rewrite <- E. apply in_or_app. right. now left.
  - apply app_inj_tail in E as [E1 E2]. injection E2 as <-.
    rewrite E1 in C. now rewrite C in V.
Qed.

Lemma answers_here {A P value_of} {m : M A} {h t r req content} :
  (forall e, P e -> quiet e) ->
  answers P value_of m ->
  messages_create h t req = Ok content ->
  m h t = (r, t ++ [Asked req]) ->
  value_of h content r.
Proof.
  intros Q A0 C H. apply (@answers_at _ _ _ m h t [] r req content Q A0);
    now rewrite app_nil_r.
Qed.

Lemma answers_from_start {A P value_of} {m : M A} {h t r req content} :
  (forall e, P e -> quiet e) ->
  answers P value_of m ->
  messages_create h t req = Ok content ->
  m h [] = (r, t ++ [Asked req]) ->
  value_of h content r.
Proof.
  intros Q A0 C H. exact (@answers_at _ _ _ m h [] t r req content Q A0 C H).
Qed.

(** What the stage functions do with a reply. Once the model has replied,
    none of the server's stage functions throws: a parse failure is caught
    inside the function, and a reply with no parseable span gives null
    (the [Unknown] record for the visuals). The Netlify audit's stage
    functions do not guard [JSON.parse]: they give null when no block has
    a brace span and throw when the first span is not JSON. *)
Theorem stage_parse_failures (h : host) (t : trace) (req : request)
    (content : list block) :
  messages_create h t req = Ok content ->
  server_stages_contain h t req content /\
  netlify_stages_parse_unguarded h t req content.
Proof.
  intros C. split.
  - repeat split; intros.
    + exact (answers_here never_quiet (server_extractMessaging_answers _ _) C H).
    + exact (answers_here never_quiet
               (server_analyzeFirstImpressions_answers _ _ _ _ _) C H).
    + exact (answers_here never_quiet (server_extractVisuals_answers _ _) C H).
    + exact (answers_here never_quiet
               (server_generateTakeaways_answers _ _ _ _) C H).
  - repeat split; intros.
    + exact (answers_here never_quiet (audit_extractMessaging_answers _ _) C H).
    + exact (answers_here never_quiet
               (audit_analyzeFirstImpressions_answers _ _ _ _) C H).
    + exact (answers_here never_quiet
               (audit_generateTakeaways_answers _ _ _ _) C H).
Qed.

(** A model that refuses: the server's messaging stage gives null. *)
Lemma stage_parse_failures_witness :
  messages_create (Double.serving None (fun _ => Double.refusal) []) []
    Double.messaging_request = Ok Double.refusal /\
  (server_stages_contain (Double.serving None (fun _ => Double.refusal) []) []
     Double.messaging_request Double.refusal /\
   netlify_stages_parse_unguarded (Double.serving None (fun _ => Double.refusal) [])
     [] Double.messaging_request Double.refusal) /\
  Server.extractMessaging Double.acme (Server.Structured [] [] [] [] [] [] [])
    (Double.serving None (fun _ => Double.refusal) []) []
  = (Ok VNull, [Asked Double.messaging_request]).
Proof.
  split; [reflexivity|]. split; [|vm_compute; reflexivity].
  apply (@stage_parse_failures
           (Double.serving None (fun _ => Double.refusal) []) []
           Double.messaging_request Double.refusal).
  reflexivity.
Defined.

(** C3 fails in the code by a slip. The stage functions of the Netlify
    audit call [JSON.parse] outside any [try]: a reply whose brace span is
    not JSON makes the messaging stage throw a SyntaxError to its caller,
    where the claim has it yield null. The server's copy of the function
    catches the failure and yields null for the same reply. *)
Lemma netlify_stage_throws_on_bad_json :
  jsonMatch (jss "Here you go: {oops}") = Some (jss "{oops}") /\
  Audit.extractMessaging Double.acme (Audit.Structured [] [] [] [] [])
    (Double.serving None (fun _ => Double.broken) []) []
  = (Throw SyntaxError, [Asked Double.messaging_request]) /\
  Server.extractMessaging Double.acme (Server.Structured [] [] [] [] [] [] [])
    (Double.serving None (fun _ => Double.broken) []) []
  = (Ok VNull, [Asked Double.messaging_request]).
Proof. repeat split; vm_compute; reflexivity. Qed.

(** ** The suggest-competitors handler *)

Lemma suggest_handler_answers (event : lambda_event) :
  JsString.eqb (httpMethod event) post = true ->
  exists m, Suggest.handler event = caught m /\
            answers (only (fun _ => false)) suggest_yields m.
Proof.
  intros P. unfold Suggest.handler. rewrite P. simpl. eexists. split; [reflexivity|].
  repeat lazymatch goal with
  | |- answers _ _ (bind (ask _) _) => apply answers_ask
  | |- answers _ _ (bind _ _) => apply answers_bind; [emits_auto | intros]
  | |- answers _ _ (ret _) => apply answers_ret
  | |- answers _ _ (match ?x with _ => _ end) => destruct x
  end.
  intros content h t. unfold suggest_yields.
  destruct (Suggest.first_span content); eexists; split; reflexivity.
Qed.

(** C10. In the run of the suggest-competitors handler that ends with
    the request [req] and gets the reply [content]: when some text block
    holds a closing brace after an opening brace, the body of the 200
    response is the text of the first such block from its first opening
    brace to its last closing brace, as it is and whatever [JSON.parse]
    would make of it; when no text block does, the response is 200 with
    the JSON of an empty competitors list. *)
Theorem suggest_handler_returns_span (event : lambda_event) (h : host)
    (t : trace) (req : request) (content : list block) (resp : response) :
  messages_create h t req = Ok content ->
  Suggest.handler event h [] = (Ok resp, t ++ [Asked req]) ->
  (exists before text after span,
     content = before ++ TextBlock text :: after /\
     (forall t', In (TextBlock t') before -> no_braces t') /\
     brace_span text span /\
     resp = Response 200 (Text span))
  \/
  ((forall t', In (TextBlock t') content -> no_braces t') /\
   resp = Response 200 (Json (VObject [(jss "competitors", VArray [])]))).
Proof.
  intros C H.
  assert (R : suggest_yields h content (Ok resp)).
  { destruct (JsString.eqb (httpMethod event) post) eqn:P.
    - destruct (suggest_handler_answers event P) as [m [E A]].
      rewrite E in H. unfold caught, try_catch in H.
      destruct (m h []) as [[a|e] t1] eqn:B.
      + injection H as -> ->. exact (answers_from_start (fun _ q => q) A C B).
      + injection H as _ ->.
        pose proof (answers_from_start (fun _ q => q) A C B) as V. discriminate V.
    - unfold Suggest.handler in H. rewrite P in H. simpl in H.
      injection H as _ H. now apply app_cons_not_nil in H. }
  unfold suggest_yields in R. injection R as R.
  pose proof (first_span_cases content) as S.
  destruct (Suggest.first_span content) as [span|].
  - left. destruct S as [before [text [after [E [B K]]]]].
    now exists before, text, after, span.
  - right. now split.
Qed.

(** The site is down and the model answers with a span that is not JSON:
    the span is the response body all the same. *)
Lemma suggest_handler_returns_span_witness :
  messages_create
    (Double.serving None (fun _ => Double.broken)
       [(Double.suggest_text, Double.suggest_payload)])
    Double.suggest_trace Double.suggest_request = Ok Double.broken /\
  Suggest.handler Double.suggest_event
    (Double.serving None (fun _ => Double.broken)
       [(Double.suggest_text, Double.suggest_payload)]) []
  = (Ok (Response 200 (Text (jss "{oops}"))),
     Double.suggest_trace ++ [Asked Double.suggest_request]) /\
  JSON_parse
    (Double.serving None (fun _ => Double.broken)
       [(Double.suggest_text, Double.suggest_payload)]) (jss "{oops}") = None /\
  ((exists before text after span,
      Double.broken = before ++ TextBlock text :: after /\
      (forall t', In (TextBlock t') before -> no_braces t') /\
      brace_span text span /\
      Response 200 (Text (jss "{oops}")) = Response 200 (Text span))
   \/
   ((forall t', In (TextBlock t') Double.broken -> no_braces t') /\
    Response 200 (Text (jss "{oops}"))
    = Response 200 (Json (VObject [(jss "competitors", VArray [])])))).
Proof.
  assert (C : messages_create
                (Double.serving None (fun _ => Double.broken)
                   [(Double.suggest_text, Double.suggest_payload)])
                Double.suggest_trace Double.suggest_request = Ok Double.broken)
    by reflexivity.
  assert (H : Suggest.handler Double.suggest_event
                (Double.serving None (fun _ => Double.broken)
                   [(Double.suggest_text, Double.suggest_payload)]) []
              = (Ok (Response 200 (Text (jss "{oops}"))),
                 Double.suggest_trace ++ [Asked Double.suggest_request]))
    by (vm_compute; reflexivity).
  split; [exact C|]. split; [exact H|]. split; [reflexivity|].
  exact (@suggest_handler_returns_span _ _ _ _ _ _ C H).
Defined.

(** ** The audit handlers *)

(** ** Requests in a trace *)

Lemma find_request_none p evs :
  Forall (except p) evs -> find_request p evs = None.
Proof.
  induction 1 as [|e evs He _ IH]; [reflexivity|].
  destruct e; simpl; rewrite ?IH; try reflexivity.
  simpl in He. apply negb_true_iff in He. now rewrite He.
Qed.

Lemma find_request_first p pre rq more :
  Forall (except p) pre -> p (req_stage rq) = true ->
  find_request p (pre ++ Asked rq :: more) = Some (pre, rq).
Proof.
  intros F S. induction F as [|e evs He _ IH]; simpl.
  - now rewrite S.
  - destruct e; simpl; rewrite ?IH; try reflexivity.
    simpl in He. apply negb_true_iff in He. now rewrite He.
Qed.

Lemma only_not_asked allowed s t :
  Forall (only allowed) t -> allowed s = false -> asked s t = false.
Proof.
  intros F A. induction F as [|e evs He _ IH]; [reflexivity|].
  simpl. rewrite IH, orb_false_r. destruct e; try reflexivity.
  simpl in He. destruct s, (req_stage req); try reflexivity; simpl in *; congruence.
Qed.

Lemma quiet_except e : quiet e -> except (fun _ => true) e.
Proof. exact (fun x => x). Qed.

Lemma quiet_calm e : quiet e -> calm e.
Proof. destruct e; simpl; try exact (fun x => x). discriminate. Qed.

Lemma bind_step {A B} {P : event -> Prop} (t0 : trace) {m : M A} (f : A -> M B)
    {h evs r t'} :
  emits P m -> Forall P evs -> bind m f h (t0 ++ evs) = (r, t') ->
  (exists e evs', r = Throw e /\ t' = t0 ++ evs' /\ Forall P evs') \/
  (exists a evs', Forall P evs' /\ f a h (t0 ++ evs') = (r, t')).
Proof.
  intros Em F H. unfold bind in H.
  destruct (m h (t0 ++ evs)) as [[a|e] t1] eqn:E;
    destruct (emits_run Em E) as [e1 [-> F1]]; rewrite <- app_assoc in *.
  - right. exists a, (evs ++ e1). split; [apply Forall_app; now split | exact H].
  - left. injection H as <- <-. exists e, (evs ++ e1).
    split; [reflexivity|]. split; [reflexivity | apply Forall_app; now split].
Qed.

Lemma ret_step {A} {a : A} {h t r t'} : ret a h t = (r, t') -> r = Ok a /\ t' = t.
Proof. intros H. now injection H as <- <-. Qed.

(** After the steps so far the run cannot hold the request it is said to
    hold. *)
Lemma no_request_exit {p evs tr f} :
  Forall (except p) evs -> tr = [] ++ evs -> find_request p tr = Some f -> False.
Proof. intros F -> E. simpl in E. now rewrite (find_request_none F) in E. Qed.

Lemma server_extractMessaging_run name s h t r t' :
  Server.extractMessaging name s h t = (r, t') ->
  (exists e, r = Throw e /\ t' = t) \/
  (exists rq, req_stage rq = Messaging /\ t' = t ++ [Asked rq] /\
     match messages_create h t rq with
     | Ok content => exists v, r = Ok v /\ (no_json h content -> v = VNull)
     | Throw e => r = Throw e
     end).
Proof.
  unfold Server.extractMessaging, bind, str, ask. intros H.
  destruct (toString h name) as [n|e].
  - right.
    exists (Request Messaging [n; Server.h1 s; Server.subheadline s; Server.text s] []).
    split; [reflexivity|].
    destruct (messages_create h t _) as [content|e].
    + destruct (first_json_guarded_run VNull content h (t ++ [Asked
        (Request Messaging [n; Server.h1 s; Server.subheadline s; Server.text s] [])]))
        as [v [E N]].
      rewrite E in H. injection H as <- <-. split; [reflexivity|]. now exists v.
    + injection H as <- <-. now split.
  - left. exists e. now injection H as <- <-.
Qed.

Ltac qstep B F :=
  lazymatch type of F with
  | Forall ?P ?evs0 =>
      lazymatch type of B with
      | bind ?m ?f ?h (?t0 ++ evs0) = _ =>
          let Em := fresh "Em" in
          assert (Em : emits P m) by (unfold quiet, calm, anything, except; emits_auto);
          let B' := fresh "B" in
          let F' := fresh "F" in
          let e := fresh "e" in
          let evs' := fresh "evs" in
          destruct (bind_step t0 f Em F B)
            as [[e [evs' [Xr [Xt Xf]]]] | [? [evs' [F' B']]]];
          [ clear B Em | clear B F Em; rename B' into B; rename F' into F;
                         cbv beta in B ]
      end
  end.

Lemma calm_after {t1 req evs} :
  Forall (except (fun _ => true)) t1 -> req_stage req = Messaging ->
  Forall calm evs -> Forall calm ((t1 ++ [Asked req]) ++ evs).
Proof.
  intros Q S F. apply Forall_app. split; [|exact F].
  apply Forall_app. split.
  - eapply Forall_impl; [|exact Q]. intros e. destruct e; simpl; auto. discriminate.
  - constructor; [|constructor]. simpl. now rewrite S.
Qed.

Lemma first_is_messaging {pre rq more tr t1 req} :
  Forall (except (fun _ => true)) pre ->
  tr = pre ++ Asked rq :: more ->
  first_request tr = Some (t1, req) ->
  t1 = pre /\ req = rq.
Proof.
  intros F -> R. unfold first_request in R.
  rewrite (find_request_first rq more F eq_refl) in R. now injection R as <- <-.
Qed.

(** C1, as the code has it: on the server. The first request an audit
    makes to the model is the focal company's messaging extraction. When
    its reply holds no parseable JSON object, the handler answers with
    status 500 and an error body, and no request of the run comes from the
    Comparator or from the Takeaway stage. *)
Theorem server_null_messaging_is_fatal (req_body : value) (h : host)
    (resp : response) (tr t1 : trace) (req : request) (content : list block) :
  Server.audit req_body h [] = (Ok resp, tr) ->
  first_request tr = Some (t1, req) ->
  messages_create h t1 req = Ok content ->
  no_json h content ->
  req_stage req = Messaging /\
  statusCode resp = 500%nat /\
  (payload resp = error_object "Could not analyze your website" \/
   exists e, payload resp = ErrorMessage e) /\
  asked Comparator tr = false /\ asked Takeaways tr = false.
Proof.
  intros H R C N.
  unfold Server.audit, caught, try_catch in H.
  match type of H with
  | match ?b h [] with _ => _ end = _ =>
      destruct (b h []) as [res tr0] eqn:B
  end.
  assert (K : (forall r, res = Ok r -> r = analyze_failed) /\
              Forall calm tr0 /\ req_stage req = Messaging).
  2:{ destruct K as [K1 [K2 K3]].
      assert (T : tr0 = tr) by (destruct res; now injection H). subst tr0.
      split; [exact K3|].
      split; [|split; [|split; eapply only_not_asked; try exact K2; reflexivity]];
        destruct res as [r0|e0]; injection H as <-;
        try rewrite (K1 _ eq_refl); try reflexivity; [now left | right; now exists e0]. }
  assert (T : tr0 = tr) by (destruct res; now injection H).
  clear H. subst tr0.
  assert (F : Forall (except (fun _ => true)) (@nil event)) by constructor.
  change (@nil event) with (@nil event ++ @nil event) in B at 1.
  do 3 (qstep B F; [exfalso; exact (no_request_exit Xf Xt R)|]).
  match type of B with (if ?c then _ else _) _ _ = _ => destruct c end.
  { apply ret_step in B as [_ B]. exfalso. exact (no_request_exit F B R). }
  do 11 (qstep B F; [exfalso; exact (no_request_exit Xf Xt R)|]).
  (* the focal messaging stage *)
  match type of F with Forall _ ?e => rename e into pre end.
  unfold bind in B at 1.
  match type of B with
  | match ?m with _ => _ end = _ => destruct m as [[cm|e] tC] eqn:E
  end; apply server_extractMessaging_run in E;
    destruct E as [[e' [E1 E2]] | [rq [S [E1 E2]]]]; try discriminate E1.
  - (* a value: the request was made *)
    subst tC.
    assert (Em : exists more, tr = pre ++ Asked rq :: more).
    { match type of B with
      | ?m h ?t = _ =>
          assert (Em : emits anything m) by (unfold anything; emits_auto)
      end.
      destruct (emits_run Em B) as [more [-> _]]. exists more.
      simpl. now rewrite <- app_assoc. }
    destruct Em as [more Em].
    destruct (first_is_messaging F Em R) as [-> ->].
    simpl in E2. rewrite C in E2. destruct E2 as [v [Ev Nv]].
    injection Ev as ->. rewrite (Nv N) in B. clear Nv.
    simpl app in B. rewrite <- (app_nil_r (pre ++ [Asked rq])) in B.
    assert (G : Forall calm (@nil event)) by constructor.
    do 4 (qstep B G; [split; [intros r Hr; rewrite Xr in Hr; discriminate Hr|];
                      split; [rewrite Xt; now apply calm_after | exact S]|]).
    cbv zeta in B. cbn [negb Js.truthy] in B. cbv iota in B.
    apply ret_step in B as [-> B]. split; [now intros r [= <-]|].
    split; [rewrite B; now apply calm_after | exact S].
  - (* thrown before the request *)
    injection B as <- <-. exfalso. exact (no_request_exit F E2 R).
  - (* thrown by the request *)
    injection B as <- <-. simpl in E1.
    destruct (first_is_messaging F E1 R) as [-> ->].
    split; [discriminate|]. split; [|exact S].
    rewrite E1.
    replace (pre ++ [Asked rq]) with ((pre ++ [Asked rq]) ++ []) by apply app_nil_r.
    apply calm_after; auto.
Qed.

Lemma calm_except e : calm e -> except is_comparator e.
Proof. destruct e; simpl; auto. destruct (req_stage req); simpl; auto. Qed.

Lemma calm_no_takeaways e :
  calm e -> only (fun s => negb (stage_eqb Takeaways s)) e.
Proof. destruct e; simpl; auto. destruct (req_stage req); simpl; auto. Qed.

Lemma no_comparator_exit {evs tr f} :
  Forall calm evs -> tr = [] ++ evs -> find_request is_comparator tr = Some f -> False.
Proof.
  intros F. apply no_request_exit. eapply Forall_impl; [apply calm_except | exact F].
Qed.

Lemma the_comparator {pre rq more tr t1 req} :
  Forall calm pre -> req_stage rq = Comparator ->
  tr = pre ++ Asked rq :: more ->
  find_request is_comparator tr = Some (t1, req) ->
  t1 = pre /\ req = rq.
Proof.
  intros F S -> R.
  rewrite (@find_request_first is_comparator pre rq more) in R.
  - now injection R as <- <-.
  - eapply Forall_impl; [apply calm_except | exact F].
  - now rewrite S.
Qed.

Lemma find_request_stage p t f :
  find_request p t = Some f -> p (req_stage (snd f)) = true.
Proof.
  revert f; induction t as [|e t IH]; intros f; simpl; [discriminate|].
  destruct e; try (destruct (find_request p t); simpl; [|discriminate];
                   intros [= <-]; simpl; now apply IH).
  destruct (p (req_stage req)) eqn:S.
  - intros [= <-]. exact S.
  - destruct (find_request p t); simpl; [|discriminate].
    intros [= <-]. simpl. now apply IH.
Qed.

Lemma ask_step {A} {rq} {f : list block -> M A} {h t r t'} :
  bind (ask rq) f h t = (r, t') ->
  match messages_create h t rq with
  | Ok content => f content h (t ++ [Asked rq]) = (r, t')
  | Throw e => r = Throw e /\ t' = t ++ [Asked rq]
  end.
Proof.
  unfold bind, ask. destruct (messages_create h t rq); [auto|].
  intros H. now injection H as <- <-.
Qed.

(** C2, as the code has it: on the server. When the reply to the
    Comparator request holds no parseable JSON object, the handler answers
    500 with the error [Could not compare brands] instead of a report; the
    Comparator request is the last event of the run, so no Takeaway
    request follows. *)
Theorem server_null_comparison_is_fatal (req_body : value) (h : host)
    (resp : response) (tr t1 : trace) (req : request) (content : list block) :
  Server.audit req_body h [] = (Ok resp, tr) ->
  find_request is_comparator tr = Some (t1, req) ->
  messages_create h t1 req = Ok content ->
  no_json h content ->
  resp = Response 500 (error_object "Could not compare brands") /\
  tr = t1 ++ [Asked req] /\
  asked Takeaways tr = false.
Proof.
  intros H R C N.
  unfold Server.audit, caught, try_catch in H.
  match type of H with
  | match ?b h [] with _ => _ end = _ =>
      destruct (b h []) as [res tr0] eqn:B
  end.
  assert (K : res = Ok compare_failed /\ tr0 = t1 ++ [Asked req] /\ Forall calm t1).
  2:{ destruct K as [-> [-> K]]. injection H as <- <-.
      split; [reflexivity|]. split; [reflexivity|].
      apply only_not_asked with (allowed := fun s => negb (stage_eqb Takeaways s));
        [|reflexivity].
      apply Forall_app. split.
      - eapply Forall_impl; [apply calm_no_takeaways | exact K].
      - constructor; [|constructor]. simpl.
        pose proof (find_request_stage _ _ R) as S. simpl in S.
        unfold is_comparator in S. destruct (req_stage req); try discriminate S. reflexivity. }
  assert (T : tr0 = tr) by (destruct res; now injection H).
  clear H. subst tr0.
  assert (F : Forall calm (@nil event)) by constructor.
  change (@nil event) with (@nil event ++ @nil event) in B at 1.
  do 3 (qstep B F; [exfalso; exact (no_comparator_exit Xf Xt R)|]).
  match type of B with (if ?c then _ else _) _ _ = _ => destruct c end.
  { apply ret_step in B as [_ B]. exfalso. exact (no_comparator_exit F B R). }
  do 16 (qstep B F; [exfalso; exact (no_comparator_exit Xf Xt R)|]).
  cbv zeta in B.
  match type of B with (if ?c then _ else _) _ _ = _ => destruct c end.
  { apply ret_step in B as [_ B]. exfalso. exact (no_comparator_exit F B R). }
  do 5 (qstep B F; [exfalso; exact (no_comparator_exit Xf Xt R)|]).
  cbv zeta in B.
  qstep B F; [exfalso; exact (no_comparator_exit Xf Xt R)|].
  match type of F with Forall _ ?e => rename e into pre end.
  apply ask_step in B. simpl app in B.
  match type of B with
  | match messages_create h pre ?q with _ => _ end => set (rq := q) in *
  end.
  destruct (messages_create h pre rq) as [content0|e] eqn:MC.
  - assert (Em : exists more, tr = pre ++ Asked rq :: more).
    { match type of B with
      | ?m h ?t = _ =>
          assert (Em : emits anything m) by (unfold anything; emits_auto)
      end.
      destruct (emits_run Em B) as [more [-> _]]. exists more.
      now rewrite <- app_assoc. }
    destruct Em as [more Em].
    destruct (@the_comparator pre rq more tr t1 req F eq_refl Em R) as [-> ->].
    rewrite C in MC. injection MC as <-.
    unfold bind in B at 1.
    destruct (last_json_guarded_run VNull content h (pre ++ [Asked rq]))
      as [v [E Nv]].
    rewrite E, (Nv N) in B. cbn [negb Js.truthy] in B. cbv iota in B.
    apply ret_step in B as [-> ->]. now split.
  - destruct B as [-> ->].
    destruct (@the_comparator pre rq [] _ t1 req F eq_refl eq_refl R) as [-> ->].
    rewrite C in MC. discriminate MC.
Qed.

(** ** The chart *)

Lemma bind_ok {A B} {m : M A} {f : A -> M B} {h t y t'} :
  bind m f h t = (Ok y, t') ->
  exists a t1, m h t = (Ok a, t1) /\ f a h t1 = (Ok y, t').
Proof.
  unfold bind. destruct (m h t) as [[a|e] t1]; [|discriminate].
  intros H. now exists a, t1.
Qed.

Lemma lift_ok {A} {r : result A} {h t a t'} : lift r h t = (Ok a, t') -> r = Ok a.
Proof. unfold lift. now intros [= -> _]. Qed.

Lemma ret_ok {A} {a b : A} {h t t'} : ret a h t = (Ok b, t') -> b = a.
Proof. unfold ret. now intros [= -> _]. Qed.

Ltac vstep H :=
  let a := fresh "a" in
  let t1 := fresh "t" in
  let E := fresh "E" in
  apply bind_ok in H; destruct H as [a [t1 [E H]]]; cbv beta in H.

Lemma mapM_map {A B C} (f : A -> M B) (g : B -> C) (g' : A -> C) :
  (forall x h t y t', f x h t = (Ok y, t') -> g y = g' x) ->
  forall xs h t ys t', mapM f xs h t = (Ok ys, t') -> map g ys = map g' xs.
Proof.
  intros G xs. induction xs as [|x xs IH]; intros h t ys t' H; simpl in H.
  - apply ret_ok in H. now subst.
  - vstep H. vstep H. apply ret_ok in H. subst. simpl. f_equal; eauto.
Qed.

Lemma mapM_length {A B} (f : A -> M B) xs h t ys t' :
  mapM f xs h t = (Ok ys, t') -> List.length ys = List.length xs.
Proof.
  intros H.
  pose proof (@mapM_map A B unit f (fun _ => tt) (fun _ => tt)
                (fun _ _ _ _ _ _ => eq_refl) xs h t ys t' H) as E.
  apply (f_equal (@List.length unit)) in E. now rewrite !length_map in E.
Qed.

Lemma get_opt_ok {v k x} : Js.get v k = Ok x -> Js.get_opt v k = x.
Proof. unfold Js.get_opt. now intros ->. Qed.

(** *** Promises *)

Lemma start_run {A} (m : M A) h t :
  start m h t = (Ok (fst (m h t)), snd (m h t)).
Proof.
  unfold start, try_catch, bind, ret. now destruct (m h t) as [[a|e] t1].
Qed.

Lemma start_ok {A} {m : M A} {h t p t'} :
  start m h t = (Ok p, t') -> m h t = (p, t').
Proof. rewrite start_run. intros [= <- <-]. now destruct (m h t). Qed.

Lemma await_ok {A} {p : promise A} {h t a t'} :
  await p h t = (Ok a, t') -> p = Ok a.
Proof. apply lift_ok. Qed.

Lemma Promise_all_ok {A} (ps : list (promise A)) l :
  Promise_all ps = Ok l -> ps = map Ok l.
Proof.
  revert l; induction ps as [|[a|e] ps IH]; intros l; simpl.
  - now intros [= <-].
  - destruct (Promise_all ps) as [l'|]; [|discriminate].
    intros [= <-]. simpl. f_equal. now apply IH.
  - discriminate.
Qed.

(** What every fulfilled promise of [xs.map(async f)] says of its element
    holds of the values of [Promise.all], in order. *)
Lemma started_Forall2 {A B} (f : A -> M B) (R : A -> B -> Prop) :
  (forall x h t y t', f x h t = (Ok y, t') -> R x y) ->
  forall xs h t ps t' ys,
    mapM (fun x => start (f x)) xs h t = (Ok ps, t') ->
    Promise_all ps = Ok ys -> Forall2 R xs ys.
Proof.
  intros G xs. induction xs as [|x xs IH]; intros h t ps t' ys H P; simpl in H.
  - apply ret_ok in H. subst. injection P as <-. constructor.
  - vstep H. vstep H. apply ret_ok in H. subst. simpl in P.
    destruct a as [y|e]; [|discriminate P].
    destruct (Promise_all a0) as [l|] eqn:Pl; [|discriminate P].
    injection P as <-. constructor.
    + apply start_ok in E. now apply G in E.
    + eapply IH; eassumption.
Qed.

Lemma Promise_all_length {A} (ps : list (promise A)) l :
  Promise_all ps = Ok l -> List.length l = List.length ps.
Proof. intros P. rewrite (Promise_all_ok _ P). now rewrite length_map. Qed.

Lemma started_map {A B C} (f : A -> M B) (g : B -> C) (g' : A -> C) :
  (forall x h t y t', f x h t = (Ok y, t') -> g y = g' x) ->
  forall xs h t ps t' ys,
    mapM (fun x => start (f x)) xs h t = (Ok ps, t') ->
    Promise_all ps = Ok ys -> map g ys = map g' xs.
Proof.
  intros G xs h t ps t' ys H P.
  pose proof (@started_Forall2 _ _ f (fun x y => g y = g' x) G _ _ _ _ _ _ H P) as F.
  clear H P. induction F as [|x y xs' ys' Hxy _ IH]; simpl; [reflexivity|].
  cbv beta in Hxy. now rewrite Hxy, IH.
Qed.

Lemma server_collect_name comp h t f t' :
  Server.collect comp h t = (Ok f, t') -> Server.f_name f = name_of comp.
Proof.
  unfold Server.collect. intros H. do 5 vstep H. apply ret_ok in H. subst.
  apply lift_ok in E. simpl. symmetry. exact (get_opt_ok E).
Qed.

Lemma server_structure_name f h t c t' :
  Server.structure f h t = (Ok c, t') ->
  Server.f_name (Server.c_fetch c) = Server.f_name f.
Proof.
  unfold Server.structure. intros H. vstep H. apply ret_ok in H. now subst.
Qed.

Lemma server_analyse_name c h t a t' :
  Server.analyse c h t = (Ok a, t') ->
  Server.a_name a = Server.f_name (Server.c_fetch c).
Proof.
  unfold Server.analyse. cbv zeta. intros H. do 6 vstep H.
  apply ret_ok in H. now subst.
Qed.

Lemma server_chartData_shape name inferred results h t chart t' :
  Server.chartData name inferred results h t = (Ok chart, t') ->
  exists positioning voice visual,
    chart = chart_of name (map Server.a_name results)
              [chart_row "Positioning" positioning;
               chart_row "Voice" voice;
               chart_row "Visual Style" visual] /\
    List.length positioning = S (List.length results) /\
    List.length voice = S (List.length results) /\
    List.length visual = S (List.length results).
Proof.
  unfold Server.chartData. intros H. do 6 vstep H. apply ret_ok in H. subst.
  eexists _, _, _. split; [reflexivity|]. simpl.
  now rewrite (@mapM_length _ _ _ _ _ _ _ _ E0), (@mapM_length _ _ _ _ _ _ _ _ E2),
    (@mapM_length _ _ _ _ _ _ _ _ E4).
Qed.

Lemma server_elements_array v h t l t' :
  Server.elements v h t = (Ok l, t') -> v = VArray l.
Proof. destruct v; try discriminate. now intros [= -> _]. Qed.

Lemma server_chart req_body h resp tr :
  Server.audit req_body h [] = (Ok resp, tr) ->
  statusCode resp = 200%nat ->
  exists comps report positioning voice visual,
    Js.get req_body (jss "competitors") = Ok (VArray comps) /\
    payload resp = Json (VObject report) /\
    Js.lookup (jss "chart") report =
      Some (chart_of (Js.get_opt req_body (jss "companyName"))
              (map name_of comps)
              [chart_row "Positioning" positioning;
               chart_row "Voice" voice;
               chart_row "Visual Style" visual]) /\
    List.length positioning = S (List.length comps) /\
    List.length voice = S (List.length comps) /\
    List.length visual = S (List.length comps).
Proof.
  intros H S200.
  unfold Server.audit, caught, try_catch in H.
  match type of H with
  | match ?b h [] with _ => _ end = _ =>
      destruct (b h []) as [[r0|e0] tr0] eqn:B
  end.
  2:{ injection H as <- _. discriminate S200. }
  injection H as -> ->.
  do 3 vstep B.
  match type of B with (if ?c then _ else _) _ _ = _ => destruct c end.
  { apply ret_ok in B. subst. discriminate S200. }
  do 16 vstep B. cbv zeta in B.
  match type of B with (if ?c then _ else _) _ _ = _ => destruct c end.
  { apply ret_ok in B. subst. discriminate S200. }
  do 5 vstep B. cbv zeta in B. do 3 vstep B.
  match type of B with (if ?c then _ else _) _ _ = _ => destruct c end.
  { apply ret_ok in B. subst. discriminate S200. }
  vstep B.
  match goal with
  | K : Server.chartData _ _ _ _ _ = _ |- _ =>
      destruct (@server_chartData_shape _ _ _ _ _ _ _ K)
        as [positioning [voice [visual [Ec [L1 [L2 L3]]]]]]
  end.
  do 10 vstep B. apply ret_ok in B. subst resp.
  repeat match goal with
         | K : lift _ _ _ = (Ok _, _) |- _ => apply lift_ok in K
         | K : await _ _ _ = (Ok _, _) |- _ => apply await_ok in K
         | K : Server.elements _ _ _ = _ |- _ =>
             apply server_elements_array in K
         end.
  match goal with
  | K1 : mapM Server.analyse ?data _ _ = (Ok ?results, _),
    K2 : mapM Server.structure ?fetched _ _ = (Ok ?data, _),
    K3 : mapM (fun comp => start (Server.collect comp)) ?comps _ _ = (Ok ?ps, _),
    K4 : Promise_all ?ps = Ok ?fetched |- _ =>
      assert (Names : map Server.a_name results = map name_of comps)
        by (rewrite (@mapM_map _ _ _ _ Server.a_name _ server_analyse_name
                       _ _ _ _ _ K1),
              (@mapM_map _ _ _ _ (fun c => Server.f_name (Server.c_fetch c)) _
                 server_structure_name _ _ _ _ _ K2);
            exact (@started_map _ _ _ _ Server.f_name _ server_collect_name
                     _ _ _ _ _ _ K3 K4));
      assert (Len : List.length results = List.length comps)
        by (rewrite <- (length_map Server.a_name), Names; apply length_map);
      exists comps
  end.
  eexists. exists positioning, voice, visual.
  match goal with
  | K : ?c = VArray _, G : Js.get req_body (jss "competitors") = Ok ?c |- _ =>
      rewrite K in G; split; [exact G|]
  end.
  split; [reflexivity|].
  rewrite <- Len. repeat split; try assumption.
  match goal with
  | K : Js.get req_body (jss "companyName") = Ok _ |- _ =>
      rewrite <- Names, (get_opt_ok K), <- Ec
  end.
  reflexivity.
Qed.

Lemma parse_body_ok event h t v t' :
  parse_body event h t = (Ok v, t') -> JSON_parse h (body_text event) = Some v.
Proof.
  unfold parse_body, parse, body_text.
  destruct (JSON_parse h _); [now intros [= -> _] | discriminate].
Qed.

Lemma audit_collect_name comp h t c t' :
  Audit.collect comp h t = (Ok c, t') -> Audit.c_name c = name_of comp.
Proof.
  unfold Audit.collect. intros H. do 3 vstep H. apply ret_ok in H. subst.
  apply lift_ok in E. simpl. symmetry. exact (get_opt_ok E).
Qed.

Lemma audit_analyse_name c h t a t' :
  Audit.analyse c h t = (Ok a, t') -> Audit.a_name a = Audit.c_name c.
Proof.
  unfold Audit.analyse. intros H. do 4 vstep H. apply ret_ok in H. now subst.
Qed.

Lemma audit_chartData_shape name messaging results h t chart t' :
  Audit.chartData name messaging results h t = (Ok chart, t') ->
  exists positioning voice,
    chart = chart_of name (map Audit.a_name results)
              [chart_row "Positioning" positioning; chart_row "Voice" voice] /\
    List.length positioning = S (List.length results) /\
    List.length voice = S (List.length results).
Proof.
  unfold Audit.chartData. intros H. do 2 vstep H. apply ret_ok in H. subst.
  eexists _, _. split; [reflexivity|]. simpl.
  now rewrite length_map, (@mapM_length _ _ _ _ _ _ _ _ E0).
Qed.

Lemma audit_elements_array v h t l t' :
  Audit.elements v h t = (Ok l, t') -> v = VArray l.
Proof. destruct v; try discriminate. now intros [= -> _]. Qed.

Lemma audit_chart event h resp tr :
  Audit.handler event h [] = (Ok resp, tr) ->
  statusCode resp = 200%nat ->
  exists parsed comps report positioning voice,
    JSON_parse h (body_text event) = Some parsed /\
    Js.get parsed (jss "competitors") = Ok (VArray comps) /\
    payload resp = Json (VObject report) /\
    Js.lookup (jss "chart") report =
      Some (chart_of (Js.get_opt parsed (jss "companyName"))
              (map name_of comps)
              [chart_row "Positioning" positioning; chart_row "Voice" voice]) /\
    List.length positioning = S (List.length comps) /\
    List.length voice = S (List.length comps).
Proof.
  intros H S200. unfold Audit.handler in H.
  destruct (negb (JsString.eqb (httpMethod event) post)).
  { apply ret_ok in H. subst. discriminate S200. }
  unfold caught, try_catch in H.
  match type of H with
  | match ?b h [] with _ => _ end = _ =>
      destruct (b h []) as [[r0|e0] tr0] eqn:B
  end.
  2:{ injection H as <- _. discriminate S200. }
  injection H as -> ->.
  do 4 vstep B.
  match type of B with (if ?c then _ else _) _ _ = _ => destruct c end.
  { apply ret_ok in B. subst. discriminate S200. }
  repeat first [vstep B | progress cbv zeta in B].
  apply ret_ok in B. subst resp.
  match goal with
  | K : Audit.chartData _ _ _ _ _ = _ |- _ =>
      destruct (@audit_chartData_shape _ _ _ _ _ _ _ K)
        as [positioning [voice [Ec [L1 L2]]]]
  end.
  match goal with
  | K : parse_body _ _ _ = _ |- _ => apply parse_body_ok in K; rename K into P
  end.
  repeat match goal with
         | K : lift _ _ _ = (Ok _, _) |- _ => apply lift_ok in K
         | K : await _ _ _ = (Ok _, _) |- _ => apply await_ok in K
         | K : Audit.elements _ _ _ = _ |- _ => apply audit_elements_array in K
         end.
  match goal with
  | K1 : mapM Audit.analyse ?data _ _ = (Ok ?results, _),
    K2 : mapM (fun comp => start (Audit.collect comp)) ?comps _ _ = (Ok ?ps, _),
    K3 : Promise_all ?ps = Ok ?data |- _ =>
      assert (Names : map Audit.a_name results = map name_of comps)
        by (rewrite (@mapM_map _ _ _ _ Audit.a_name _ audit_analyse_name
                       _ _ _ _ _ K1);
            exact (@started_map _ _ _ _ Audit.c_name _ audit_collect_name
                     _ _ _ _ _ _ K2 K3));
      assert (Len : List.length results = List.length comps)
        by (rewrite <- (length_map Audit.a_name), Names; apply length_map);
      exists a, comps
  end.
  eexists. exists positioning, voice.
  split; [exact P|]. subst. split; [eassumption|]. split; [reflexivity|].
  rewrite <- Len. repeat split; try assumption.
  rewrite <- Names, (get_opt_ok E1). reflexivity.
Qed.

(** ** Concrete runs *)

Lemma refusal_no_json (h : host) : no_json h Double.refusal.
Proof.
  intros text span [E | []] J. injection E as <-.
  vm_compute in J. discriminate J.
Qed.

(** The model refuses: the server stops after the focal company. *)
Lemma server_null_messaging_is_fatal_witness :
  Server.audit Double.audit_payload Double.refusing []
    = (Ok (Response 500 (error_object "Could not analyze your website")),
       Double.server_refused_trace) /\
  first_request Double.server_refused_trace
    = Some (Double.server_collection, Double.messaging_request) /\
  messages_create Double.refusing Double.server_collection
    Double.messaging_request = Ok Double.refusal /\
  asked Comparator Double.server_refused_trace = false /\
  asked Takeaways Double.server_refused_trace = false.
Proof.
  assert (H : Server.audit Double.audit_payload Double.refusing []
              = (Ok (Response 500 (error_object "Could not analyze your website")),
                 Double.server_refused_trace)) by (vm_compute; reflexivity).
  assert (R : first_request Double.server_refused_trace
              = Some (Double.server_collection, Double.messaging_request))
    by (vm_compute; reflexivity).
  assert (C : messages_create Double.refusing Double.server_collection
                Double.messaging_request = Ok Double.refusal) by reflexivity.
  split; [exact H|]. split; [exact R|]. split; [exact C|].
  exact (proj2 (proj2 (proj2
           (@server_null_messaging_is_fatal _ _ _ _ _ _ _ H R C
              (refusal_no_json _))))).
Defined.

(** C1 fails in the Netlify audit: the model refuses the focal messaging
    request (its reply has no brace at all), and the function still asks
    the Comparator and the Takeaway stage and answers 200. *)
Lemma netlify_null_messaging_not_fatal :
  first_request (snd Double.netlify_refused)
    = Some (Double.netlify_collection, Double.messaging_request) /\
  messages_create Double.refusing Double.netlify_collection
    Double.messaging_request = Ok Double.refusal /\
  Suggest.first_span Double.refusal = None /\
  (exists report,
     fst Double.netlify_refused = Ok (Response 200 (Json report))) /\
  asked Comparator (snd Double.netlify_refused) = true /\
  asked Takeaways (snd Double.netlify_refused) = true.
Proof.
  split; [vm_compute; reflexivity|]. split; [reflexivity|].
  split; [vm_compute; reflexivity|]. split; [|split; vm_compute; reflexivity].
  let r := eval vm_compute in (fst Double.netlify_refused) in
  lazymatch r with
  | Ok (Response _ (Json ?v)) => exists v
  end.
  vm_compute. reflexivity.
Qed.

(** The model answers the messaging stages and refuses the Comparator:
    the server reports the failure and stops. *)
Lemma server_null_comparison_is_fatal_witness :
  exists resp tr t1 req,
    Server.audit Double.audit_payload Double.messaging_only [] = (Ok resp, tr) /\
    find_request is_comparator tr = Some (t1, req) /\
    messages_create Double.messaging_only t1 req = Ok Double.refusal /\
    resp = Response 500 (error_object "Could not compare brands") /\
    tr = t1 ++ [Asked req] /\
    asked Takeaways tr = false.
Proof.
  let r := eval vm_compute in
             (Server.audit Double.audit_payload Double.messaging_only []) in
  lazymatch r with
  | (Ok ?resp, ?tr) =>
      let f := eval vm_compute in (find_request is_comparator tr) in
      lazymatch f with
      | Some (?t1, ?req) =>
          exists resp, tr, t1, req;
          assert (H : Server.audit Double.audit_payload Double.messaging_only []
                      = (Ok resp, tr)) by (vm_compute; reflexivity);
          assert (R : find_request is_comparator tr = Some (t1, req))
            by (vm_compute; reflexivity);
          assert (C : messages_create Double.messaging_only t1 req
                      = Ok Double.refusal) by reflexivity;
          split; [exact H|]; split; [exact R|]; split; [exact C|];
          exact (@server_null_comparison_is_fatal _ _ _ _ _ _ _ H R C
                   (refusal_no_json _))
      end
  end.
Defined.

(** C2 fails in the Netlify audit: the Comparator's reply has no JSON
    and the function answers 200 with the default score, after asking the
    Takeaway stage. *)
Lemma netlify_null_comparison_not_fatal :
  exists t1 req report,
    find_request is_comparator (snd Double.netlify_refused) = Some (t1, req) /\
    messages_create Double.refusing t1 req = Ok Double.refusal /\
    Suggest.first_span Double.refusal = None /\
    fst Double.netlify_refused = Ok (Response 200 (Json (VObject report))) /\
    Js.lookup (jss "score") report = Some (VNumber Audit.fifty) /\
    asked Takeaways (snd Double.netlify_refused) = true.
Proof.
  let f := eval vm_compute in
             (find_request is_comparator (snd Double.netlify_refused)) in
  lazymatch f with
  | Some (?t1, ?req) => exists t1, req
  end.
  let r := eval vm_compute in (fst Double.netlify_refused) in
  lazymatch r with
  | Ok (Response _ (Json (VObject ?o))) => exists o
  end.
  repeat split; vm_compute; reflexivity.
Qed.

(** C9, as the code has it. In the report of every successful audit the
    chart's columns are the label [Category], the focal brand name and the
    competitors' names in the order of the request. The server's chart
    has exactly the three rows Positioning, Voice and Visual Style; the
    chart of the Netlify audit has exactly the two rows Positioning and
    Voice. Every row holds one value per brand. *)
Theorem chart_columns_and_rows :
  (forall (req_body : value) (h : host) (resp : response) (tr : trace),
     Server.audit req_body h [] = (Ok resp, tr) ->
     statusCode resp = 200%nat ->
     exists comps report positioning voice visual,
       Js.get req_body (jss "competitors") = Ok (VArray comps) /\
       payload resp = Json (VObject report) /\
       Js.lookup (jss "chart") report =
         Some (chart_of (Js.get_opt req_body (jss "companyName"))
                 (map name_of comps)
                 [chart_row "Positioning" positioning;
                  chart_row "Voice" voice;
                  chart_row "Visual Style" visual]) /\
       List.length positioning = S (List.length comps) /\
       List.length voice = S (List.length comps) /\
       List.length visual = S (List.length comps))
  /\
  (forall (event : lambda_event) (h : host) (resp : response) (tr : trace),
     Audit.handler event h [] = (Ok resp, tr) ->
     statusCode resp = 200%nat ->
     exists parsed comps report positioning voice,
       JSON_parse h (body_text event) = Some parsed /\
       Js.get parsed (jss "competitors") = Ok (VArray comps) /\
       payload resp = Json (VObject report) /\
       Js.lookup (jss "chart") report =
         Some (chart_of (Js.get_opt parsed (jss "companyName"))
                 (map name_of comps)
                 [chart_row "Positioning" positioning;
                  chart_row "Voice" voice]) /\
       List.length positioning = S (List.length comps) /\
       List.length voice = S (List.length comps)).
Proof.
  split.
  - intros req_body h resp tr. apply server_chart.
  - intros event h resp tr. apply audit_chart.
Qed.

(** A successful audit of Acme against Bolt, on the server and on
    Netlify. *)
Lemma chart_columns_and_rows_witness :
  (exists resp tr report positioning voice visual,
     Server.audit Double.audit_payload Double.cooperative [] = (Ok resp, tr) /\
     statusCode resp = 200%nat /\
     payload resp = Json (VObject report) /\
     Js.lookup (jss "chart") report =
       Some (chart_of Double.acme [Double.bolt]
               [chart_row "Positioning" positioning;
                chart_row "Voice" voice;
                chart_row "Visual Style" visual]))
  /\
  (exists resp tr report positioning voice,
     Audit.handler Double.audit_event Double.cooperative [] = (Ok resp, tr) /\
     statusCode resp = 200%nat /\
     payload resp = Json (VObject report) /\
     Js.lookup (jss "chart") report =
       Some (chart_of Double.acme [Double.bolt]
               [chart_row "Positioning" positioning;
                chart_row "Voice" voice])).
Proof.
  split.
  - let r := eval vm_compute in
               (Server.audit Double.audit_payload Double.cooperative []) in
    lazymatch r with
    | (Ok ?resp, ?tr) =>
        assert (H : Server.audit Double.audit_payload Double.cooperative []
                    = (Ok resp, tr)) by (vm_compute; reflexivity);
        assert (S : statusCode resp = 200%nat) by reflexivity;
        destruct (proj1 chart_columns_and_rows _ _ _ _ H S)
          as [comps [report [p [v [s [G [P [L _]]]]]]]];
        exists resp, tr, report, p, v, s
    end.
    split; [exact H|]. split; [exact S|]. split; [exact P|].
    injection G as <-. exact L.
  - let r := eval vm_compute in
               (Audit.handler Double.audit_event Double.cooperative []) in
    lazymatch r with
    | (Ok ?resp, ?tr) =>
        assert (H : Audit.handler Double.audit_event Double.cooperative []
                    = (Ok resp, tr)) by (vm_compute; reflexivity);
        assert (S : statusCode resp = 200%nat) by reflexivity;
        destruct (proj2 chart_columns_and_rows _ _ _ _ H S)
          as [parsed [comps [report [p [v [J [G [P [L _]]]]]]]]];
        exists resp, tr, report, p, v
    end.
    split; [exact H|]. split; [exact S|]. split; [exact P|].
    vm_compute in J. injection J as <-. injection G as <-. exact L.
Defined.

(** C9 fails in the Netlify audit: the chart of a successful audit has
    the rows Positioning and Voice and no Visual Style row. *)
Lemma netlify_chart_has_two_rows :
  exists report,
    fst Double.netlify_answered = Ok (Response 200 (Json (VObject report))) /\
    Js.lookup (jss "chart") report =
      Some (chart_of Double.acme [Double.bolt]
              [chart_row "Positioning" [Double.rockets; Double.rockets];
               chart_row "Voice" [Double.dash; Double.dash]]).
Proof.
  let r := eval vm_compute in (fst Double.netlify_answered) in
  lazymatch r with
  | Ok (Response _ (Json (VObject ?o))) => exists o
  end.
  split; vm_compute; reflexivity.
Qed.

(** * Further properties of the code *)

(** ** Pacing *)

Lemma paced_app a e1 e2 :
  paced_from a (e1 ++ e2) = paced_from a e1 && paced_from (rested_after a e1) e2.
Proof.
  revert a; induction e1 as [|e e1 IH]; intros a; simpl; [reflexivity|].
  destruct e; rewrite ?IH; try reflexivity. now rewrite andb_assoc.
Qed.

Lemma rested_app a e1 e2 :
  rested_after a (e1 ++ e2) = rested_after (rested_after a e1) e2.
Proof.
  revert a; induction e1 as [|e e1 IH]; intros a; simpl; [reflexivity|].
  destruct e; now rewrite ?IH.
Qed.

Lemma pace_mono e a :
  (paced_from a e = true -> paced_from true e = true) /\
  (rested_after a e = true -> rested_after true e = true).
Proof.
  revert a; induction e as [|x e IH]; intros a; simpl.
  - auto.
  - destruct x; try apply IH.
    split; [|auto]. intros H. apply andb_true_iff in H. simpl. tauto.
Qed.

Lemma paced_mono e a b :
  (a = true -> b = true) -> paced_from a e = true -> paced_from b e = true.
Proof.
  intros L. destruct a, b; auto.
  - now specialize (L eq_refl).
  - apply pace_mono.
Qed.

Lemma rested_mono e a b :
  (a = true -> b = true) -> rested_after a e = true -> rested_after b e = true.
Proof.
  intros L. destruct a, b; auto.
  - now specialize (L eq_refl).
  - apply pace_mono.
Qed.

Lemma quiet_pace e a :
  Forall quiet e -> paced_from a e = true /\ (a = true -> rested_after a e = true).
Proof.
  intros F. revert a. induction F as [|x e Hx _ IH]; intros a; simpl.
  - auto.
  - destruct x; try apply IH.
    + discriminate Hx.
    + destruct (IH (a || Nat.leb 500 ms)%bool) as [P R]. split; [exact P|].
      intros ->. now apply R.
Qed.

Lemma run_spec_bind {A B} H I1 Q1 (I : list event -> Prop)
    (Q : list event -> B -> Prop) (m : M A) (f : A -> M B) :
  run_spec H I1 Q1 m ->
  (forall e1, I1 e1 -> I e1) ->
  (forall a e1, I1 e1 -> Q1 e1 a ->
     run_spec H (fun e2 => I (e1 ++ e2)) (fun e2 b => Q (e1 ++ e2) b) (f a)) ->
  run_spec H I Q (bind m f).
Proof.
  intros Hm Hi Hf h t r t' Hh R. unfold bind in R.
  destruct (m h t) as [[a|e] t1] eqn:E;
    destruct (Hm h t _ _ Hh E) as [e1 [-> [I1e Q1e]]].
  - destruct (Hf a e1 I1e (Q1e a eq_refl) h _ _ _ Hh R) as [e2 [-> [I2 Q2]]].
    exists (e1 ++ e2). rewrite app_assoc. auto.
  - injection R as <- <-. exists e1. split; [reflexivity|]. split; [auto|].
    intros a Ha. discriminate Ha.
Qed.

Lemma run_spec_weaken {A} (H H' : host -> Prop) (I I' : list event -> Prop)
    (Q Q' : list event -> A -> Prop) (m : M A) :
  run_spec H I Q m ->
  (forall h, H' h -> H h) ->
  (forall e, I e -> I' e) -> (forall e a, I e -> Q e a -> Q' e a) ->
  run_spec H' I' Q' m.
Proof.
  intros Hm Hh Hi Hq h t r t' H0 R.
  destruct (Hm h t r t' (Hh _ H0) R) as [evs [E [Ie Qe]]].
  exists evs. split; [exact E|]. split; [auto|]. intros a Ha. apply Hq; auto.
Qed.

Lemma run_spec_emits {A} H (P : event -> Prop) (m : M A) :
  emits P m -> run_spec H (Forall P) (fun _ _ => True) m.
Proof.
  intros E h t r t' _ R. destruct (emits_run E R) as [evs [-> F]].
  exists evs. auto.
Qed.

Lemma steps_bind {A B} a b c (m : M A) (f : A -> M B) :
  steps a b m -> (forall x, steps b c (f x)) -> steps a c (bind m f).
Proof.
  intros Hm Hf. unfold steps in *.
  eapply run_spec_bind; [exact Hm | auto |].
  intros x e1 P1 R1. cbv beta in *.
  eapply run_spec_weaken; [apply (Hf x) | auto | |]; cbv beta.
  - intros e2 P2. rewrite paced_app, P1. simpl.
    eapply paced_mono; [|exact P2]. exact R1.
  - intros e2 _ P2 R2 C. rewrite rested_app.
    eapply rested_mono; [|exact (R2 C)]. exact R1.
Qed.

Lemma steps_weaken {A} a b a' b' (m : M A) :
  steps a b m -> (a = true -> a' = true) -> (b' = true -> b = true) ->
  steps a' b' m.
Proof.
  intros Hm La Lb. unfold steps in *.
  eapply run_spec_weaken; [exact Hm | auto | |]; cbv beta.
  - intros e. now apply paced_mono.
  - intros e _ _ R C. eapply rested_mono; [exact La|]. auto.
Qed.

Lemma steps_quiet {A} a (m : M A) : emits quiet m -> steps a a m.
Proof.
  intros E. unfold steps.
  eapply run_spec_weaken; [apply (run_spec_emits any_host E) | auto | |]; cbv beta.
  - intros e F. now apply quiet_pace.
  - intros e _ F _. now apply quiet_pace.
Qed.

Lemma steps_ret {A} a b (x : A) : (b = true -> a = true) -> steps a b (ret x).
Proof.
  intros L. eapply steps_weaken; [apply (@steps_quiet _ a), emits_ret | auto | auto].
Qed.

Lemma steps_sleep a ms : Nat.leb 500 ms = true -> steps a true (sleep ms).
Proof.
  intros L h t r t' _ R. injection R as <- <-. exists [Waited ms].
  cbn [paced_from rested_after]. rewrite L, orb_true_r. auto.
Qed.

Lemma steps_ask req : steps true false (ask req).
Proof.
  intros h t r t' _ R. injection R as <- <-. exists [Asked req].
  simpl. split; [reflexivity|]. split; [reflexivity | discriminate].
Qed.

Lemma steps_mapM {A B} a (f : A -> M B) xs :
  (forall x, steps a a (f x)) -> steps a a (mapM f xs).
Proof.
  intros Hf. induction xs as [|x xs IH]; simpl.
  - now apply steps_ret.
  - eapply steps_bind; [apply Hf|]. intros y.
    eapply steps_bind; [apply IH|]. intros ys. now apply steps_ret.
Qed.

Lemma steps_caught a (m : M response) : steps a false m -> steps a false (caught m).
Proof.
  intros Hm h t r t' Hh R. unfold caught, try_catch in R.
  destruct (m h t) as [[x|e] t1] eqn:E;
    destruct (Hm h t _ _ Hh E) as [evs [-> [P _]]]; injection R as <- <-;
    exists evs; (split; [reflexivity|]); (split; [exact P|]); discriminate.
Qed.

Lemma steps_run {A} (m : M A) h :
  steps true false m -> paced (snd (m h [])) = true.
Proof.
  intros Hm. destruct (m h []) as [r t'] eqn:E.
  destruct (Hm h [] r t' I E) as [evs [-> [P _]]]. exact P.
Qed.

(** Leaves of a pacing proof. *)
Ltac steps_quietly :=
  apply steps_quiet; solve [unfold quiet; emits_auto].

(** A computation that asks once, after computations that ask nothing. *)
Ltac steps_stage :=
  repeat lazymatch goal with
  | |- steps true _ (bind (ask _) _) =>
      apply steps_bind with (b := false); [apply steps_ask | intros]
  | |- steps ?a _ (bind _ _) =>
      apply steps_bind with (b := a); [steps_quietly | intros]
  | |- steps _ false (match ?x with _ => _ end) => destruct x
  | |- steps _ false _ => apply steps_weaken with (a := false) (b := false);
                          [steps_quietly | discriminate | discriminate]
  end.

Lemma steps_server_extractMessaging name s :
  steps true false (Server.extractMessaging name s).
Proof. unfold Server.extractMessaging. steps_stage. Qed.

Lemma steps_server_analyzeFirstImpressions name mt md ws gs :
  steps true false (Server.analyzeFirstImpressions name mt md ws gs).
Proof. unfold Server.analyzeFirstImpressions. steps_stage. Qed.

Lemma steps_server_extractVisuals name shot :
  steps true false (Server.extractVisuals name shot).
Proof. unfold Server.extractVisuals. steps_stage. Qed.

Lemma steps_server_generateTakeaways name data comps cmp :
  steps true false (Server.generateTakeaways name data comps cmp).
Proof. unfold Server.generateTakeaways. steps_stage. Qed.

Lemma steps_audit_extractMessaging name s :
  steps true false (Audit.extractMessaging name s).
Proof. unfold Audit.extractMessaging. steps_stage. Qed.

Lemma steps_audit_analyzeFirstImpressions name mt md h1 :
  steps true false (Audit.analyzeFirstImpressions name mt md h1).
Proof. unfold Audit.analyzeFirstImpressions. steps_stage. Qed.

Lemma steps_audit_generateTakeaways name data comps cmp :
  steps true false (Audit.generateTakeaways name data comps cmp).
Proof. unfold Audit.generateTakeaways. steps_stage. Qed.

Create HintDb pacing.
#[export] Hint Resolve steps_server_extractMessaging
  steps_server_analyzeFirstImpressions steps_server_extractVisuals
  steps_server_generateTakeaways steps_audit_extractMessaging
  steps_audit_analyzeFirstImpressions steps_audit_generateTakeaways
  steps_ask : pacing.

(** One step of a pacing proof for a handler: a wait, a computation that
    asks nothing, or a stage that asks once. *)
Ltac steps_step :=
  lazymatch goal with
  | |- steps _ _ (bind (sleep _) _) =>
      apply steps_bind with (b := true);
      [apply steps_sleep; reflexivity | intros]
  | |- steps ?a _ (bind ?m _) =>
      first
        [ apply steps_bind with (b := a); [steps_quietly | intros]
        | apply steps_bind with (b := false);
          [solve [auto with pacing] | intros] ]
  | |- steps _ false (if ?c then _ else _) => destruct c
  | |- steps _ false (match ?x with _ => _ end) => destruct x
  | |- steps _ _ (let _ := _ in _) => cbv zeta
  | |- steps _ false (ret _) => apply steps_ret; discriminate
  | |- steps _ false (caught _) => apply steps_caught
  end.

Lemma steps_server_analyse c : steps false false (Server.analyse c).
Proof. unfold Server.analyse. cbv zeta. repeat steps_step. Qed.

Lemma steps_audit_analyse c : steps false false (Audit.analyse c).
Proof. unfold Audit.analyse. repeat steps_step. Qed.

Lemma steps_server_analyses cs a : steps a false (mapM Server.analyse cs).
Proof.
  apply steps_weaken with (a := false) (b := false); [|discriminate|auto].
  apply steps_mapM. intros. apply steps_server_analyse.
Qed.

Lemma steps_audit_analyses cs a : steps a false (mapM Audit.analyse cs).
Proof.
  apply steps_weaken with (a := false) (b := false); [|discriminate|auto].
  apply steps_mapM. intros. apply steps_audit_analyse.
Qed.

#[export] Hint Resolve steps_server_analyses steps_audit_analyses : pacing.

Lemma steps_server_audit body : steps true false (Server.audit body).
Proof. unfold Server.audit. repeat steps_step. Qed.

Lemma steps_audit_handler event : steps true false (Audit.handler event).
Proof. unfold Audit.handler. repeat steps_step. Qed.

(** X1. Both audits pace their requests to the model: in every run, on every
    host and for every request body, a request to the model is made only
    after a wait of at least 500 ms since the request before it. *)
Theorem audits_pace_their_requests :
  (forall (req_body : value) (h : host),
     paced (snd (Server.audit req_body h [])) = true) /\
  (forall (event : lambda_event) (h : host),
     paced (snd (Audit.handler event h [])) = true).
Proof.
  split; intros; apply steps_run.
  - apply steps_server_audit.
  - apply steps_audit_handler.
Qed.

(** ** Costs *)

Lemma count_app p e1 e2 :
  count_events p (e1 ++ e2) = (count_events p e1 + count_events p e2)%nat.
Proof. unfold count_events. now rewrite filter_app, length_app. Qed.

Lemma count_free p evs : Forall (free p) evs -> count_events p evs = 0%nat.
Proof.
  unfold count_events. induction 1 as [|e evs He _ IH]; simpl; [reflexivity|].
  now rewrite He.
Qed.

Lemma costs_bind {A B} H p n1 n Q1 Q (m : M A) (f : A -> M B) :
  costs H p n1 Q1 m ->
  (forall a, Q1 a -> costs H p (n - n1) Q (f a)) ->
  (n1 <= n)%nat ->
  costs H p n Q (bind m f).
Proof.
  intros Hm Hf L. unfold costs in *.
  eapply run_spec_bind; [exact Hm | cbv beta; intros; lia |].
  intros a e1 C1 Qa. cbv beta in *.
  eapply run_spec_weaken; [apply (Hf a Qa) | auto | |]; cbv beta.
  - intros e2 C2. rewrite count_app. lia.
  - auto.
Qed.

Lemma costs_weaken {A} H p n n' (Q Q' : A -> Prop) (m : M A) :
  costs H p n Q m -> (n <= n')%nat -> (forall a, Q a -> Q' a) -> costs H p n' Q' m.
Proof.
  intros Hm L Hq. unfold costs in *.
  eapply run_spec_weaken; [exact Hm | auto | |]; cbv beta; [intros; lia | auto].
Qed.

Lemma costs_free {A} H p (m : M A) : emits (free p) m -> costs H p 0 anyhow m.
Proof.
  intros E. unfold costs.
  eapply run_spec_weaken; [apply (run_spec_emits H E) | auto | |]; cbv beta.
  - intros e F. now rewrite (count_free F).
  - now intros.
Qed.

Lemma costs_value {A} H p (Q : A -> Prop) (m : M A) :
  emits (free p) m ->
  (forall h t a t', H h -> m h t = (Ok a, t') -> Q a) ->
  costs H p 0 Q m.
Proof.
  intros E V h t r t' Hh R. destruct (emits_run E R) as [evs [-> F]].
  exists evs. split; [reflexivity|]. split; [now rewrite (count_free F)|].
  intros a ->. eapply V; eassumption.
Qed.

Lemma costs_ret {A} H p n (Q : A -> Prop) (a : A) : Q a -> costs H p n Q (ret a).
Proof.
  intros Qa h t r t' _ R. injection R as <- <-. exists []. rewrite app_nil_r.
  split; [reflexivity|]. split; [apply Nat.le_0_l|]. now intros ? [= <-].
Qed.

Lemma costs_lift {A} H p (r : result A) : costs H p 0 (fun a => r = Ok a) (lift r).
Proof.
  apply costs_value; [now apply emits_nothing|].
  intros h t a t' _ E. now injection E.
Qed.

Lemma costs_mapM {A B} H p k (Q : B -> Prop) (f : A -> M B) xs :
  (forall x, costs H p k Q (f x)) ->
  costs H p (k * List.length xs)
    (fun ys => List.length ys = List.length xs /\ Forall Q ys) (mapM f xs).
Proof.
  intros Hf. induction xs as [|x xs IH]; simpl.
  - apply costs_ret. auto.
  - eapply costs_bind; [apply Hf| |lia]. intros y Qy.
    eapply costs_bind; [apply IH| |lia]. intros ys [L Qys].
    apply costs_ret. simpl. auto.
Qed.

Lemma costs_start {A} H p n Q (m : M A) :
  costs H p n Q m -> costs H p n anyhow (start m).
Proof.
  intros Hm h t r t' Hh R. rewrite start_run in R. injection R as <- <-.
  destruct (m h t) as [r1 t1] eqn:E.
  destruct (Hm h t _ _ Hh E) as [evs [-> [P _]]].
  exists evs. split; [reflexivity|]. split; [exact P|]. now intros.
Qed.

Lemma costs_await {A} H p (q : promise A) :
  costs H p 0 (fun a => q = Ok a) (await q).
Proof. apply costs_lift. Qed.

Lemma costs_caught H p n Q (m : M response) :
  costs H p n Q m -> costs H p n anyhow (caught m).
Proof.
  intros Hm h t r t' Hh R. unfold caught, try_catch in R.
  destruct (m h t) as [[x|e] t1] eqn:E;
    destruct (Hm h t _ _ Hh E) as [evs [-> [P _]]]; injection R as <- <-;
    exists evs; (split; [reflexivity|]); (split; [exact P|]); now intros.
Qed.

Lemma costs_run {A} p n Q (m : M A) h :
  costs (eq h) p n Q m -> (count_events p (snd (m h [])) <= n)%nat.
Proof.
  intros Hm. destruct (m h []) as [r t'] eqn:E.
  destruct (Hm h [] r t' eq_refl E) as [evs [-> [P _]]]. exact P.
Qed.

(** Events of the primitives. *)
Lemma free_fetch p url : p (Fetched url) = false -> emits (free p) (fetch url).
Proof. intros F. now apply emits_one with (e := Fetched url). Qed.

Lemma free_capture p url : p (Captured url) = false -> emits (free p) (capture url).
Proof. intros F. now apply emits_one with (e := Captured url). Qed.

Lemma free_capture_search p q :
  p (Searched q) = false -> emits (free p) (capture_search q).
Proof. intros F. now apply emits_one with (e := Searched q). Qed.

Lemma free_sleep p ms : p (Waited ms) = false -> emits (free p) (sleep ms).
Proof. intros F. now apply emits_one with (e := Waited ms). Qed.

Lemma free_ask p req : p (Asked req) = false -> emits (free p) (ask req).
Proof. intros F. now apply emits_one with (e := Asked req). Qed.

Lemma emits_first_data P content : emits P (Server.first_data content).
Proof.
  induction content as [|[text|] rest IH]; simpl; [apply emits_ret| |exact IH].
  destruct (jsonMatch text); [|exact IH].
  apply emits_try_catch; [emits_auto | intros; exact IH].
Qed.

Ltac free_step :=
  lazymatch goal with
  | |- emits _ (Server.first_data _) => apply emits_first_data
  | |- emits (free _) (fetch _) => apply free_fetch; reflexivity
  | |- emits (free _) (capture _) => apply free_capture; reflexivity
  | |- emits (free _) (capture_search _) => apply free_capture_search; reflexivity
  | |- emits (free _) (sleep _) => apply free_sleep; reflexivity
  | |- emits (free _) (ask _) => apply free_ask; reflexivity
  | |- _ => emits_step
  end.

Ltac freely := apply costs_free; solve [repeat free_step].

Lemma costs_one {A} H p (m : M A) e :
  (forall h t, snd (m h t) = t ++ [e]) -> costs H p 1 anyhow m.
Proof.
  intros E h t r t' _ R. exists [e]. specialize (E h t). rewrite R in E.
  split; [exact E|]. split; [|now intros].
  unfold count_events. simpl. destruct (p e); simpl; lia.
Qed.

Lemma costs_fetch H p url : costs H p 1 anyhow (fetch url).
Proof. now apply costs_one with (e := Fetched url). Qed.

Lemma costs_capture H p url : costs H p 1 anyhow (capture url).
Proof. now apply costs_one with (e := Captured url). Qed.

Lemma costs_capture_search H p q : costs H p 1 anyhow (capture_search q).
Proof. now apply costs_one with (e := Searched q). Qed.

Lemma costs_ask H p req : costs H p 1 anyhow (ask req).
Proof. now apply costs_one with (e := Asked req). Qed.

Create HintDb costs.
Create HintDb facts.
#[export] Hint Resolve costs_lift costs_await : facts.
#[export] Hint Resolve costs_fetch costs_capture costs_capture_search costs_ask
  costs_start : costs.

(** *** Requests to the model *)

Lemma costs_stage_guarded H d req :
  costs H is_request 1 anyhow
    (bind (ask req) (fun reply => first_json_guarded d reply)).
Proof.
  eapply costs_bind; [apply costs_ask| |lia]. intros content _.
  eapply costs_weaken; [freely | lia | auto].
Qed.

Lemma costs_stage_unguarded H req :
  costs H is_request 1 anyhow (bind (ask req) (fun reply => first_json reply)).
Proof.
  eapply costs_bind; [apply costs_ask| |lia]. intros content _.
  eapply costs_weaken; [freely | lia | auto].
Qed.

#[export] Hint Resolve costs_stage_guarded costs_stage_unguarded : costs.

Lemma costs_mapM_free {A B} H p (f : A -> M B) xs :
  (forall x, emits (free p) (f x)) ->
  costs H p 0 (fun ys => List.length ys = List.length xs) (mapM f xs).
Proof.
  intros Hf.
  eapply costs_weaken;
    [apply (@costs_mapM _ _ H p 0%nat anyhow f xs); intros; now apply costs_free
    | simpl; lia | now intros ys [L _]].
Qed.

Lemma costs_server_elements H p v :
  costs H p 0 (fun l => v = VArray l) (Server.elements v).
Proof.
  apply costs_value; [destruct v; now apply emits_nothing|].
  intros h t a t' _ E. now apply server_elements_array in E.
Qed.

Lemma costs_audit_elements H p v :
  costs H p 0 (fun l => v = VArray l) (Audit.elements v).
Proof.
  apply costs_value; [destruct v; now apply emits_nothing|].
  intros h t a t' _ E. now apply audit_elements_array in E.
Qed.

#[export] Hint Resolve costs_server_elements costs_audit_elements : facts.

(** Arithmetic side conditions, after the facts about the request have
    been put in terms of its list of competitors. *)
Ltac costs_arith :=
  cbv beta in *; unfold competitors_of in *;
  repeat match goal with
         | Hq : JSON_parse _ _ = Some _ |- _ => rewrite ?Hq in *; clear Hq
         end;
  repeat match goal with
         | Hq : Js.get _ _ = Ok _ |- _ =>
             apply get_opt_ok in Hq; rewrite ?Hq in *; clear Hq
         | Hq : Promise_all _ = Ok _ |- _ => apply Promise_all_length in Hq
         | Hq : anyhow _ |- _ => clear Hq
         end;
  subst; cbn [size] in *; lia.

Ltac costs_go :=
  lazymatch goal with
  | |- costs _ _ _ _ (bind (mapM _ _) _) =>
      eapply costs_bind;
      [ first [ apply costs_mapM_free; intros; solve [repeat free_step]
              | solve [eauto with costs] ]
      | intros | try costs_arith ]
  | |- costs _ _ _ _ (bind _ _) =>
      eapply costs_bind;
      [ first [ solve [eauto with facts] | freely | solve [eauto with costs] ]
      | intros | try costs_arith ]
  | |- costs _ _ _ _ (if ?c then _ else _) => destruct c
  | |- costs _ _ _ _ (match ?x with _ => _ end) => destruct x
  | |- costs _ _ _ _ (let _ := _ in _) => cbv zeta
  | |- costs _ _ _ anyhow (ret _) => apply costs_ret; exact I
  | |- costs _ _ _ anyhow (caught _) => apply costs_caught with (Q := anyhow)
  | |- costs _ _ _ anyhow _ =>
      first [ eapply costs_weaken; [freely | lia | auto]
            | solve [eapply costs_weaken; [eauto with costs | costs_arith | auto]] ]
  end.

Section Requests.
Variable H : host -> Prop.

Lemma requests_server_extractMessaging name s :
  costs H is_request 1 anyhow (Server.extractMessaging name s).
Proof. unfold Server.extractMessaging. repeat costs_go. Qed.

Lemma requests_server_analyzeFirstImpressions name mt md ws gs :
  costs H is_request 1 anyhow (Server.analyzeFirstImpressions name mt md ws gs).
Proof. unfold Server.analyzeFirstImpressions. repeat costs_go. Qed.

Lemma requests_server_extractVisuals name shot :
  costs H is_request 1 anyhow (Server.extractVisuals name shot).
Proof. unfold Server.extractVisuals. repeat costs_go. Qed.

Lemma requests_server_generateTakeaways name data comps cmp :
  costs H is_request 1 anyhow (Server.generateTakeaways name data comps cmp).
Proof. unfold Server.generateTakeaways. repeat costs_go. Qed.

Lemma requests_audit_extractMessaging name s :
  costs H is_request 1 anyhow (Audit.extractMessaging name s).
Proof. unfold Audit.extractMessaging. repeat costs_go. Qed.

Lemma requests_audit_analyzeFirstImpressions name mt md h1 :
  costs H is_request 1 anyhow (Audit.analyzeFirstImpressions name mt md h1).
Proof. unfold Audit.analyzeFirstImpressions. repeat costs_go. Qed.

Lemma requests_audit_generateTakeaways name data comps cmp :
  costs H is_request 1 anyhow (Audit.generateTakeaways name data comps cmp).
Proof. unfold Audit.generateTakeaways. repeat costs_go. Qed.

End Requests.

#[export] Hint Resolve requests_server_extractMessaging
  requests_server_analyzeFirstImpressions requests_server_extractVisuals
  requests_server_generateTakeaways requests_audit_extractMessaging
  requests_audit_analyzeFirstImpressions requests_audit_generateTakeaways : costs.

Lemma requests_server_analyse H c :
  costs H is_request 3 anyhow (Server.analyse c).
Proof. unfold Server.analyse. cbv zeta. repeat costs_go. Qed.

Lemma requests_audit_analyse H c :
  costs H is_request 2 anyhow (Audit.analyse c).
Proof. unfold Audit.analyse. repeat costs_go. Qed.

Lemma requests_server_analyses H cs :
  costs H is_request (3 * List.length cs)
    (fun rs => List.length rs = List.length cs) (mapM Server.analyse cs).
Proof.
  eapply costs_weaken;
    [apply costs_mapM; intros; apply requests_server_analyse | lia
    | now intros ys [L _]].
Qed.

Lemma requests_audit_analyses H cs :
  costs H is_request (2 * List.length cs)
    (fun rs => List.length rs = List.length cs) (mapM Audit.analyse cs).
Proof.
  eapply costs_weaken;
    [apply costs_mapM; intros; apply requests_audit_analyse | lia
    | now intros ys [L _]].
Qed.

#[export] Hint Resolve requests_server_analyses requests_audit_analyses : costs.

Lemma requests_server_audit H body :
  costs H is_request (3 * size (Js.get_opt body (jss "competitors")) + 5) anyhow
    (Server.audit body).
Proof.
  unfold Server.audit. repeat costs_go.
Qed.

Lemma count_le_length p evs : (count_events p evs <= List.length evs)%nat.
Proof. unfold count_events. apply filter_length_le. Qed.

Lemma costs_short {A} H p n (m : M A) :
  (forall h t, exists evs, snd (m h t) = t ++ evs /\ (List.length evs <= n)%nat) ->
  costs H p n anyhow m.
Proof.
  intros S h t r t' _ R. destruct (S h t) as [evs [E L]]. rewrite R in E.
  exists evs. split; [exact E|]. split; [|now intros].
  pose proof (count_le_length p evs). lia.
Qed.

Lemma fetchWebsite_short url h t :
  exists evs, snd (fetchWebsite url h t) = t ++ evs /\ (List.length evs <= 2)%nat.
Proof.
  unfold fetchWebsite, bind, lift, try_catch, fetch, ret.
  destruct (normalizeUrl url) as [u|e]; [|exists []; now rewrite app_nil_r; auto].
  destruct (http_get h t u); [exists [Fetched u]; auto|].
  destruct (http_get h (t ++ [Fetched u]) _); simpl; rewrite <- app_assoc;
    eexists; split; try reflexivity; simpl; lia.
Qed.

Lemma server_fetchWebsite_short url h t :
  exists evs,
    snd (Server.fetchWebsite url h t) = t ++ evs /\ (List.length evs <= 2)%nat.
Proof.
  unfold Server.fetchWebsite, bind, lift, try_catch, fetch, ret.
  destruct (normalizeUrl url) as [u|e]; [|exists []; now rewrite app_nil_r; auto].
  destruct (http_get h t u); [exists [Fetched u]; auto|].
  destruct (JsString.includes u www_sep); simpl; [exists [Fetched u]; auto|].
  destruct (http_get h (t ++ [Fetched u]) _); simpl; rewrite <- app_assoc;
    eexists; split; try reflexivity; simpl; lia.
Qed.

Lemma costs_fetchWebsite H p url : costs H p 2 anyhow (fetchWebsite url).
Proof. apply costs_short. apply fetchWebsite_short. Qed.

Lemma costs_server_fetchWebsite H p url :
  costs H p 2 anyhow (Server.fetchWebsite url).
Proof. apply costs_short. apply server_fetchWebsite_short. Qed.

#[export] Hint Resolve costs_fetchWebsite costs_server_fetchWebsite : costs.

Lemma costs_parse_body h p event :
  costs (eq h) p 0 (fun v => JSON_parse h (body_text event) = Some v)
    (parse_body event).
Proof.
  apply costs_value; [unfold parse_body; apply emits_parse|].
  intros h' t a t' <- E. now apply parse_body_ok in E.
Qed.

#[export] Hint Resolve costs_parse_body : facts.

(** *** Requests *)

Lemma requests_audit_handler h event :
  costs (eq h) is_request (2 * size (competitors_of h event) + 4) anyhow
    (Audit.handler event).
Proof. unfold Audit.handler. repeat costs_go. Qed.

Lemma requests_suggest_handler H event :
  costs H is_request 1 anyhow (Suggest.handler event).
Proof. unfold Suggest.handler. repeat costs_go. Qed.

Lemma requests_server_suggest H body :
  costs H is_request 1 anyhow (Server.suggest body).
Proof. unfold Server.suggest. repeat costs_go. Qed.

(** *** GETs *)

Lemma gets_server_collect H comp :
  costs H is_get 2 anyhow (Server.collect comp).
Proof. unfold Server.collect. repeat costs_go. Qed.

Lemma gets_audit_collect H comp :
  costs H is_get 2 anyhow (Audit.collect comp).
Proof. unfold Audit.collect. repeat costs_go. Qed.

Lemma gets_server_collects H comps :
  costs H is_get (2 * List.length comps)
    (fun ps => List.length ps = List.length comps)
    (mapM (fun comp => start (Server.collect comp)) comps).
Proof.
  eapply costs_weaken;
    [apply costs_mapM; intros; eapply costs_start, gets_server_collect | lia
    | now intros ys [L _]].
Qed.

Lemma gets_audit_collects H comps :
  costs H is_get (2 * List.length comps)
    (fun ps => List.length ps = List.length comps)
    (mapM (fun comp => start (Audit.collect comp)) comps).
Proof.
  eapply costs_weaken;
    [apply costs_mapM; intros; eapply costs_start, gets_audit_collect | lia
    | now intros ys [L _]].
Qed.

#[export] Hint Resolve gets_server_collects gets_audit_collects : costs.

Lemma gets_server_audit H body :
  costs H is_get (2 * size (Js.get_opt body (jss "competitors")) + 2) anyhow
    (Server.audit body).
Proof. unfold Server.audit. repeat costs_go. Qed.

Lemma gets_audit_handler h event :
  costs (eq h) is_get (2 * size (competitors_of h event) + 2) anyhow
    (Audit.handler event).
Proof. unfold Audit.handler. repeat costs_go. Qed.

Lemma gets_suggest_handler H event :
  costs H is_get 2 anyhow (Suggest.handler event).
Proof. unfold Suggest.handler. repeat costs_go. Qed.

Lemma gets_server_suggest H body :
  costs H is_get 2 anyhow (Server.suggest body).
Proof. unfold Server.suggest. repeat costs_go. Qed.

(** *** Browser sessions *)

Lemma captures_server_takeScreenshot H url :
  costs H is_capture 1 anyhow (Server.takeScreenshot url).
Proof. unfold Server.takeScreenshot. repeat costs_go. Qed.

#[export] Hint Resolve captures_server_takeScreenshot : costs.

Lemma captures_server_collect H comp :
  costs H is_capture 2 anyhow (Server.collect comp).
Proof. unfold Server.collect. repeat costs_go. Qed.

Lemma captures_server_collects H comps :
  costs H is_capture (2 * List.length comps)
    (fun ps => List.length ps = List.length comps)
    (mapM (fun comp => start (Server.collect comp)) comps).
Proof.
  eapply costs_weaken;
    [apply costs_mapM; intros; eapply costs_start, captures_server_collect | lia
    | now intros ys [L _]].
Qed.

#[export] Hint Resolve captures_server_collects : costs.

Lemma captures_server_audit H body :
  costs H is_capture (2 * size (Js.get_opt body (jss "competitors")) + 2) anyhow
    (Server.audit body).
Proof. unfold Server.audit. repeat costs_go. Qed.

Lemma captures_audit_handler H event :
  costs H is_capture 0 anyhow (Audit.handler event).
Proof. unfold Audit.handler. freely. Qed.

Lemma captures_suggest_handler H event :
  costs H is_capture 0 anyhow (Suggest.handler event).
Proof. unfold Suggest.handler. freely. Qed.

Lemma captures_server_suggest H body :
  costs H is_capture 0 anyhow (Server.suggest body).
Proof. unfold Server.suggest. freely. Qed.

(** ** Without a browser *)

Lemma degrades_bind {A B} Q1 Q (m : M A) (f : A -> M B) :
  degrades Q1 m -> (forall a, Q1 a -> degrades Q (f a)) -> degrades Q (bind m f).
Proof.
  intros Hm Hf. unfold degrades in *.
  eapply run_spec_bind; [exact Hm | auto |].
  intros a e1 F1 Qa. cbv beta in *.
  eapply run_spec_weaken; [apply (Hf a Qa) | auto | |]; cbv beta; [|auto].
  intros e2 F2. apply Forall_app. now split.
Qed.

Lemma degrades_emits {A} (m : M A) : emits imageless m -> degrades anyhow m.
Proof.
  intros E. unfold degrades.
  eapply run_spec_weaken; [apply (run_spec_emits browserless E) | auto | auto |].
  now intros.
Qed.

Lemma degrades_weaken {A} (Q Q' : A -> Prop) (m : M A) :
  degrades Q m -> (forall a, Q a -> Q' a) -> degrades Q' m.
Proof.
  intros Hm Hq. unfold degrades in *.
  eapply run_spec_weaken; [exact Hm | auto | auto | auto].
Qed.

Lemma degrades_ret {A} (Q : A -> Prop) (a : A) : Q a -> degrades Q (ret a).
Proof.
  intros Qa h t r t' _ R. injection R as <- <-. exists []. rewrite app_nil_r.
  split; [reflexivity|]. split; [constructor|]. now intros ? [= <-].
Qed.

Lemma degrades_capture url : degrades (fun s => s = None) (capture url).
Proof.
  intros h t r t' [S _] R. injection R as <- <-. exists [Captured url].
  split; [reflexivity|]. split; [repeat constructor|].
  intros a [= <-]. apply S.
Qed.

Lemma degrades_capture_search q : degrades (fun s => s = None) (capture_search q).
Proof.
  intros h t r t' [_ S] R. injection R as <- <-. exists [Searched q].
  split; [reflexivity|]. split; [repeat constructor|].
  intros a [= <-]. apply S.
Qed.

Lemma degrades_mapM {A B} (P : A -> Prop) (Q : B -> Prop) (f : A -> M B) xs :
  Forall P xs -> (forall x, P x -> degrades Q (f x)) ->
  degrades (Forall Q) (mapM f xs).
Proof.
  intros F Hf. induction F as [|x xs Px _ IH]; simpl.
  - apply degrades_ret. constructor.
  - eapply degrades_bind; [apply (Hf x Px)|]. intros y Qy.
    eapply degrades_bind; [apply IH|]. intros ys Qys.
    apply degrades_ret. now constructor.
Qed.

Lemma degrades_start {A} (Q : A -> Prop) (m : M A) :
  degrades Q m -> degrades (fun p => forall a, p = Ok a -> Q a) (start m).
Proof.
  intros Hm h t r t' Hh R. rewrite start_run in R. injection R as <- <-.
  destruct (m h t) as [r1 t1] eqn:E.
  destruct (Hm h t _ _ Hh E) as [evs [-> [P V]]].
  exists evs. split; [reflexivity|]. split; [exact P|].
  intros p [= <-]. exact V.
Qed.

Lemma degrades_await {A} (p : promise A) : degrades (fun a => p = Ok a) (await p).
Proof.
  intros h t r t' _ R. injection R as <- <-. exists []. rewrite app_nil_r.
  split; [reflexivity|]. split; [constructor|]. now intros.
Qed.

Lemma Promise_all_Forall {A} (Q : A -> Prop) (ps : list (promise A)) l :
  Forall (fun p => forall a, p = Ok a -> Q a) ps ->
  Promise_all ps = Ok l -> Forall Q l.
Proof.
  intros F P. rewrite (Promise_all_ok _ P) in F. clear P.
  induction l as [|a l IH]; [constructor|].
  inversion F as [|? ? Ha Hl]; subst. constructor; [now apply Ha | now apply IH].
Qed.

Lemma degrades_caught Q (m : M response) :
  degrades Q m -> degrades anyhow (caught m).
Proof.
  intros Hm h t r t' Hh R. unfold caught, try_catch in R.
  destruct (m h t) as [[x|e] t1] eqn:E;
    destruct (Hm h t _ _ Hh E) as [evs [-> [P _]]]; injection R as <- <-;
    exists evs; (split; [reflexivity|]); (split; [exact P|]); now intros.
Qed.

Lemma imageless_ask req :
  stage_eqb Visuals (req_stage req) = false -> req_images req = [] ->
  emits imageless (ask req).
Proof. intros S G. now apply emits_one with (e := Asked req). Qed.

Ltac imageless_step :=
  lazymatch goal with
  | |- emits imageless (fetch ?u) => now apply emits_one with (e := Fetched u)
  | |- emits imageless (capture ?u) => now apply emits_one with (e := Captured u)
  | |- emits imageless (capture_search ?q) =>
      now apply emits_one with (e := Searched q)
  | |- emits imageless (sleep ?ms) => now apply emits_one with (e := Waited ms)
  | |- emits imageless (ask _) => apply imageless_ask; reflexivity
  | |- emits _ (Server.first_data _) => apply emits_first_data
  | |- _ => emits_step
  end.

Ltac imagelessly := apply degrades_emits; solve [repeat imageless_step].

Lemma degrades_server_takeScreenshot url :
  degrades (fun s => s = None) (Server.takeScreenshot url).
Proof.
  unfold Server.takeScreenshot.
  eapply degrades_bind; [imagelessly|]. intros u _. apply degrades_capture.
Qed.

Lemma degrades_server_collect comp : degrades blind (Server.collect comp).
Proof.
  unfold Server.collect.
  eapply degrades_bind; [imagelessly|]. intros name _.
  eapply degrades_bind; [imagelessly|]. intros url _.
  eapply degrades_bind; [imagelessly|]. intros html _.
  eapply degrades_bind; [apply degrades_server_takeScreenshot|]. intros shot ->.
  eapply degrades_bind; [apply degrades_capture_search|]. intros google ->.
  apply degrades_ret. now split.
Qed.

Lemma degrades_server_structure f :
  blind f -> degrades (fun c => blind (Server.c_fetch c)) (Server.structure f).
Proof.
  intros Bf. unfold Server.structure.
  eapply degrades_bind; [imagelessly|]. intros s _. now apply degrades_ret.
Qed.

Lemma degrades_server_analyse c :
  blind (Server.c_fetch c) -> degrades anyhow (Server.analyse c).
Proof.
  intros [S G]. unfold Server.analyse. cbv zeta. rewrite S, G. imagelessly.
Qed.

Lemma degrades_server_audit body : degrades anyhow (Server.audit body).
Proof.
  unfold Server.audit. apply degrades_caught with (Q := anyhow).
  eapply degrades_bind; [imagelessly|]. intros companyUrl _.
  eapply degrades_bind; [imagelessly|]. intros companyName _.
  eapply degrades_bind; [imagelessly|]. intros competitors _.
  match goal with |- degrades _ (if ?c then _ else _) => destruct c end;
    [imagelessly|].
  eapply degrades_bind; [imagelessly|]. intros html _.
  eapply degrades_bind; [apply degrades_start, degrades_server_takeScreenshot|].
  intros shot Bs.
  eapply degrades_bind; [apply degrades_start, degrades_capture_search|].
  intros google Bg.
  eapply degrades_bind; [imagelessly|]. intros comps _.
  eapply degrades_bind;
    [apply degrades_mapM with (P := anyhow);
       [now apply Forall_forall
       | intros; apply degrades_start, degrades_server_collect]|].
  intros promises Bp.
  eapply degrades_bind; [imagelessly|]. intros companyHtml _.
  eapply degrades_bind; [apply degrades_await|]. intros companyScreenshot Es.
  eapply degrades_bind; [apply degrades_await|]. intros companyGoogle Eg.
  eapply degrades_bind; [apply degrades_await|]. intros fetches Ef.
  rewrite (Bs _ Es), (Bg _ Eg).
  pose proof (Promise_all_Forall _ Bp Ef) as Bf. cbv beta in Bf.
  eapply degrades_bind; [imagelessly|]. intros companyStructured _.
  eapply degrades_bind;
    [apply degrades_mapM with (P := blind);
       [exact Bf | intros; now apply degrades_server_structure]|].
  intros data Bd.
  eapply degrades_bind; [imagelessly|]. intros companyMessaging _.
  eapply degrades_bind; [imagelessly|]. intros _ _.
  eapply degrades_bind; [imagelessly|]. intros companyVisuals _.
  eapply degrades_bind; [imagelessly|]. intros _ _.
  eapply degrades_bind; [imagelessly|]. intros companyFirstImpressions _.
  cbv zeta.
  match goal with |- degrades _ (if ?c then _ else _) => destruct c end;
    [imagelessly|].
  eapply degrades_bind;
    [apply degrades_mapM with (P := fun c => blind (Server.c_fetch c));
       [exact Bd | intros; now apply degrades_server_analyse]|].
  intros results _.
  imagelessly.
Qed.

(** X2. On a host whose browser delivers no screenshot, no request of the
    server's audit comes from the Visuals stage and no request carries an
    image. *)
Theorem server_audit_without_browser (req_body : value) (h : host) :
  browserless h ->
  Forall imageless (snd (Server.audit req_body h [])).
Proof.
  intros B. destruct (Server.audit req_body h []) as [r tr] eqn:E.
  destruct (@degrades_server_audit req_body h [] r tr B E) as [evs [-> [F _]]].
  exact F.
Qed.

(** A whole audit of Acme against Bolt with a browser that captures
    nothing. *)
Lemma server_audit_without_browser_witness :
  browserless Double.cooperative /\
  Forall imageless (snd (Server.audit Double.audit_payload Double.cooperative [])) /\
  asked Comparator (snd (Server.audit Double.audit_payload Double.cooperative []))
  = true.
Proof.
  assert (B : browserless Double.cooperative) by (split; intros; reflexivity).
  split; [exact B|]. split; [|vm_compute; reflexivity].
  exact (@server_audit_without_browser Double.audit_payload Double.cooperative B).
Defined.

(** ** Responses *)

Lemma lift_trace {A} {r : result A} {h t a t'} :
  lift r h t = (Ok a, t') -> t' = t.
Proof. unfold lift. now intros [= _ ->]. Qed.

Lemma or_truthy a b : Js.truthy b = true -> Js.truthy (Js.or a b) = true.
Proof. intros T. unfold Js.or. now destruct (Js.truthy a) eqn:E. Qed.



Lemma caught_cases (m : M response) h t :
  exists resp,
    fst (caught m h t) = Ok resp /\
    ((exists e, resp = Response 500 (ErrorMessage e)) \/
     m h t = (Ok resp, snd (caught m h t))).
Proof.
  unfold caught, try_catch. destruct (m h t) as [[r|e] t1]; simpl.
  - exists r. auto.
  - eexists. split; [reflexivity|]. left. now exists e.
Qed.


(** A successful audit whose comparison has a verdict and nothing else:
    the JSON text of the report has six properties. *)
Lemma server_report_without_score :
  exists report,
    fst (Server.audit Double.audit_payload Double.cooperative [])
    = Ok (Response 200 (Json (VObject report))) /\
    map fst report = server_report_keys /\
    json_keys report = jss "verdict" :: server_built_keys.
Proof.
  let r := eval vm_compute in
             (fst (Server.audit Double.audit_payload Double.cooperative [])) in
  lazymatch r with
  | Ok (Response _ (Json (VObject ?o))) => exists o
  end.
  split; [|split]; vm_compute; reflexivity.
Qed.

(** X4. The Netlify audit never throws. Its response is 405 for a method other
    than POST and 400 for missing fields, in both cases before any call;
    or 500 with the message of a caught exception; or 200 with a report
    object that has exactly the seven properties of the source, in their
    order, where [score], [overlaps], [standouts] and [takeaways] are
    there and truthy, whatever the stages gave. *)
Theorem netlify_audit_responses (event : lambda_event) (h : host) :
  exists resp,
    fst (Audit.handler event h []) = Ok resp /\
    ((resp = Response 405 (Text (jss "Method Not Allowed")) /\
      httpMethod event <> jss "POST" /\
      snd (Audit.handler event h []) = [])
     \/ (resp = Response 400 (error_object "Missing required fields") /\
         snd (Audit.handler event h []) = [])
     \/ (exists e, resp = Response 500 (ErrorMessage e))
     \/ (exists report,
           resp = Response 200 (Json (VObject report)) /\
           map fst report = netlify_report_keys /\
           filled report "score" /\ filled report "overlaps" /\
           filled report "standouts" /\ filled report "takeaways")).
Proof.
  unfold Audit.handler.
  destruct (JsString.eqb (httpMethod event) post) eqn:P; cbn [negb].
  { match goal with
    | |- exists resp, fst (caught ?m h []) = _ /\ _ =>
        destruct (caught_cases m h []) as [resp [E [[e Ee] | B]]];
        exists resp; (split; [exact E|])
    end.
    { right. right. left. now exists e. }
    set (tr := snd _) in *. clearbody tr. clear E.
    do 4 vstep B.
    match type of B with (if ?c then _ else _) _ _ = _ => destruct c end.
    { right. left. apply ret_step in B as [B ->]. injection B as <-.
      repeat match goal with
             | K : lift _ _ _ = (Ok _, _) |- _ => apply lift_trace in K
             end.
      subst.
      match goal with
      | K : parse_body _ _ _ = (Ok _, ?t) |- _ =>
          unfold parse_body, parse in K; destruct (JSON_parse h _);
          [injection K as _ <- | discriminate K]
      end.
      now split. }
    repeat first [vstep B | progress cbv zeta in B].
    apply ret_ok in B. subst resp.
    right. right. right. eexists. split; [reflexivity|].
    split; [reflexivity|].
    repeat split; eexists; (split; [reflexivity|]); now apply or_truthy. }
  eexists. split; [reflexivity|]. left. split; [reflexivity|]. split; [|reflexivity].
  intros E. change (jss "POST") with post in E. rewrite E in P.
  assert (X : JsString.eqb post post = true) by reflexivity. congruence.
Qed.

(** ** The first block that parses *)

Lemma first_occurrence {A} (x : A) l1 r1 l2 r2 :
  l1 ++ x :: r1 = l2 ++ x :: r2 -> ~ In x l1 -> ~ In x l2 ->
  l1 = l2 /\ r1 = r2.
Proof.
  revert l2; induction l1 as [|a l1 IH]; intros [|b l2] E N1 N2; simpl in *.
  - injection E as ->. auto.
  - injection E as -> _. exfalso. apply N2. now left.
  - injection E as -> _. exfalso. apply N1. now left.
  - injection E as -> E. destruct (IH l2 E) as [-> ->]; auto.
Qed.

Lemma last_occurrence {A} (x : A) l1 r1 l2 r2 :
  l1 ++ x :: r1 = l2 ++ x :: r2 -> ~ In x r1 -> ~ In x r2 ->
  l1 = l2 /\ r1 = r2.
Proof.
  intros E N1 N2. apply (f_equal (@rev A)) in E.
  rewrite !rev_app_distr in E. simpl in E. rewrite <- !app_assoc in E. simpl in E.
  apply first_occurrence in E; try (rewrite <- in_rev; assumption).
  destruct E as [E1 E2].
  apply (f_equal (@rev A)) in E1, E2. rewrite !rev_involutive in E1, E2. auto.
Qed.

Lemma brace_span_unique text s1 s2 :
  brace_span text s1 -> brace_span text s2 -> s1 = s2.
Proof.
  intros [p1 [m1 [q1 [E1 [A1 [B1 ->]]]]]] [p2 [m2 [q2 [E2 [A2 [B2 ->]]]]]].
  rewrite E1 in E2. apply first_occurrence in E2 as [_ E2]; try assumption.
  apply last_occurrence in E2 as [-> _]; try assumption. reflexivity.
Qed.

Lemma parses_jsonMatch h text v :
  parses h text v <->
  exists span, jsonMatch text = Some span /\ JSON_parse h span = Some v.
Proof.
  pose proof (jsonMatch_span text) as J. split.
  - intros [span [B P]]. destruct (jsonMatch text) as [s|].
    + exists s. split; [reflexivity|]. now rewrite (brace_span_unique J B).
    + destruct B as [pre [mid [post [E _]]]]. now apply J in E.
  - intros [span [E P]]. rewrite E in J. now exists span.
Qed.

(** The guarded loop, complete. *)
Lemma first_json_guarded_first d content h t :
  exists r, first_json_guarded d content h t = (r, t) /\
            first_parsed d h content r.
Proof.
  induction content as [|[text|] rest [r [E F]]]; simpl.
  - exists (Ok d). split; [reflexivity|]. right. split; [|reflexivity].
    intros t' v' [].
  - assert (Skip : (forall v, ~ parses h text v) ->
                   first_parsed d h (TextBlock text :: rest) r).
    { intros N. destruct F as [[before [x [after [v [-> [B [P ->]]]]]]] | [B ->]].
      - left. exists (TextBlock text :: before), x, after, v.
        split; [reflexivity|]. split; [|auto].
        intros t' v' [[= <-] | I]; [apply N | now apply B].
      - right. split; [|reflexivity].
        intros t' v' [[= <-] | I]; [apply N | now apply B]. }
    destruct (jsonMatch text) as [span|] eqn:J.
    + unfold try_catch, parse. destruct (JSON_parse h span) as [w|] eqn:P.
      * exists (Ok w). split; [reflexivity|]. left.
        exists [], text, rest, w. split; [reflexivity|]. split; [intros ? ? []|].
        split; [|reflexivity]. apply parses_jsonMatch. now exists span.
      * exists r. split; [exact E|]. apply Skip.
        intros v V. apply parses_jsonMatch in V as [s [Js Ps]]. congruence.
    + exists r. split; [exact E|]. apply Skip.
      intros v V. apply parses_jsonMatch in V as [s [Js Ps]]. congruence.
  - exists r. split; [exact E|].
    destruct F as [[before [x [after [v [-> [B [P ->]]]]]]] | [B ->]].
    + left. exists (OtherBlock :: before), x, after, v.
      split; [reflexivity|]. split; [|auto].
      intros t' v' [D | I]; [discriminate D | now apply B].
    + right. split; [|reflexivity].
      intros t' v' [D | I]; [discriminate D | now apply B].
Qed.

Lemma answers_ask_first P d req :
  answers P (first_parsed d)
    (bind (ask req) (fun reply => first_json_guarded d reply)).
Proof. apply answers_ask. intros. apply first_json_guarded_first. Qed.

Ltac firstly :=
  repeat lazymatch goal with
  | |- answers _ _ (bind (ask _) _) => apply answers_ask_first
  | |- answers _ _ (bind _ _) => apply answers_bind; [emits_auto | intros]
  | |- answers _ _ (ret _) => apply answers_ret
  | |- answers _ _ (match ?x with _ => _ end) => destruct x
  end.

Lemma server_extractMessaging_first name s :
  answers never (first_parsed VNull) (Server.extractMessaging name s).
Proof. unfold Server.extractMessaging. firstly. Qed.

Lemma server_analyzeFirstImpressions_first name mt md ws gs :
  answers never (first_parsed VNull)
    (Server.analyzeFirstImpressions name mt md ws gs).
Proof. unfold Server.analyzeFirstImpressions. firstly. Qed.

Lemma server_extractVisuals_first name shot :
  answers never (first_parsed (Server.visual_fields "Unknown"))
    (Server.extractVisuals name shot).
Proof. unfold Server.extractVisuals. firstly. Qed.

Lemma server_generateTakeaways_first name data comps cmp :
  answers never (first_parsed VNull)
    (Server.generateTakeaways name data comps cmp).
Proof. unfold Server.generateTakeaways. firstly. Qed.

(** X5. Each of the server's four stage functions returns the value of the
    first text block of the reply whose brace span parses, passing over
    blocks without a span and blocks whose span is not JSON; with no such
    block it returns null (the [Unknown] record for the visuals). *)
Theorem server_stages_skip_unparseable_blocks (h : host) (t : trace)
    (req : request) (content : list block) :
  messages_create h t req = Ok content ->
  server_stages_first_parsed h t req content.
Proof.
  intros C. repeat split; intros.
  - exact (answers_here never_quiet (server_extractMessaging_first _ _) C H).
  - exact (answers_here never_quiet
             (server_analyzeFirstImpressions_first _ _ _ _ _) C H).
  - exact (answers_here never_quiet (server_extractVisuals_first _ _) C H).
  - exact (answers_here never_quiet
             (server_generateTakeaways_first _ _ _ _) C H).
Qed.

(** The first block of the reply does not parse and the second does: the
    messaging stage gives the value of the second. *)
Lemma server_stages_skip_unparseable_blocks_witness :
  messages_create Double.retrying [] Double.messaging_request
    = Ok Double.second_block /\
  server_stages_first_parsed Double.retrying [] Double.messaging_request
    Double.second_block /\
  Server.extractMessaging Double.acme (Server.Structured [] [] [] [] [] [] [])
    Double.retrying []
  = (Ok Double.messaging_value, [Asked Double.messaging_request]).
Proof.
  split; [reflexivity|]. split; [|vm_compute; reflexivity].
  apply (@server_stages_skip_unparseable_blocks Double.retrying []
           Double.messaging_request Double.second_block).
  reflexivity.
Defined.

(** *** The server's suggest endpoint *)

Lemma usable_jsonMatch h text v :
  usable h text v <->
  exists span, jsonMatch text = Some span /\ JSON_parse h span = Some v /\
               Js.nullish v = false.
Proof.
  unfold usable. rewrite parses_jsonMatch. split.
  - intros [[span [J P]] N]. now exists span.
  - intros [span [J [P N]]]. split; [now exists span | exact N].
Qed.

Lemma get_nullish v k :
  match Js.get v k with
  | Ok _ => Js.nullish v = false
  | Throw _ => Js.nullish v = true
  end.
Proof. destruct v; reflexivity. Qed.

Lemma first_data_run content h t :
  exists d, Server.first_data content h t = (Ok d, t) /\
    suggested h content
      (Ok (match d with
           | Some v => Response 200 (Json v)
           | None => Response 200 no_competitors
           end)).
Proof.
  induction content as [|[text|] rest [d [E F]]]; simpl.
  - exists None. split; [reflexivity|]. right. split; [|reflexivity].
    intros t' v' [].
  - assert (Skip : (forall v, ~ usable h text v) ->
              suggested h (TextBlock text :: rest)
                (Ok (match d with
                     | Some v => Response 200 (Json v)
                     | None => Response 200 no_competitors
                     end))).
    { intros N. destruct F as [[before [x [after [v [-> [B [P R]]]]]]] | [B R]].
      - left. exists (TextBlock text :: before), x, after, v.
        split; [reflexivity|]. split; [|auto].
        intros t' v' [[= <-] | I]; [apply N | now apply B].
      - right. split; [|exact R].
        intros t' v' [[= <-] | I]; [apply N | now apply B]. }
    destruct (jsonMatch text) as [span|] eqn:J.
    + unfold try_catch, bind, parse, lift, ret.
      destruct (JSON_parse h span) as [w|] eqn:P.
      * pose proof (get_nullish w (jss "competitors")) as G.
        destruct (Js.get w (jss "competitors")).
        -- exists (Some w). split; [reflexivity|]. left.
           exists [], text, rest, w. split; [reflexivity|].
           split; [intros ? ? []|]. split; [|reflexivity].
           apply usable_jsonMatch. now exists span.
        -- exists d. split; [exact E|]. apply Skip.
           intros v V. apply usable_jsonMatch in V as [s [Js [Ps Ns]]].
           congruence.
      * exists d. split; [exact E|]. apply Skip.
        intros v V. apply usable_jsonMatch in V as [s [Js [Ps Ns]]]. congruence.
    + exists d. split; [exact E|]. apply Skip.
      intros v V. apply usable_jsonMatch in V as [s [Js [Ps Ns]]]. congruence.
  - exists d. split; [exact E|].
    destruct F as [[before [x [after [v [-> [B [P R]]]]]]] | [B R]].
    + left. exists (OtherBlock :: before), x, after, v.
      split; [reflexivity|]. split; [|auto].
      intros t' v' [D | I]; [discriminate D | now apply B].
    + right. split; [|exact R].
      intros t' v' [D | I]; [discriminate D | now apply B].
Qed.

Lemma server_suggest_answers (req_body : value) :
  exists m, Server.suggest req_body = caught m /\ answers quiet suggested m.
Proof.
  unfold Server.suggest. eexists. split; [reflexivity|].
  repeat lazymatch goal with
  | |- answers _ _ (bind (ask _) _) => apply answers_ask
  | |- answers _ _ (bind _ _) =>
      apply answers_bind; [unfold quiet; emits_auto | intros]
  | |- answers _ _ (ret _) => apply answers_ret
  | |- answers _ _ (match ?x with _ => _ end) => destruct x
  end.
  intros content h t. unfold bind.
  destruct (first_data_run content h t) as [d [E F]]. rewrite E.
  destruct d; eexists; split; try reflexivity; exact F.
Qed.

(** X6. In the run of the server's suggest endpoint that ends with the request
    [req] and gets the reply [content], the body of the 200 response is
    the parsed value of the first text block whose brace span is JSON for
    a value that is neither null nor undefined; with no such block it is
    the empty competitors list. The body is never the text of the model. *)
Theorem server_suggest_returns_parsed_data (req_body : value) (h : host)
    (t : trace) (req : request) (content : list block) (resp : response) :
  messages_create h t req = Ok content ->
  Server.suggest req_body h [] = (Ok resp, t ++ [Asked req]) ->
  (exists before text after v,
     content = before ++ TextBlock text :: after /\
     (forall t' v', In (TextBlock t') before -> ~ usable h t' v') /\
     usable h text v /\
     resp = Response 200 (Json v))
  \/
  ((forall t' v', In (TextBlock t') content -> ~ usable h t' v') /\
   resp = Response 200 (Json (VObject [(jss "competitors", VArray [])]))).
Proof.
  intros C H.
  destruct (server_suggest_answers req_body) as [m [E A]].
  rewrite E in H. unfold caught, try_catch in H.
  destruct (m h []) as [[a|e] t1] eqn:B.
  - injection H as -> ->.
    pose proof (answers_from_start (fun _ q => q) A C B) as
      [[before [text [after [v [Ec [Bf [U R]]]]]]] | [Bf R]];
      injection R as ->.
    + left. now exists before, text, after, v.
    + right. now split.
  - injection H as _ ->.
    pose proof (answers_from_start (fun _ q => q) A C B) as
      [[before [text [after [v [Ec [Bf [U R]]]]]]] | [Bf R]]; discriminate R.
Qed.

(** The site is down; the first block of the reply does not parse and the
    second does: the response is the parsed value of the second. *)
Lemma server_suggest_returns_parsed_data_witness :
  messages_create Double.suggesting Double.suggest_trace Double.suggest_request
    = Ok Double.suggestions /\
  Server.suggest Double.suggest_payload Double.suggesting []
  = (Ok (Response 200 (Json Double.suggestions_value)),
     Double.suggest_trace ++ [Asked Double.suggest_request]) /\
  ((exists before text after v,
      Double.suggestions = before ++ TextBlock text :: after /\
      (forall t' v', In (TextBlock t') before -> ~ usable Double.suggesting t' v') /\
      usable Double.suggesting text v /\
      Response 200 (Json Double.suggestions_value) = Response 200 (Json v))
   \/
   ((forall t' v', In (TextBlock t') Double.suggestions ->
                   ~ usable Double.suggesting t' v') /\
    Response 200 (Json Double.suggestions_value)
    = Response 200 (Json (VObject [(jss "competitors", VArray [])])))).
Proof.
  assert (C : messages_create Double.suggesting Double.suggest_trace
                Double.suggest_request = Ok Double.suggestions) by reflexivity.
  assert (H : Server.suggest Double.suggest_payload Double.suggesting []
              = (Ok (Response 200 (Json Double.suggestions_value)),
                 Double.suggest_trace ++ [Asked Double.suggest_request]))
    by (vm_compute; reflexivity).
  split; [exact C|]. split; [exact H|].
  exact (@server_suggest_returns_parsed_data _ _ _ _ _ _ C H).
Defined.

(** X7. What an audit on the server costs at most, for [n] competitors in the
    request: [3 n + 5] requests to the model, [2 n + 2] GETs and [2 n + 2]
    screenshot attempts (of pages and of search results). The counts are
    those of the whole run, with what the promises of the collection do
    after one of them has been rejected. *)
Theorem server_audit_budget (req_body : value) (h : host) :
  let n := size (Js.get_opt req_body (jss "competitors")) in
  let tr := snd (Server.audit req_body h []) in
  (count_events is_request tr <= 3 * n + 5)%nat /\
  (count_events is_get tr <= 2 * n + 2)%nat /\
  (count_events is_capture tr <= 2 * n + 2)%nat.
Proof.
  cbv zeta. split; [|split]; eapply costs_run.
  - apply requests_server_audit.
  - apply gets_server_audit.
  - apply captures_server_audit.
Qed.

(** A competitor that is null rejects its promise at once, and the
    promises beside it run on: with the network down the run has the two
    GETs and the two screenshot attempts of the focal brand and those of
    Bolt, and the answer is 500 without a request to the model. *)
Lemma collection_goes_on_after_a_rejection :
  let run := Server.audit Double.half_payload Double.cooperative [] in
  fst run = Ok (Response 500 (ErrorMessage TypeError)) /\
  count_events is_get (snd run) = 4%nat /\
  count_events is_capture (snd run) = 4%nat /\
  count_events is_request (snd run) = 0%nat.
Proof. cbv zeta. repeat split; vm_compute; reflexivity. Qed.

(** X8. What an audit on Netlify costs at most, for [n] competitors in the
    request: [2 n + 4] requests to the model and [2 n + 2] GETs; it takes no
    screenshot. The counts are those of the whole run, with what the
    promises of the collection do after one of them has been rejected. *)
Theorem netlify_audit_budget (event : lambda_event) (h : host) :
  let n := size (competitors_of h event) in
  let tr := snd (Audit.handler event h []) in
  (count_events is_request tr <= 2 * n + 4)%nat /\
  (count_events is_get tr <= 2 * n + 2)%nat /\
  count_events is_capture tr = 0%nat.
Proof.
  cbv zeta. split; [|split].
  - eapply costs_run. apply requests_audit_handler.
  - eapply costs_run. apply gets_audit_handler.
  - apply Nat.le_0_r. eapply costs_run. apply (captures_audit_handler (eq h)).
Qed.

(** X9. Either suggest handler makes at most one request to the model and at
    most two GETs, and takes no screenshot. *)
Theorem suggest_budget :
  (forall (event : lambda_event) (h : host),
     let tr := snd (Suggest.handler event h []) in
     (count_events is_request tr <= 1)%nat /\
     (count_events is_get tr <= 2)%nat /\
     count_events is_capture tr = 0%nat)
  /\
  (forall (req_body : value) (h : host),
     let tr := snd (Server.suggest req_body h []) in
     (count_events is_request tr <= 1)%nat /\
     (count_events is_get tr <= 2)%nat /\
     count_events is_capture tr = 0%nat).
Proof.
  split; intros; cbv zeta; (split; [|split]).
  - eapply costs_run. apply (requests_suggest_handler (eq h)).
  - eapply costs_run. apply (gets_suggest_handler (eq h)).
  - apply Nat.le_0_r. eapply costs_run. apply (captures_suggest_handler (eq h)).
  - eapply costs_run. apply (requests_server_suggest (eq h)).
  - eapply costs_run. apply (gets_server_suggest (eq h)).
  - apply Nat.le_0_r. eapply costs_run. apply (captures_server_suggest (eq h)).
Qed.

(** X10. Neither suggest handler throws. The Netlify function answers 405, 400
    (before any call), 500 with the message of a caught exception, or 200
    with a span of the reply as it is or the empty competitors list. The
    server's endpoint answers 400 (before any call), 500, or 200 with the
    JSON of a value. *)
Theorem suggest_responses :
  (forall (event : lambda_event) (h : host),
     exists resp,
       fst (Suggest.handler event h []) = Ok resp /\
       ((resp = Response 405 (Text (jss "Method Not Allowed")) /\
         httpMethod event <> jss "POST" /\
         snd (Suggest.handler event h []) = [])
        \/ (resp = Response 400 (error_object "Missing company URL or name") /\
            snd (Suggest.handler event h []) = [])
        \/ (exists e, resp = Response 500 (ErrorMessage e))
        \/ (exists span, resp = Response 200 (Text span))
        \/ resp = Response 200 (Json (VObject [(jss "competitors", VArray [])]))))
  /\
  (forall (req_body : value) (h : host),
     exists resp,
       fst (Server.suggest req_body h []) = Ok resp /\
       ((resp = Response 400 (error_object "Missing company URL or name") /\
         snd (Server.suggest req_body h []) = [])
        \/ (exists e, resp = Response 500 (ErrorMessage e))
        \/ (exists v, resp = Response 200 (Json v)))).
Proof.
  split.
  - intros event h. unfold Suggest.handler.
    destruct (JsString.eqb (httpMethod event) post) eqn:P; cbn [negb].
    2:{ eexists. split; [reflexivity|]. left. split; [reflexivity|].
        split; [|reflexivity].
        intros E. change (jss "POST") with post in E. rewrite E in P.
        assert (X : JsString.eqb post post = true) by reflexivity. congruence. }
    match goal with
    | |- exists resp, fst (caught ?m h []) = _ /\ _ =>
        destruct (caught_cases m h []) as [resp [E [[e Ee] | B]]];
        exists resp; (split; [exact E|])
    end.
    { right. right. left. now exists e. }
    set (tr := snd _) in *. clearbody tr. clear E.
    do 3 vstep B.
    match type of B with (if ?c then _ else _) _ _ = _ => destruct c end.
    { right. left. apply ret_step in B as [B ->]. injection B as <-.
      repeat match goal with
             | K : lift _ _ _ = (Ok _, _) |- _ => apply lift_trace in K
             end.
      subst.
      match goal with
      | K : parse_body _ _ _ = (Ok _, ?t) |- _ =>
          unfold parse_body, parse in K; destruct (JSON_parse h _);
          [injection K as _ <- | discriminate K]
      end.
      now split. }
    do 3 vstep B.
    match type of B with
    | (match ?d with _ => _ end) _ _ = _ => destruct d
    end; apply ret_ok in B; subst resp.
    + right. right. right. left. now eexists.
    + right. right. right. right. reflexivity.
  - intros req_body h. unfold Server.suggest.
    match goal with
    | |- exists resp, fst (caught ?m h []) = _ /\ _ =>
        destruct (caught_cases m h []) as [resp [E [[e Ee] | B]]];
        exists resp; (split; [exact E|])
    end.
    { right. left. now exists e. }
    set (tr := snd _) in *. clearbody tr. clear E.
    do 2 vstep B.
    match type of B with (if ?c then _ else _) _ _ = _ => destruct c end.
    { left. apply ret_step in B as [B ->]. injection B as <-.
      repeat match goal with
             | K : lift _ _ _ = (Ok _, _) |- _ => apply lift_trace in K
             end.
      subst. now split. }
    do 5 vstep B. right. right.
    match type of B with (match ?d with _ => _ end) _ _ = _ => destruct d end;
      apply ret_ok in B; subst resp; now eexists.
Qed.

(** ** Competitors that are no list *)

(** The rest of a handler after a list of competitors that is no list. *)
Ltac no_list :=
  lazymatch goal with
  | |- costs _ _ _ _ (bind (_ ?v) _) =>
      eapply costs_bind;
      [ first [apply costs_server_elements | apply costs_audit_elements]
      | intros ? ?; exfalso | lia ];
      cbv beta in *; unfold competitors_of in *;
      repeat match goal with
             | Hq : JSON_parse _ _ = Some _ |- _ => rewrite ?Hq in *; clear Hq
             end;
      repeat match goal with
             | Hq : Js.get _ _ = Ok _ |- _ =>
                 apply get_opt_ok in Hq; rewrite ?Hq in *; clear Hq
             end;
      subst; discriminate
  end.

Lemma requests_server_audit_no_list H body :
  is_array (Js.get_opt body (jss "competitors")) = false ->
  costs H is_request 0 anyhow (Server.audit body).
Proof.
  intros N. unfold Server.audit. apply costs_caught with (Q := anyhow).
  do 3 costs_go. costs_go; [costs_go|]. do 3 costs_go. no_list.
Qed.

Lemma requests_audit_handler_no_list h event :
  is_array (competitors_of h event) = false ->
  costs (eq h) is_request 0 anyhow (Audit.handler event).
Proof.
  intros N. unfold Audit.handler. costs_go; [costs_go|].
  apply costs_caught with (Q := anyhow).
  do 4 costs_go. costs_go; [costs_go|]. costs_go. no_list.
Qed.

(** X11. When the [competitors] of the request are not an array, neither audit
    makes a request to the model. *)
Theorem no_list_of_competitors_no_request :
  (forall (req_body : value) (h : host),
     is_array (Js.get_opt req_body (jss "competitors")) = false ->
     count_events is_request (snd (Server.audit req_body h [])) = 0%nat)
  /\
  (forall (event : lambda_event) (h : host),
     is_array (competitors_of h event) = false ->
     count_events is_request (snd (Audit.handler event h [])) = 0%nat).
Proof.
  split; intros ? h N; apply Nat.le_0_r; eapply costs_run.
  - now apply (@requests_server_audit_no_list (eq h)).
  - now apply requests_audit_handler_no_list.
Qed.

(** The competitors of the request are a text: the server answers 500
    and has made no request to the model. *)
Lemma no_list_of_competitors_no_request_witness :
  is_array (Js.get_opt Double.listless_payload (jss "competitors")) = false /\
  count_events is_request
    (snd (Server.audit Double.listless_payload Double.cooperative [])) = 0%nat /\
  exists e,
    fst (Server.audit Double.listless_payload Double.cooperative [])
    = Ok (Response 500 (ErrorMessage e)).
Proof.
  assert (N : is_array (Js.get_opt Double.listless_payload (jss "competitors"))
              = false) by reflexivity.
  split; [exact N|]. split.
  - exact (proj1 no_list_of_competitors_no_request
             Double.listless_payload Double.cooperative N).
  - eexists. vm_compute. reflexivity.
Defined.

(** ** Search results in the report *)

Lemma eqb_refl (k : jsstring) : JsString.eqb k k = true.
Proof. now apply eqb_eq. Qed.

Lemma eqb_neq (a b : jsstring) : a <> b -> JsString.eqb a b = false.
Proof.
  intros N. destruct (JsString.eqb a b) eqn:E; [|reflexivity].
  apply eqb_eq in E. contradiction.
Qed.

Lemma key_dec (a b : jsstring) : {a = b} + {a <> b}.
Proof. apply (list_eq_dec N.eq_dec). Qed.

Lemma lookup_set_same k v o : Js.lookup k (Js.set k v o) = Some v.
Proof.
  induction o as [|[k' v'] o IH]; simpl.
  - now rewrite eqb_refl.
  - destruct (JsString.eqb k k') eqn:E; simpl; [now rewrite eqb_refl|].
    now rewrite E.
Qed.

Lemma lookup_set_other k k' v o :
  JsString.eqb k' k = false -> Js.lookup k' (Js.set k v o) = Js.lookup k' o.
Proof.
  intros N. induction o as [|[k0 v0] o IH]; simpl.
  - now rewrite N.
  - destruct (JsString.eqb k k0) eqn:E; simpl.
    + apply eqb_eq in E. subst k0. now rewrite N.
    + now rewrite IH.
Qed.

(** A property that the source of a spread does not have keeps its
    value. *)
Lemma lookup_assign_other k o extra :
  ~ In k (map fst extra) -> Js.lookup k (Js.assign o extra) = Js.lookup k o.
Proof.
  unfold Js.assign. revert o. induction extra as [|[k' v'] e IH]; intros o N; simpl.
  - reflexivity.
  - rewrite IH by (intros I; apply N; now right).
    apply lookup_set_other, eqb_neq. intros ->. apply N. now left.
Qed.

(** A property that the source of a spread has is one of its pairs. *)
Lemma lookup_assign_In k v o extra :
  In k (map fst extra) -> Js.lookup k (Js.assign o extra) = Some v ->
  In (k, v) extra.
Proof.
  unfold Js.assign. revert o. induction extra as [|[k' v'] e IH]; intros o I L; simpl in *.
  - contradiction.
  - destruct (in_dec key_dec k (map fst e)) as [Ie|Ne].
    + right. eapply IH; eassumption.
    + destruct I as [<-|I]; [|contradiction].
      left. f_equal.
      change (fold_left _ e ?x) with (Js.assign x e) in L.
      rewrite (@lookup_assign_other _ _ _ Ne), lookup_set_same in L. congruence.
Qed.

Lemma lookup_assign_keys k o extra :
  Js.lookup k (Js.assign o extra) <> None <->
  Js.lookup k o <> None \/ In k (map fst extra).
Proof.
  unfold Js.assign. revert o. induction extra as [|[k' v'] e IH]; intros o; simpl.
  - tauto.
  - rewrite IH. destruct (key_dec k k') as [->|N].
    + rewrite lookup_set_same. split; [auto|]. intros _. left. discriminate.
    + rewrite lookup_set_other by now apply eqb_neq.
      split; intros [L|I]; auto. destruct I as [E|I]; [congruence | auto].
Qed.

Lemma lookup_In k v o : Js.lookup k o = Some v -> In (k, v) o.
Proof.
  induction o as [|[k' v'] o IH]; simpl; [discriminate|].
  destruct (JsString.eqb k k') eqn:E.
  - apply eqb_eq in E. subst. intros [= ->]. now left.
  - intros L. right. now apply IH.
Qed.

Lemma assign_In kv o extra :
  In kv (Js.assign o extra) -> In kv o \/ In kv extra.
Proof.
  unfold Js.assign. revert o. induction extra as [|[k' v'] e IH]; intros o I; simpl in *.
  - now left.
  - apply IH in I as [I|I]; [|auto].
    assert (S : In kv o \/ kv = (k', v')).
    { clear IH. induction o as [|[k0 v0] o IHo]; simpl in I |- *.
      - destruct I as [<-|[]]. now right.
      - destruct (JsString.eqb k' k0); simpl in I.
        + destruct I as [<-|I]; auto.
        + destruct I as [<-|I]; auto. apply IHo in I. tauto. }
    destruct S as [S|S]; auto.
Qed.

(** The entries of [{ [key]: own, ...Object.fromEntries(entries) }]: an
    entry of the list under its name, and [own] under [key] when no entry
    of the list has that name. *)
Lemma keyed_lookup key own entries :
  let fi := Js.assign [(key, own)] (Js.assign [] entries) in
  (forall k, Js.lookup k fi <> None <-> k = key \/ In k (map fst entries)) /\
  (forall k v, In k (map fst entries) -> Js.lookup k fi = Some v ->
               In (k, v) entries) /\
  (forall v, ~ In key (map fst entries) -> Js.lookup key fi = Some v -> v = own).
Proof.
  assert (K : forall k, In k (map fst (Js.assign [] entries))
                        <-> In k (map fst entries)).
  { intros k. split; intros I.
    - apply in_map_iff in I as [[k' v] [<- I]].
      apply assign_In in I as [[]|I]. apply in_map_iff. now exists (k', v).
    - destruct (Js.lookup k (Js.assign [] entries)) as [v|] eqn:L.
      + apply lookup_In in L. apply in_map_iff. now exists (k, v).
      + exfalso. apply (proj2 (lookup_assign_keys k [] entries)); auto. }
  cbv zeta. split; [|split].
  - intros k. rewrite lookup_assign_keys, K. simpl.
    destruct (JsString.eqb k key) eqn:E.
    + apply eqb_eq in E. subst. split; auto. intros _. left. discriminate.
    + split; intros [L|I]; auto; [contradiction|].
      subst. rewrite eqb_refl in E. discriminate.
  - intros k v I L. apply K in I.
    apply (@lookup_assign_In _ _ _ _ I) in L.
    apply assign_In in L as [[]|L]. exact L.
  - intros v N L. rewrite lookup_assign_other in L by now rewrite K.
    simpl in L. rewrite eqb_refl in L. congruence.
Qed.

(** The fields written after the spread are the ones the entry has. *)
Lemma impression_entry_meta fi mt md :
  meta_of (Audit.impression_entry fi mt md) = (mt, md) /\
  meta_of (Server.impression_entry fi mt md) = (mt, md).
Proof.
  unfold meta_of, Audit.impression_entry, Server.impression_entry, Js.get_opt, Js.get.
  rewrite lookup_set_same.
  rewrite lookup_set_other by reflexivity. rewrite lookup_set_same. auto.
Qed.

Lemma mapM_Forall2 {A B} (P : A -> Prop) (R : A -> B -> Prop) (f : A -> M B) h :
  (forall x t y t', P x -> f x h t = (Ok y, t') -> R x y) ->
  forall xs t ys t',
    Forall P xs -> mapM f xs h t = (Ok ys, t') -> Forall2 R xs ys.
Proof.
  intros G xs. induction xs as [|x xs IH]; intros t ys t' F H; simpl in H.
  - apply ret_ok in H. subst. constructor.
  - inversion F; subst. vstep H. vstep H. apply ret_ok in H. subst.
    constructor; eauto.
Qed.

Lemma Forall_all {A} (xs : list A) : Forall (fun _ => True) xs.
Proof. now apply Forall_forall. Qed.

Lemma Forall2_maps {A B C D} (R : C -> D -> Prop) (f : A -> C) (g : B -> D) xs ys :
  Forall2 (fun x y => R (f x) (g y)) xs ys -> Forall2 R (map f xs) (map g ys).
Proof. induction 1; simpl; constructor; auto. Qed.

Lemma Forall2_map_left {A B C} (R : C -> B -> Prop) (f : A -> C) xs ys :
  Forall2 R (map f xs) ys -> Forall2 (fun x y => R (f x) y) xs ys.
Proof.
  revert ys; induction xs as [|x xs IH]; intros ys F; inversion F; subst;
    constructor; auto.
Qed.

Lemma Forall2_right {A B} (R : A -> B -> Prop) (Q : B -> Prop) xs ys :
  Forall2 R xs ys -> (forall x y, R x y -> Q y) -> Forall Q ys.
Proof. intros F G. induction F; constructor; eauto. Qed.

Lemma Forall2_length_eq {A B} (R : A -> B -> Prop) xs ys :
  Forall2 R xs ys -> List.length xs = List.length ys.
Proof. induction 1; simpl; congruence. Qed.

Lemma map_fst_combine {A B} (a : list A) (b : list B) :
  List.length a = List.length b -> map fst (combine a b) = a.
Proof.
  revert b; induction a as [|x a IH]; intros [|y b] L; simpl in *;
    try discriminate; [reflexivity|]. f_equal. apply IH. congruence.
Qed.

Lemma str_ok {v h t k t'} : str v h t = (Ok k, t') -> toString h v = Ok k.
Proof. unfold str. now intros [= -> _]. Qed.

Lemma audit_analyse_scraped c h t a t' :
  Audit.analyse c h t = (Ok a, t') ->
  Js.get (Audit.a_scraped a) (jss "metaTitle") = Ok VUndefined /\
  Js.get (Audit.a_scraped a) (jss "metaDescription") = Ok VUndefined.
Proof.
  unfold Audit.analyse. intros H. do 4 vstep H. apply ret_ok in H. subst.
  split; reflexivity.
Qed.

Lemma audit_competitor_entry_meta c h t e t' :
  (Js.get (Audit.a_scraped c) (jss "metaTitle") = Ok VUndefined /\
   Js.get (Audit.a_scraped c) (jss "metaDescription") = Ok VUndefined) ->
  Audit.competitor_entry c h t = (Ok e, t') ->
  toString h (Audit.a_name c) = Ok (fst e) /\
  meta_of (snd e) = (VUndefined, VUndefined).
Proof.
  intros [T D] H. unfold Audit.competitor_entry in H. do 3 vstep H.
  apply ret_ok in H. subst. apply lift_ok in E0, E1. apply str_ok in E.
  rewrite T in E0. rewrite D in E1. injection E0 as <-. injection E1 as <-.
  split; [exact E|]. apply impression_entry_meta.
Qed.

Lemma server_analyse_scraped c h t a t' :
  Server.analyse c h t = (Ok a, t') ->
  is_string (Js.get_opt (Server.a_scraped a) (jss "metaTitle")) /\
  is_string (Js.get_opt (Server.a_scraped a) (jss "metaDescription")).
Proof.
  unfold Server.analyse. cbv zeta. intros H. do 6 vstep H. apply ret_ok in H.
  subst. split; eexists; reflexivity.
Qed.

(** X12. The first-impressions map of a successful audit has one property
    for the name of the focal brand and one for the name of each competitor
    of the request, and no other; brands of the same name share one. On
    the server every entry carries the scraped title and description as
    strings. In the Netlify audit the entry under a competitor's name has
    both undefined, since what is kept of a competitor's page there has
    no title and no description; the entry under the focal brand's name
    carries them as strings when no competitor has that name. *)
Theorem competitor_entries_and_their_meta :
  (forall (event : lambda_event) (h : host) (resp : response) (tr : trace),
     Audit.handler event h [] = (Ok resp, tr) ->
     statusCode resp = 200%nat ->
     exists comps report fi key keys,
       competitors_of h event = VArray comps /\
       payload resp = Json (VObject report) /\
       Js.lookup (jss "firstImpressions") report = Some (VObject fi) /\
       toString h (companyName_of h event) = Ok key /\
       keys_of h (map name_of comps) keys /\
       (forall k, Js.lookup k fi <> None <-> k = key \/ In k keys) /\
       (forall k v, In k keys -> Js.lookup k fi = Some v ->
                    meta_of v = (VUndefined, VUndefined)) /\
       (forall v, ~ In key keys -> Js.lookup key fi = Some v -> has_meta v))
  /\
  (forall (req_body : value) (h : host) (resp : response) (tr : trace),
     Server.audit req_body h [] = (Ok resp, tr) ->
     statusCode resp = 200%nat ->
     exists comps report fi key keys,
       Js.get_opt req_body (jss "competitors") = VArray comps /\
       payload resp = Json (VObject report) /\
       Js.lookup (jss "firstImpressions") report = Some (VObject fi) /\
       toString h (Js.get_opt req_body (jss "companyName")) = Ok key /\
       keys_of h (map name_of comps) keys /\
       (forall k, Js.lookup k fi <> None <-> k = key \/ In k keys) /\
       (forall k v, Js.lookup k fi = Some v -> has_meta v)).
Proof.
  split.
  - intros event h resp tr H S200. unfold Audit.handler in H.
    destruct (negb (JsString.eqb (httpMethod event) post)).
    { apply ret_ok in H. subst. discriminate S200. }
    unfold caught, try_catch in H.
    match type of H with
    | match ?b h [] with _ => _ end = _ =>
        destruct (b h []) as [[r0|e0] tr0] eqn:B
    end.
    2:{ injection H as <- _. discriminate S200. }
    injection H as -> ->.
    do 4 vstep B.
    match type of B with (if ?c then _ else _) _ _ = _ => destruct c end.
    { apply ret_ok in B. subst. discriminate S200. }
    repeat first [vstep B | progress cbv zeta in B].
    apply ret_ok in B. subst resp.
    match goal with
    | K : parse_body _ _ _ = _ |- _ => apply parse_body_ok in K; rename K into P
    end.
    repeat match goal with
           | K : lift _ _ _ = (Ok _, _) |- _ => apply lift_ok in K
           | K : await _ _ _ = (Ok _, _) |- _ => apply await_ok in K
           | K : Audit.elements _ _ _ = _ |- _ => apply audit_elements_array in K
           end.
    match goal with
    | K1 : mapM Audit.analyse ?data _ _ = (Ok ?results, _),
      K2 : mapM (fun comp => start (Audit.collect comp)) ?comps _ _ = (Ok ?ps, _),
      K3 : Promise_all ?ps = Ok ?data,
      K4 : mapM Audit.competitor_entry ?results _ _ = (Ok ?entries, _) |- _ =>
        assert (Names : map Audit.a_name results = map name_of comps)
          by (rewrite (@mapM_map _ _ _ _ Audit.a_name _ audit_analyse_name
                         _ _ _ _ _ K1);
              exact (@started_map _ _ _ _ Audit.c_name _ audit_collect_name
                       _ _ _ _ _ _ K2 K3));
        pose proof (@mapM_Forall2 _ _ (fun _ => True) _ _ h
                      (fun x t y t' _ => @audit_analyse_scraped x h t y t')
                      _ _ _ _ (Forall_all data) K1) as F1;
        pose proof (@mapM_Forall2 _ _ _ _ _ h
                      (fun x t y t' => @audit_competitor_entry_meta x h t y t')
                      _ _ _ _ (@Forall2_right _ _ _ _ _ _ F1 (fun _ _ S => S)) K4) as F4;
        assert (Q : Forall (fun e => meta_of (snd e) = (VUndefined, VUndefined))
                      entries)
          by (apply (@Forall2_right _ _ _ _ _ _ F4); now intros c e [_ M]);
        match goal with
        | |- context [Js.assign [(?k, ?o)] (Js.assign [] entries)] =>
            destruct (keyed_lookup k o entries) as [D [I O]];
            exists comps; eexists; eexists; exists k; exists (map fst entries)
        end
    end.
    split.
    { unfold competitors_of. rewrite P.
      match goal with
      | K : Js.get _ (jss "competitors") = Ok _ |- _ => rewrite (get_opt_ok K)
      end.
      assumption. }
    split; [reflexivity|]. split; [reflexivity|].
    split.
    { unfold companyName_of. rewrite P.
      match goal with
      | K : Js.get _ (jss "companyName") = Ok _ |- _ => rewrite (get_opt_ok K)
      end.
      match goal with
      | K : str _ _ _ = (Ok ?k, _) |- _ = Ok ?k => exact (str_ok K)
      end. }
    split.
    { unfold keys_of. rewrite <- Names. apply Forall2_maps.
      eapply Forall2_impl; [|exact F4]. now intros c e [T _]. }
    split; [exact D|]. split.
    + intros k v Ik L. specialize (I k v Ik L).
      rewrite Forall_forall in Q. exact (Q _ I).
    + intros v N L. rewrite (O v N L).
      unfold has_meta. rewrite (proj1 (impression_entry_meta _ _ _)).
      split; now eexists.
  - intros req_body h resp tr H S200.
    unfold Server.audit, caught, try_catch in H.
    match type of H with
    | match ?b h [] with _ => _ end = _ =>
        destruct (b h []) as [[r0|e0] tr0] eqn:B
    end.
    2:{ injection H as <- _. discriminate S200. }
    injection H as -> ->.
    do 3 vstep B.
    match type of B with (if ?c then _ else _) _ _ = _ => destruct c end.
    { apply ret_ok in B. subst. discriminate S200. }
    do 16 vstep B. cbv zeta in B.
    match type of B with (if ?c then _ else _) _ _ = _ => destruct c end.
    { apply ret_ok in B. subst. discriminate S200. }
    do 5 vstep B. cbv zeta in B. do 3 vstep B.
    match type of B with (if ?c then _ else _) _ _ = _ => destruct c end.
    { apply ret_ok in B. subst. discriminate S200. }
    do 11 vstep B. apply ret_ok in B. subst resp.
    repeat match goal with
           | K : lift _ _ _ = (Ok _, _) |- _ => apply lift_ok in K
           | K : await _ _ _ = (Ok _, _) |- _ => apply await_ok in K
           | K : Server.elements _ _ _ = _ |- _ =>
               apply server_elements_array in K
           end.
    match goal with
    | K1 : mapM Server.analyse ?data _ _ = (Ok ?results, _),
      K2 : mapM Server.structure ?fetched _ _ = (Ok ?data, _),
      K3 : mapM (fun comp => start (Server.collect comp)) ?comps _ _ = (Ok ?ps, _),
      K4 : Promise_all ?ps = Ok ?fetched,
      K5 : mapM (fun c => str (Server.a_name c)) ?results _ _ = (Ok ?keys, _)
      |- _ =>
        assert (Names : map Server.a_name results = map name_of comps)
          by (rewrite (@mapM_map _ _ _ _ Server.a_name _ server_analyse_name
                         _ _ _ _ _ K1),
                (@mapM_map _ _ _ _ (fun c => Server.f_name (Server.c_fetch c)) _
                   server_structure_name _ _ _ _ _ K2);
              exact (@started_map _ _ _ _ Server.f_name _ server_collect_name
                       _ _ _ _ _ _ K3 K4));
        pose proof (@mapM_Forall2 _ _ (fun _ => True) _ _ h
                      (fun x t y t' _ => @server_analyse_scraped x h t y t')
                      _ _ _ _ (Forall_all data) K1) as F1;
        pose proof (@mapM_Forall2 _ _ (fun _ => True)
                      (fun c k => toString h (Server.a_name c) = Ok k) _ h
                      (fun x t y t' _ K => str_ok K)
                      _ _ _ _ (Forall_all results) K5) as F5;
        match goal with
        | |- context [Server.keyed ?k (Server.impression_entry ?a ?b ?c) keys ?es] =>
            assert (Ks : map fst (combine keys es) = keys)
              by (apply map_fst_combine;
                  rewrite length_map; symmetry; exact (Forall2_length_eq F5));
            destruct (keyed_lookup k (Server.impression_entry a b c)
                        (combine keys es)) as [D [I O]];
            rewrite Ks in D, I, O;
            exists comps; eexists; eexists; exists k; exists keys
        end
    end.
    split.
    { match goal with
      | K : Js.get _ (jss "competitors") = Ok _ |- _ => rewrite (get_opt_ok K)
      end.
      assumption. }
    split; [reflexivity|]. split; [reflexivity|].
    split.
    { match goal with
      | K : Js.get _ (jss "companyName") = Ok _ |- _ => rewrite (get_opt_ok K)
      end.
      match goal with
      | K : str _ _ _ = (Ok ?k, _) |- _ = Ok ?k => exact (str_ok K)
      end. }
    split.
    { unfold keys_of. rewrite <- Names.
      apply (@Forall2_maps _ _ _ _ (fun n k => toString h n = Ok k)
               Server.a_name (fun k => k)) in F5.
      now rewrite map_id in F5. }
    split; [exact D|].
    assert (Own : forall a b c, is_string b -> is_string c ->
                                has_meta (Server.impression_entry a b c)).
    { intros x y z Sy Sz. unfold has_meta.
      now rewrite (proj2 (impression_entry_meta _ _ _)). }
    intros k v L.
    match type of I with
    | forall k v, In k ?keys -> _ => destruct (in_dec key_dec k keys) as [Ik|Nk]
    end.
    + specialize (I k v Ik L). apply in_combine_r in I.
      apply in_map_iff in I as [c [<- Ic]].
      assert (Q : Forall (fun a =>
                    is_string (Js.get_opt (Server.a_scraped a) (jss "metaTitle")) /\
                    is_string (Js.get_opt (Server.a_scraped a)
                                 (jss "metaDescription"))) _)
        by (apply (@Forall2_right _ _ _ _ _ _ F1); now intros).
      rewrite Forall_forall in Q. destruct (Q _ Ic). now apply Own.
    + assert (Lk : Js.lookup k _ <> None) by (rewrite L; discriminate).
      apply D in Lk as [->|Ik]; [|contradiction].
      rewrite (O v Nk L). apply Own; eexists; reflexivity.
Qed.

(** An audit of Acme against a competitor of the same name, on Netlify:
    the map has one entry, the competitor's, without title and
    description. *)
Lemma competitor_entries_and_their_meta_witness :
  exists resp tr report fi v,
    Audit.handler Double.twin_event Double.twins [] = (Ok resp, tr) /\
    statusCode resp = 200%nat /\
    payload resp = Json (VObject report) /\
    Js.lookup (jss "firstImpressions") report = Some (VObject fi) /\
    map fst fi = [jss "Acme"] /\
    Js.lookup (jss "Acme") fi = Some v /\
    meta_of v = (VUndefined, VUndefined).
Proof.
  let r := eval vm_compute in
             (Audit.handler Double.twin_event Double.twins []) in
  lazymatch r with
  | (Ok ?resp, ?tr) =>
      assert (H : Audit.handler Double.twin_event Double.twins []
                  = (Ok resp, tr)) by (vm_compute; reflexivity);
      assert (S : statusCode resp = 200%nat) by reflexivity;
      destruct (proj1 competitor_entries_and_their_meta _ _ _ _ H S)
        as [comps [report [fi [key [keys [Cs [P [L [_ [Kk [_ [B _]]]]]]]]]]]];
      exists resp, tr, report, fi
  end.
  vm_compute in Cs. injection Cs as <-.
  unfold keys_of in Kk. cbn [map] in Kk.
  inversion Kk as [|n k ns ks Hk Hr]; subst. clear Kk Hr.
  vm_compute in Hk. injection Hk as <-.
  cbn [payload] in P. injection P as <-.
  vm_compute in L. injection L as <-.
  eexists. split; [exact H|]. split; [exact S|]. split; [reflexivity|].
  split; [vm_compute; reflexivity|]. split; [vm_compute; reflexivity|].
  match goal with
  | |- Js.lookup _ ?o = _ /\ _ =>
      let x := eval vm_compute in (Js.lookup (jss "Acme") o) in
      lazymatch x with
      | Some ?y =>
          assert (Lk : Js.lookup (jss "Acme") o = Some y)
            by (vm_compute; reflexivity)
      end
  end.
  split; [exact Lk|].
  exact (B _ _ (or_introl eq_refl) Lk).
Defined.

(** ** The order of the stages *)

Lemma phase_app a e1 e2 :
  phase_after a (e1 ++ e2) =
  match phase_after a e1 with
  | Some b => phase_after b e2
  | None => None
  end.
Proof.
  revert a; induction e1 as [|e e1 IH]; intros a; simpl; [reflexivity|].
  destruct e; try apply IH.
  destruct (next_phase a (req_stage req)); [apply IH | reflexivity].
Qed.

Lemma quiet_phase a evs : Forall quiet evs -> phase_after a evs = Some a.
Proof.
  induction 1 as [|e evs He _ IH]; simpl; [reflexivity|].
  destruct e; try exact IH. discriminate He.
Qed.

Lemma moves_bind {A B} a b c (m : M A) (f : A -> M B) :
  moves a b m -> (forall x, moves b c (f x)) -> moves a c (bind m f).
Proof.
  intros Hm Hf. unfold moves in *.
  eapply run_spec_bind; [exact Hm | auto |].
  intros x e1 P1 R1. cbv beta in *.
  eapply run_spec_weaken; [apply (Hf x) | auto | |]; cbv beta.
  - intros e2 P2. now rewrite phase_app, R1.
  - intros e2 _ _ R2. now rewrite phase_app, R1.
Qed.

Lemma moves_quiet {A} a (m : M A) : emits quiet m -> moves a a m.
Proof.
  intros E. unfold moves.
  eapply run_spec_weaken; [apply (run_spec_emits any_host E) | auto | |]; cbv beta.
  - intros e F. now rewrite (quiet_phase a F).
  - intros e _ F _. now apply quiet_phase.
Qed.

Lemma moves_ask a b req :
  next_phase a (req_stage req) = Some b -> moves a b (ask req).
Proof.
  intros N h t r t' _ R. injection R as <- <-. exists [Asked req].
  simpl. rewrite N. split; [reflexivity|]. split; [discriminate | reflexivity].
Qed.

Lemma moves_mapM {A B} a (f : A -> M B) xs :
  (forall x, moves a a (f x)) -> moves a a (mapM f xs).
Proof.
  intros Hf. induction xs as [|x xs IH]; simpl.
  - apply moves_quiet, emits_ret.
  - eapply moves_bind; [apply Hf|]. intros y.
    eapply moves_bind; [apply IH|]. intros ys. apply moves_quiet, emits_ret.
Qed.

Lemma keeps_moves {A} a b (m : M A) : moves a b m -> keeps a m.
Proof.
  intros Hm. unfold keeps, moves in *.
  eapply run_spec_weaken; [exact Hm | auto | auto | auto].
Qed.

Lemma keeps_bind {A B} a b (m : M A) (f : A -> M B) :
  moves a b m -> (forall x, keeps b (f x)) -> keeps a (bind m f).
Proof.
  intros Hm Hf. unfold moves, keeps in *.
  eapply run_spec_bind; [exact Hm | auto |].
  intros x e1 P1 R1. cbv beta in *.
  eapply run_spec_weaken; [apply (Hf x) | auto | |]; cbv beta; [|auto].
  intros e2 P2. now rewrite phase_app, R1.
Qed.

(** The handler's [catch] answers in whatever phase the body stopped. *)
Lemma keeps_caught a (m : M response) : keeps a m -> keeps a (caught m).
Proof.
  intros Hm h t r t' Hh R. unfold caught, try_catch in R.
  destruct (m h t) as [[x|e] t1] eqn:E;
    destruct (Hm h t _ _ Hh E) as [evs [-> [P _]]]; injection R as <- <-;
    exists evs; auto.
Qed.

Lemma in_order_run (m : M response) h :
  keeps Analysing m -> in_order (snd (m h [])) = true.
Proof.
  intros Hm. destruct (m h []) as [r t'] eqn:E.
  destruct (Hm h [] r t' I E) as [evs [-> [P _]]]. unfold in_order. simpl.
  now destruct (phase_after Analysing evs).
Qed.

Ltac moves_quietly := apply moves_quiet; solve [unfold quiet; emits_auto].

(** A computation that asks once, after computations that ask nothing. *)
Ltac moves_stage :=
  repeat lazymatch goal with
  | |- moves _ _ (bind (ask _) _) =>
      eapply moves_bind; [apply moves_ask; reflexivity | intros]
  | |- moves ?a _ (bind _ _) =>
      apply moves_bind with (b := a); [moves_quietly | intros]
  | |- moves _ _ _ => moves_quietly
  end.

Lemma moves_server_extractMessaging name s :
  moves Analysing Analysing (Server.extractMessaging name s).
Proof. unfold Server.extractMessaging. moves_stage. Qed.

Lemma moves_server_analyzeFirstImpressions name mt md ws gs :
  moves Analysing Analysing (Server.analyzeFirstImpressions name mt md ws gs).
Proof. unfold Server.analyzeFirstImpressions. moves_stage. Qed.

Lemma moves_server_extractVisuals name shot :
  moves Analysing Analysing (Server.extractVisuals name shot).
Proof.
  unfold Server.extractVisuals. destruct shot as [[|c s]|]; moves_stage.
Qed.

Lemma moves_server_generateTakeaways name data comps cmp :
  moves Compared Advised (Server.generateTakeaways name data comps cmp).
Proof. unfold Server.generateTakeaways. moves_stage. Qed.

Lemma moves_audit_extractMessaging name s :
  moves Analysing Analysing (Audit.extractMessaging name s).
Proof. unfold Audit.extractMessaging. moves_stage. Qed.

Lemma moves_audit_analyzeFirstImpressions name mt md h1 :
  moves Analysing Analysing (Audit.analyzeFirstImpressions name mt md h1).
Proof. unfold Audit.analyzeFirstImpressions. moves_stage. Qed.

Lemma moves_audit_generateTakeaways name data comps cmp :
  moves Compared Advised (Audit.generateTakeaways name data comps cmp).
Proof. unfold Audit.generateTakeaways. moves_stage. Qed.

Create HintDb order.
#[export] Hint Resolve moves_server_extractMessaging
  moves_server_analyzeFirstImpressions moves_server_extractVisuals
  moves_server_generateTakeaways moves_audit_extractMessaging
  moves_audit_analyzeFirstImpressions moves_audit_generateTakeaways : order.

Ltac moves_step :=
  lazymatch goal with
  | |- moves _ _ (bind (ask _) _) =>
      eapply moves_bind; [apply moves_ask; reflexivity | intros]
  | |- moves ?a _ (bind ?m _) =>
      first
        [ apply moves_bind with (b := a); [moves_quietly | intros]
        | eapply moves_bind; [solve [eauto with order] | intros] ]
  | |- moves _ _ (let _ := _ in _) => cbv zeta
  end.

Lemma moves_server_analyse c : moves Analysing Analysing (Server.analyse c).
Proof. unfold Server.analyse. cbv zeta. repeat moves_step. moves_quietly. Qed.

Lemma moves_audit_analyse c : moves Analysing Analysing (Audit.analyse c).
Proof. unfold Audit.analyse. repeat moves_step. moves_quietly. Qed.

Lemma moves_server_analyses cs :
  moves Analysing Analysing (mapM Server.analyse cs).
Proof. apply moves_mapM. intros. apply moves_server_analyse. Qed.

Lemma moves_audit_analyses cs :
  moves Analysing Analysing (mapM Audit.analyse cs).
Proof. apply moves_mapM. intros. apply moves_audit_analyse. Qed.

#[export] Hint Resolve moves_server_analyses moves_audit_analyses : order.

Ltac keeps_step :=
  lazymatch goal with
  | |- keeps _ (bind (ask _) _) =>
      eapply keeps_bind; [apply moves_ask; reflexivity | intros]
  | |- keeps ?a (bind ?m _) =>
      first
        [ apply keeps_bind with (b := a); [moves_quietly | intros]
        | eapply keeps_bind; [solve [eauto with order] | intros] ]
  | |- keeps _ (if ?c then _ else _) => destruct c
  | |- keeps _ (match ?x with _ => _ end) => destruct x
  | |- keeps _ (let _ := _ in _) => cbv zeta
  | |- keeps ?a (ret _) => apply keeps_moves with (b := a); moves_quietly
  | |- keeps _ (caught _) => apply keeps_caught
  end.

Lemma keeps_server_audit body : keeps Analysing (Server.audit body).
Proof. unfold Server.audit. repeat keeps_step. Qed.

Lemma keeps_audit_handler event : keeps Analysing (Audit.handler event).
Proof. unfold Audit.handler. repeat keeps_step. Qed.

(** X13. The stages of an audit come in order: in every run the requests that
    analyse one brand (Messaging, Visuals, First Impressions) come first,
    then at most one request of the Comparator, then at most one request
    of the Takeaway stage; an audit never asks for suggestions. *)
Theorem audits_ask_in_order :
  (forall (req_body : value) (h : host),
     in_order (snd (Server.audit req_body h [])) = true) /\
  (forall (event : lambda_event) (h : host),
     in_order (snd (Audit.handler event h [])) = true).
Proof.
  split; intros; apply in_order_run.
  - apply keeps_server_audit.
  - apply keeps_audit_handler.
Qed.

(** ** Voice cells *)

Lemma join_opt_value v h t r t' :
  join_opt v h t = (Ok r, t') ->
  t' = t /\ (r = VUndefined \/ exists s, r = VString s).
Proof.
  intros H. split.
  - assert (E : emits never (join_opt v)) by (unfold join_opt; emits_auto).
    exact (silent_run E H).
  - destruct v; simpl in H; try discriminate H;
      try (apply ret_ok in H; subst; now left).
    vstep H. apply ret_ok in H. subst. right. now eexists.
Qed.

Lemma truthy_string s : Js.truthy (VString s) = true -> s <> [].
Proof. intros T ->. discriminate T. Qed.

Lemma string_truthy s : s <> [] -> Js.truthy (VString s) = true.
Proof. now destruct s. Qed.

Lemma voice_cell_value inf h t v t' :
  voice_cell inf h t = (Ok v, t') -> Js.truthy v = true /\ t' = t.
Proof.
  intros H. split.
  2:{ assert (E : emits never (voice_cell inf))
        by (unfold voice_cell, voice_joined, join_opt; emits_auto).
      exact (silent_run E H). }
  unfold voice_cell, voice_joined in H. vstep H.
  apply join_opt_value in E as [_ V]. cbv zeta in H.
  destruct (Js.truthy (Js.or a (VString []))) eqn:T.
  - assert (S : exists s, Js.or a (VString []) = VString s /\ s <> []).
    { destruct V as [-> | [s ->]]; [discriminate T|].
      unfold Js.or in *. destruct (Js.truthy (VString s)) eqn:Ts;
        [|discriminate T]. exists s. split; [reflexivity|].
      now apply truthy_string. }
    destruct S as [s [Es Ns]]. rewrite Es in H.
    vstep H. injection E as <- _. vstep H.
    apply ret_ok in H. subst v.
    apply string_truthy. destruct s; [contradiction | discriminate].
  - apply ret_ok in H. subst v. now apply or_truthy.
Qed.

(** X14. A cell of the Voice row is never blank: when [formatVoice] (server) or
    [formatVoiceFull] (Netlify) returns, the value is truthy, the em dash
    standing in for missing adjectives and summary; and it has no effect. *)
Theorem voice_cell_is_never_blank :
  (forall (inferred : value) (h : host) (t : trace) (v : value) (t' : trace),
     Server.formatVoice inferred h t = (Ok v, t') ->
     Js.truthy v = true /\ t' = t)
  /\
  (forall (inf : value) (h : host) (t : trace) (v : value) (t' : trace),
     voice_cell inf h t = (Ok v, t') -> Js.truthy v = true /\ t' = t).
Proof.
  split; [|exact voice_cell_value].
  intros inferred h t v t' H. unfold Server.formatVoice in H.
  destruct (negb (Js.truthy inferred)).
  - apply ret_step in H as [H ->]. injection H as ->. now split.
  - now apply voice_cell_value in H.
Qed.

(** A reply without adjectives and without a summary: the cell is the em
    dash. *)
Lemma voice_cell_is_never_blank_witness :
  Server.formatVoice Double.messaging_value Double.offline []
  = (Ok Double.dash, []) /\
  Js.truthy Double.dash = true /\ @nil event = [].
Proof.
  assert (H : Server.formatVoice Double.messaging_value Double.offline []
              = (Ok Double.dash, [])) by (vm_compute; reflexivity).
  split; [exact H|].
  exact (proj1 voice_cell_is_never_blank _ _ _ _ _ H).
Defined.

(** ** Normalised URLs *)

Lemma trim_trimmed (s : jsstring) : trimmed (JsString.trim s).
Proof.
  destruct (trim_spec s) as [lead [trail [_ [_ [_ [A B]]]]]]. now split.
Qed.

Lemma trimmed_trim (s : jsstring) : trimmed s -> JsString.trim s = s.
Proof.
  intros [A B]. unfold JsString.trim.
  assert (S : JsString.trimStart s = s).
  { destruct s as [|c rest]; [reflexivity|]. simpl.
    now rewrite (A c rest eq_refl). }
  rewrite S. unfold JsString.trimEnd.
  destruct s as [|x s']; [reflexivity|].
  destruct (@exists_last _ (x :: s')) as [rest [c E]]; [discriminate|].
  rewrite E, rev_app_distr. simpl. rewrite (B c rest E).
  change (c :: rev rest) with (rev [c] ++ rev rest).
  now rewrite <- rev_app_distr, rev_involutive.
Qed.

Lemma trimmed_app (p s : jsstring) :
  trimmed p -> p <> [] -> trimmed s -> trimmed (p ++ s).
Proof.
  intros [Ap Bp] N [As Bs]. split.
  - intros c rest E. destruct p as [|x p]; [contradiction|].
    injection E as -> _. now apply (Ap c p).
  - intros c rest E. destruct s as [|y s'].
    + rewrite app_nil_r in E. now apply (Bp c rest).
    + destruct (@exists_last _ (y :: s')) as [r' [d E']]; [discriminate|].
      rewrite E', app_assoc in E. apply app_inj_tail in E as [_ <-].
      now apply (Bs d r').
Qed.

Lemma has_scheme_app (scheme rest : jsstring) :
  scheme = http_scheme \/ scheme = https_scheme ->
  has_scheme (scheme ++ rest) = true.
Proof.
  intros S. unfold has_scheme. apply orb_true_iff.
  destruct S as [-> | ->]; [left | right]; apply startsWith_app; now exists rest.
Qed.

(** X15. The result of [normalizeUrl] starts with a scheme, has no white space
    at either end and is left as it is by a second normalisation, as is
    every string of that form. *)
Theorem normalizeUrl_idempotent :
  (forall s : jsstring,
     exists u, normalizeUrl (VString s) = Ok u /\
               has_scheme u = true /\ trimmed u /\
               normalizeUrl (VString u) = Ok u)
  /\
  (forall u : jsstring,
     has_scheme u = true -> trimmed u -> normalizeUrl (VString u) = Ok u).
Proof.
  assert (Fix : forall u, has_scheme u = true -> trimmed u ->
                          normalizeUrl (VString u) = Ok u).
  { intros u S T. rewrite normalizeUrl_string, (trimmed_trim T). now rewrite S. }
  split; [|exact Fix].
  intros s. rewrite normalizeUrl_string.
  pose proof (trim_trimmed s) as T.
  destruct (has_scheme (JsString.trim s)) eqn:S.
  - exists (JsString.trim s). auto.
  - exists (https_scheme ++ JsString.trim s).
    assert (S' : has_scheme (https_scheme ++ JsString.trim s) = true)
      by (apply has_scheme_app; now right).
    assert (T' : trimmed (https_scheme ++ JsString.trim s)).
    { apply trimmed_app; [|discriminate|exact T].
      split; intros c rest E.
      - injection E as <- _. reflexivity.
      - change https_scheme with (jss "https:/" ++ [47]) in E.
        apply app_inj_tail in E as [_ <-]. reflexivity. }
    auto.
Qed.

(** ** White space *)

Lemma space_class_at b c (k : Regex.continuation) rest :
  Regex.m false space_class (b, rest) c k =
  match rest with
  | x :: xs => if JsString.is_space x then k (x :: b, xs) c else None
  | [] => None
  end.
Proof.
  destruct rest as [|x xs]; [reflexivity|].
  unfold space_class. cbn [Regex.m snd fst].
  unfold Regex.in_class. cbn [existsb Regex.in_item xorb].
  now rewrite orb_false_r.
Qed.

Lemma iterate_more step g k fuel mn z c :
  Regex.iterate step g k (S fuel) (S mn) None z c =
  step z c (fun z' c' => Regex.iterate step g k fuel mn None z' c').
Proof. reflexivity. Qed.

Lemma iterate_greedy step k fuel z c :
  Regex.iterate step true k (S fuel) 0 None z c =
  match step z c (fun z' c' =>
                    if Nat.leb (List.length (snd z)) (List.length (snd z'))
                    then None
                    else Regex.iterate step true k fuel 0 None z' c') with
  | Some x => Some x
  | None => k z c
  end.
Proof. reflexivity. Qed.

Lemma repeat_at icase mn r z c k :
  Regex.m icase (Regex.Repeat mn None true r) z c k =
  Regex.iterate (Regex.m icase r) true k (S (mn + List.length (snd z))) mn None z c.
Proof. reflexivity. Qed.

(** The star of the class takes the whole run of white space. *)
Lemma spaces_run fuel b rest c :
  (List.length rest < fuel)%nat ->
  exists b',
    Regex.iterate (Regex.m false space_class) true accept fuel 0 None (b, rest) c
    = Some ((b', JsString.trimStart rest), c).
Proof.
  revert fuel b; induction rest as [|x xs IH]; intros fuel b L.
  - destruct fuel as [|fuel]; [inversion L|]. exists b.
    now rewrite iterate_greedy, space_class_at.
  - destruct fuel as [|fuel]; [inversion L|]. simpl in L.
    rewrite iterate_greedy, space_class_at.
    cbn [JsString.trimStart].
    destruct (JsString.is_space x).
    + cbn [snd List.length].
      replace (Nat.leb (S (List.length xs)) (List.length xs)) with false
        by (symmetry; apply Nat.leb_gt; lia).
      destruct (IH fuel (x :: b)) as [b' E]; [lia|]. exists b'. now rewrite E.
    + now exists b.
Qed.

Lemma spaces_at b rest :
  match rest with
  | x :: xs =>
      if JsString.is_space x
      then exists b', Regex.at_pos false Pat.spaces (b, rest)
                      = Some ((b', JsString.trimStart xs), [])
      else Regex.at_pos false Pat.spaces (b, rest) = None
  | [] => Regex.at_pos false Pat.spaces (b, rest) = None
  end.
Proof.
  unfold Regex.at_pos, Pat.spaces, Regex.plus.
  change (Regex.Class false [Regex.Space]) with space_class.
  rewrite repeat_at, iterate_more, space_class_at.
  destruct rest as [|x xs]; [reflexivity|].
  destruct (JsString.is_space x); [|reflexivity].
  apply spaces_run. simpl. lia.
Qed.

Lemma search_spaces b rest :
  match Regex.search false Pat.spaces b rest with
  | Some (z1, z2, c) =>
      exists pre x xs,
        rest = pre ++ x :: xs /\
        Forall (fun c => JsString.is_space c = false) pre /\
        JsString.is_space x = true /\
        snd z1 = x :: xs /\ snd z2 = JsString.trimStart xs
  | None => Forall (fun c => JsString.is_space c = false) rest
  end.
Proof.
  revert b; induction rest as [|x xs IH]; intros b.
  - rewrite search_nil. pose proof (spaces_at b []) as A. cbv beta iota in A.
    rewrite A. constructor.
  - rewrite search_cons. pose proof (spaces_at b (x :: xs)) as A.
    cbv beta iota in A. destruct (JsString.is_space x) eqn:S.
    + destruct A as [b' ->]. exists [], x, xs. repeat split; auto.
    + rewrite A. specialize (IH (x :: b)).
      destruct (Regex.search false Pat.spaces (x :: b) xs) as [[[z1 z2] c]|].
      * destruct IH as [pre [y [ys [-> [F [Sy [Z1 Z2]]]]]]].
        exists (x :: pre), y, ys. repeat split; auto.
      * now constructor.
Qed.

Lemma squeeze_plain s :
  Forall (fun c => JsString.is_space c = false) s -> squeeze false s = s.
Proof.
  induction 1 as [|c s Hc _ IH]; simpl; [reflexivity|]. now rewrite Hc, IH.
Qed.

Lemma squeeze_app pre s b :
  Forall (fun c => JsString.is_space c = false) pre -> pre <> [] ->
  squeeze b (pre ++ s) = pre ++ squeeze false s.
Proof.
  intros F. revert b. induction F as [|c pre Hc F IH]; intros b N; [contradiction|].
  simpl. rewrite Hc. f_equal. destruct pre as [|d pre]; [reflexivity|].
  apply IH. discriminate.
Qed.

Lemma squeeze_run s : squeeze true s = squeeze false (JsString.trimStart s).
Proof.
  induction s as [|c s IH]; simpl; [reflexivity|].
  destruct (JsString.is_space c) eqn:S; [exact IH|]. simpl. now rewrite S.
Qed.

Lemma trimStart_length s : (List.length (JsString.trimStart s) <= List.length s)%nat.
Proof.
  induction s as [|c s IH]; simpl; [lia|].
  destruct (JsString.is_space c); simpl; lia.
Qed.

Lemma consumed_prefix (pre rest : jsstring) b b' :
  Regex.consumed (b, pre ++ rest) (b', rest) = pre.
Proof.
  unfold Regex.consumed. simpl snd. rewrite length_app.
  replace (List.length pre + List.length rest - List.length rest)%nat
    with (List.length pre) by lia.
  apply firstn_length_app.
Qed.

(** Replacing every run of white space by one space. *)
Lemma subst_spaces fuel b rest :
  (List.length rest < fuel)%nat ->
  Regex.subst fuel false Pat.spaces [32] (b, rest) = squeeze false rest.
Proof.
  revert b rest; induction fuel as [|fuel IH]; intros b rest L; [inversion L|].
  cbn [Regex.subst fst snd].
  pose proof (search_spaces b rest) as S.
  destruct (Regex.search false Pat.spaces b rest) as [[[z1 z2] c]|].
  - destruct S as [pre [x [xs [-> [F [Sx [Z1 Z2]]]]]]].
    destruct z1 as [b1 r1], z2 as [b2 r2]. simpl in Z1, Z2. subst r1 r2.
    rewrite consumed_prefix. unfold Regex.advance. cbn [snd fst].
    pose proof (trimStart_length xs) as T.
    replace (Nat.ltb (List.length (JsString.trimStart xs)) (List.length (x :: xs)))
      with true by (symmetry; apply Nat.ltb_lt; simpl; lia).
    rewrite IH by (rewrite length_app in L; simpl in L; lia).
    unfold Regex.consumed. cbn [snd]. rewrite Nat.sub_diag. cbn [firstn app].
    assert (E : squeeze false (x :: xs) = 32 :: squeeze false (JsString.trimStart xs)).
    { simpl. now rewrite Sx, squeeze_run. }
    destruct pre as [|p pre]; [cbn [app]; now rewrite E|].
    rewrite squeeze_app by (auto; discriminate). now rewrite E.
  - now rewrite squeeze_plain.
Qed.

Lemma collapse_squeeze (text : jsstring) :
  collapse text = JsString.trim (squeeze false text).
Proof.
  unfold collapse, Regex.replaceAll. rewrite subst_spaces; [reflexivity | lia].
Qed.

Lemma spaced_squeeze s b : spaced_from b (squeeze b s) = true.
Proof.
  revert b; induction s as [|c s IH]; intros b; simpl; [reflexivity|].
  destruct (JsString.is_space c) eqn:S.
  - destruct b; [apply IH|].
    change (spaced_from false (32 :: squeeze true s))
      with ((32 =? 32) && negb false && spaced_from true (squeeze true s)).
    now rewrite IH.
  - simpl. rewrite S. apply IH.
Qed.

Lemma spaced_trimStart s b :
  spaced_from b s = true -> spaced_from true (JsString.trimStart s) = true.
Proof.
  revert b; induction s as [|c s IH]; intros b; simpl; [reflexivity|].
  destruct (JsString.is_space c) eqn:S.
  - intros H. apply andb_true_iff in H as [_ H]. now apply (IH true).
  - simpl. now rewrite S.
Qed.

Lemma spaced_prefix p q b : spaced_from b (p ++ q) = true -> spaced_from b p = true.
Proof.
  revert b; induction p as [|c p IH]; intros b; simpl; [reflexivity|].
  destruct (JsString.is_space c).
  - intros H. apply andb_true_iff in H as [H1 H2]. rewrite H1. now apply IH.
  - apply IH.
Qed.

Lemma spaced_trimEnd s b :
  spaced_from b s = true -> spaced_from b (JsString.trimEnd s) = true.
Proof.
  destruct (trimEnd_split s) as [trail [E _]]. intros H. rewrite E in H.
  now apply spaced_prefix in H.
Qed.

Lemma spaced_collapse (text : jsstring) (n : nat) :
  single_spaced (JsString.substring0 n (collapse text)) = true.
Proof.
  unfold single_spaced, JsString.substring0.
  apply spaced_prefix with (q := skipn n (collapse text)).
  rewrite firstn_skipn, collapse_squeeze. unfold JsString.trim.
  apply spaced_trimEnd, (@spaced_trimStart _ false), spaced_squeeze.
Qed.

(** X16. The body text of the three extractors is single-spaced: it does not
    start with white space, its only white-space character is the space,
    and no two spaces stand side by side. *)
Theorem text_is_single_spaced :
  (forall html : option jsstring,
     single_spaced (Suggest.text (Suggest.extractStructuredContent html)) = true)
  /\ (forall html : option jsstring,
     single_spaced (Audit.text (Audit.extractStructuredContent html)) = true)
  /\ (forall (html : jsstring) (r : Server.structured),
     Server.extractStructuredContent (Some html) = Ok r ->
     single_spaced (Server.text r) = true).
Proof.
  split; [|split].
  - intros [[|c s]|]; try reflexivity.
    unfold Suggest.extractStructuredContent. cbv beta iota delta [Suggest.text].
    apply spaced_collapse.
  - intros [[|c s]|]; try reflexivity.
    unfold Audit.extractStructuredContent. cbv beta iota delta [Audit.text].
    apply spaced_collapse.
  - intros html r E. unfold Server.extractStructuredContent in E.
    destruct (Server.font_list html); [|discriminate E].
    apply (f_equal (fun x => match x with
                             | Ok r => Server.text r
                             | Throw _ => []
                             end)) in E.
    cbv beta iota delta [Server.text] in E |- *. rewrite <- E.
    apply spaced_collapse.
Qed.

(** ** Tags *)

Lemma not_gt_at b c (k : Regex.continuation) rest :
  Regex.m false not_gt (b, rest) c k =
  match rest with
  | x :: xs => if Pat.gt_ =? x then None else k (x :: b, xs) c
  | [] => None
  end.
Proof.
  destruct rest as [|x xs]; [reflexivity|].
  unfold not_gt, Regex.none_of. cbn [Regex.m snd fst map].
  unfold Regex.in_class. cbn [existsb Regex.in_item xorb Regex.same].
  rewrite orb_false_r. now destruct (Pat.gt_ =? x).
Qed.

Lemma close_tag_at b rest c :
  close_tag (b, rest) c =
  match rest with
  | x :: xs => if Pat.gt_ =? x then Some ((x :: b, xs), c) else None
  | [] => None
  end.
Proof. destruct rest; reflexivity. Qed.

Lemma run_to_gt_none fuel b rest c :
  ~ In Pat.gt_ rest -> (List.length rest < fuel)%nat ->
  Regex.iterate (Regex.m false not_gt) true close_tag fuel 0 None (b, rest) c = None.
Proof.
  revert fuel b; induction rest as [|x xs IH]; intros fuel b N L;
    (destruct fuel as [|fuel]; [inversion L|]);
    rewrite iterate_greedy, not_gt_at, close_tag_at; [reflexivity|].
  destruct (Pat.gt_ =? x) eqn:E.
  - apply N.eqb_eq in E. exfalso. apply N. now left.
  - cbn [snd List.length].
    replace (Nat.leb (S (List.length xs)) (List.length xs)) with false
      by (symmetry; apply Nat.leb_gt; lia).
    rewrite IH; [reflexivity | intros I; apply N; now right | simpl in L; lia].
Qed.

Lemma run_to_gt fuel b mid post c :
  ~ In Pat.gt_ mid -> (List.length (mid ++ Pat.gt_ :: post) < fuel)%nat ->
  Regex.iterate (Regex.m false not_gt) true close_tag fuel 0 None
    (b, mid ++ Pat.gt_ :: post) c
  = Some ((Pat.gt_ :: rev mid ++ b, post), c).
Proof.
  revert fuel b; induction mid as [|x xs IH]; intros fuel b N L;
    (destruct fuel as [|fuel]; [inversion L|]);
    cbn [app]; rewrite iterate_greedy, not_gt_at.
  - rewrite N.eqb_refl, close_tag_at, N.eqb_refl. reflexivity.
  - destruct (Pat.gt_ =? x) eqn:E.
    + apply N.eqb_eq in E. exfalso. apply N. now left.
    + cbn [snd List.length].
      replace (Nat.leb (S (List.length (xs ++ Pat.gt_ :: post)))
                 (List.length (xs ++ Pat.gt_ :: post))) with false
        by (symmetry; apply Nat.leb_gt; lia).
      rewrite IH; [|intros I; apply N; now right | simpl in L; lia].
      simpl. now rewrite <- app_assoc.
Qed.

Lemma tag_at_cons b x xs :
  Regex.at_pos false Pat.tag (b, x :: xs) =
  if Pat.lt_ =? x
  then Regex.iterate (Regex.m false not_gt) true close_tag
         (S (1 + List.length xs)) 1 None (x :: b, xs) []
  else None.
Proof. reflexivity. Qed.

Lemma split_first {A} (dec : forall a b : A, {a = b} + {a <> b}) (x : A) l :
  In x l -> exists mid post, l = mid ++ x :: post /\ ~ In x mid.
Proof.
  induction l as [|y l IH]; [intros []|].
  intros I. destruct (dec x y) as [<- | D].
  - now exists [], l.
  - destruct I as [E | I]; [congruence|].
    destruct (IH I) as [mid [post [-> N]]]. exists (y :: mid), post.
    split; [reflexivity|]. intros [E | J]; [congruence | contradiction].
Qed.

Lemma tag_at b rest :
  match Regex.at_pos false Pat.tag (b, rest) with
  | Some (z', c) =>
      exists y mid post,
        rest = Pat.lt_ :: y :: mid ++ Pat.gt_ :: post /\
        y <> Pat.gt_ /\ ~ In Pat.gt_ mid /\ snd z' = post
  | None => ~ starts_tag rest
  end.
Proof.
  destruct rest as [|x xs].
  - change (Regex.at_pos false Pat.tag (b, [])) with (@None (Regex.pos * Regex.captures)).
    intros [y [mid [post [E _]]]]. discriminate E.
  - rewrite tag_at_cons. destruct (Pat.lt_ =? x) eqn:X.
    2:{ intros [y [mid [post [E _]]]]. injection E as -> _.
        rewrite N.eqb_refl in X. discriminate X. }
    apply N.eqb_eq in X. subst x.
    rewrite iterate_more, not_gt_at. destruct xs as [|y ys].
    { intros [y [mid [post [E _]]]]. discriminate E. }
    destruct (Pat.gt_ =? y) eqn:Y.
    { apply N.eqb_eq in Y. intros [y' [mid [post [E [Ny _]]]]].
      injection E as -> _. now apply Ny. }
    assert (Ny : y <> Pat.gt_).
    { intros ->. rewrite N.eqb_refl in Y. discriminate Y. }
    destruct (in_dec N.eq_dec Pat.gt_ ys) as [I | I].
    + destruct (split_first N.eq_dec _ _ I) as [mid [post [-> M]]].
      rewrite run_to_gt by (auto; simpl; lia).
      exists y, mid, post. auto.
    + rewrite run_to_gt_none by (auto; simpl; lia).
      intros [y' [mid [post [E _]]]]. injection E as _ ->.
      apply I, in_or_app. right. now left.
Qed.

Lemma search_tag b rest :
  match Regex.search false Pat.tag b rest with
  | Some (z1, z2, c) =>
      exists pre y mid post,
        rest = pre ++ Pat.lt_ :: y :: mid ++ Pat.gt_ :: post /\
        y <> Pat.gt_ /\ ~ In Pat.gt_ mid /\ dead pre /\
        snd z1 = Pat.lt_ :: y :: mid ++ Pat.gt_ :: post /\ snd z2 = post
  | None => ~ has_tag rest
  end.
Proof.
  revert b; induction rest as [|x xs IH]; intros b.
  - rewrite search_nil. pose proof (tag_at b []) as A.
    destruct (Regex.at_pos false Pat.tag (b, [])) as [[z' c]|].
    + destruct A as [y [mid [post [E _]]]]. discriminate E.
    + intros [pre [r [E S]]]. symmetry in E. apply app_eq_nil in E as [_ ->].
      contradiction.
  - rewrite search_cons. pose proof (tag_at b (x :: xs)) as A.
    destruct (Regex.at_pos false Pat.tag (b, x :: xs)) as [[z' c]|].
    + destruct A as [y [mid [post [E [Ny [M Z]]]]]].
      exists [], y, mid, post. repeat split; auto.
      intros [|? ?] ? D; discriminate D.
    + specialize (IH (x :: b)).
      destruct (Regex.search false Pat.tag (x :: b) xs) as [[[z1 z2] c]|].
      * destruct IH as [pre [y [mid [post [E [Ny [M [D [Z1 Z2]]]]]]]]].
        exists (x :: pre), y, mid, post. split; [now rewrite E|].
        repeat split; auto.
        intros [|p p1] p2 Ep; simpl in Ep; injection Ep as -> Ep.
        -- (* the character passed over is [<]: no tag starts there *)
           subst p2. destruct pre as [|q pre'].
           ++ exfalso. apply A. exists Pat.lt_, (y :: mid), post.
              rewrite E. split; [reflexivity|]. split; [discriminate|].
              intros [F | F]; [now apply Ny | contradiction].
           ++ destruct (N.eq_dec q Pat.gt_) as [-> | Nq]; [now exists pre'|].
              exfalso. apply A.
              assert (I : In Pat.gt_ (pre' ++ Pat.lt_ :: y :: mid ++ Pat.gt_ :: post)).
              { apply in_or_app. right. right. right. apply in_or_app.
                right. now left. }
              destruct (split_first N.eq_dec _ _ I) as [m' [p' [E' M']]].
              exists q, m', p'. rewrite E. simpl. rewrite E'. auto.
        -- exact (D _ _ Ep).
      * intros [[|p pre] [r [E S]]]; simpl in E.
        -- apply A. now rewrite E.
        -- injection E as _ E. apply IH. now exists pre, r.
Qed.

Lemma starts_tag_head r :
  starts_tag r -> exists y r', r = Pat.lt_ :: y :: r' /\ y <> Pat.gt_.
Proof. intros [y [mid [post [-> [Ny _]]]]]. now exists y, (mid ++ Pat.gt_ :: post). Qed.

(** What was before the tag that is replaced, the replacement and a text
    without tags make a text without tags. *)
Lemma no_tag_join pre by_ out :
  dead pre -> ~ In Pat.lt_ by_ -> ~ has_tag out -> ~ has_tag (pre ++ by_ ++ out).
Proof.
  intros D B O [p [r [E S]]].
  destruct (starts_tag_head S) as [y [r' [Er Ny]]].
  apply app_eq_app in E as [l [[E1 E2] | [E1 E2]]].
  - (* the tag starts in [pre] *)
    destruct l as [|a l].
    + simpl in E2. rewrite E2 in S.
      (* it starts at the replacement *)
      destruct by_ as [|c by'].
      * apply O. now exists [], out.
      * rewrite Er in E2. injection E2 as <- _. apply B. now left.
    + rewrite Er in E2. injection E2 as <- E2.
      destruct (D p l E1) as [p3 ->]. simpl in E2.
      injection E2 as E2 _. now apply Ny.
  - apply app_eq_app in E2 as [l' [[E3 E4] | [E3 E4]]].
    + destruct l' as [|a l'].
      * simpl in E4. apply O. exists [], out. split; [reflexivity|].
        now rewrite <- E4.
      * rewrite Er in E4. injection E4 as <- _. apply B. rewrite E3.
        apply in_or_app. right. now left.
    + apply O. now exists l', r.
Qed.

Lemma subst_tag fuel by_ b rest :
  (List.length rest < fuel)%nat -> ~ In Pat.lt_ by_ ->
  ~ has_tag (Regex.subst fuel false Pat.tag by_ (b, rest)).
Proof.
  revert b rest; induction fuel as [|fuel IH]; intros b rest L B; [inversion L|].
  cbn [Regex.subst fst snd].
  pose proof (search_tag b rest) as S.
  destruct (Regex.search false Pat.tag b rest) as [[[z1 z2] c]|]; [|exact S].
  destruct S as [pre [y [mid [post [-> [Ny [M [D [Z1 Z2]]]]]]]]].
  destruct z1 as [b1 r1], z2 as [b2 r2]. simpl in Z1, Z2. subst r1 r2.
  rewrite consumed_prefix. unfold Regex.advance. cbn [snd fst].
  replace (Nat.ltb (List.length post)
             (List.length (Pat.lt_ :: y :: mid ++ Pat.gt_ :: post)))
    with true
    by (symmetry; apply Nat.ltb_lt; simpl; rewrite length_app; simpl; lia).
  unfold Regex.consumed at 1. cbn [snd]. rewrite Nat.sub_diag. cbn [firstn app].
  apply no_tag_join; auto.
  apply IH; auto.
  rewrite length_app in L. simpl in L. rewrite length_app in L. simpl in L. lia.
Qed.

Lemma replaceAll_no_tag by_ s :
  ~ In Pat.lt_ by_ -> ~ has_tag (Regex.replaceAll false Pat.tag by_ s).
Proof. intros B. unfold Regex.replaceAll. apply subst_tag; [lia | exact B]. Qed.

Lemma has_tag_within l s t : has_tag s -> has_tag (l ++ s ++ t).
Proof.
  intros [pre [r [-> [y [mid [post [-> [Ny M]]]]]]]].
  exists (l ++ pre), (Pat.lt_ :: y :: mid ++ Pat.gt_ :: post ++ t).
  split.
  - rewrite <- !app_assoc. simpl. now rewrite <- app_assoc.
  - now exists y, mid, (post ++ t).
Qed.

Lemma trim_no_tag s : ~ has_tag s -> ~ has_tag (JsString.trim s).
Proof.
  intros N T. destruct (trim_spec s) as [lead [trail [E _]]].
  apply N. rewrite E. now apply has_tag_within.
Qed.

Lemma substring0_no_tag n s : ~ has_tag s -> ~ has_tag (JsString.substring0 n s).
Proof.
  intros N T. apply N. rewrite <- (firstn_skipn n s).
  apply (@has_tag_within [] _ (skipn n s)) in T. exact T.
Qed.

Lemma empty_no_tag : ~ has_tag [].
Proof.
  intros [pre [r [E S]]]. symmetry in E. apply app_eq_nil in E as [_ ->].
  destruct S as [y [mid [post [E _]]]]. discriminate E.
Qed.

Lemma stripped_capture_no_tag r html : ~ has_tag (stripped_capture r html).
Proof.
  unfold stripped_capture. destruct (first_capture true r html).
  - apply trim_no_tag, replaceAll_no_tag. intros [].
  - apply empty_no_tag.
Qed.

(** X17. The heading of the three extractors and the subheading of the two audit
    extractors hold no tag: no
    [<] followed by one or more characters other than [>] and a [>]. *)
Theorem headings_hold_no_tag :
  (forall html : option jsstring,
     ~ has_tag (Suggest.h1 (Suggest.extractStructuredContent html)))
  /\
  (forall html : option jsstring,
     ~ has_tag (Audit.h1 (Audit.extractStructuredContent html)) /\
     ~ has_tag (Audit.subheadline (Audit.extractStructuredContent html)))
  /\
  (forall (html : jsstring) (r : Server.structured),
     Server.extractStructuredContent (Some html) = Ok r ->
     ~ has_tag (Server.h1 r) /\ ~ has_tag (Server.subheadline r)).
Proof.
  split; [|split].
  - intros [[|c s]|]; try apply empty_no_tag.
    unfold Suggest.extractStructuredContent. cbv beta iota delta [Suggest.h1].
    apply stripped_capture_no_tag.
  - intros [[|c s]|]; try (split; apply empty_no_tag).
    unfold Audit.extractStructuredContent.
    cbv beta iota delta [Audit.h1 Audit.subheadline].
    split; apply substring0_no_tag, stripped_capture_no_tag.
  - intros html r E. unfold Server.extractStructuredContent in E.
    destruct (Server.font_list html); [|discriminate E].
    split.
    + apply (f_equal (fun x => match x with
                               | Ok r => Server.h1 r
                               | Throw _ => []
                               end)) in E.
      cbv beta iota delta [Server.h1] in E |- *. rewrite <- E.
      apply substring0_no_tag, stripped_capture_no_tag.
    + apply (f_equal (fun x => match x with
                               | Ok r => Server.subheadline r
                               | Throw _ => []
                               end)) in E.
      cbv beta iota delta [Server.subheadline] in E |- *. rewrite <- E.
      apply substring0_no_tag.
      destruct (stripped_capture Pat.h2 html) eqn:Eh;
        [|rewrite <- Eh]; apply stripped_capture_no_tag.
Qed.

(** ** Elements *)

Lemma char_at a b s c (k : Regex.continuation) :
  Regex.m true (Regex.Char a) (b, s) c k =
  match s with
  | x :: xs => if Regex.same true a x then k (x :: b, xs) c else None
  | [] => None
  end.
Proof. destruct s; reflexivity. Qed.

Lemma cat_at r1 r2 z c (k : Regex.continuation) :
  Regex.m true (Regex.Cat r1 r2) z c k =
  Regex.m true r1 z c (fun z' c' => Regex.m true r2 z' c' k).
Proof. reflexivity. Qed.

Lemma str_cons a a' p :
  Regex.str (a :: a' :: p) = Regex.Cat (Regex.Char a) (Regex.str (a' :: p)).
Proof. reflexivity. Qed.

Lemma ci_strip_cons a p x xs :
  ci_strip (a :: p) (x :: xs) =
  if Regex.same true a x then ci_strip p xs else None.
Proof. reflexivity. Qed.

Lemma str_at p b s c (k : Regex.continuation) :
  Regex.m true (Regex.str p) (b, s) c k =
  match ci_strip p s with
  | Some rest => k (rev (firstn (List.length p) s) ++ b, rest) c
  | None => None
  end.
Proof.
  revert b s; induction p as [|a p IH]; intros b s; [reflexivity|].
  destruct p as [|a' p].
  - change (Regex.str [a]) with (Regex.Char a). rewrite char_at.
    destruct s as [|x xs]; [reflexivity|].
    cbn [ci_strip List.length firstn rev app].
    destruct (Regex.same true a x); reflexivity.
  - rewrite str_cons, cat_at, char_at. destruct s as [|x xs]; [reflexivity|].
    rewrite ci_strip_cons. destruct (Regex.same true a x); [|reflexivity].
    rewrite IH. destruct (ci_strip (a' :: p) xs); [|reflexivity].
    change (firstn (List.length (a :: a' :: p)) (x :: xs))
      with (x :: firstn (List.length (a' :: p)) xs).
    cbn [rev]. now rewrite <- app_assoc.
Qed.

Lemma ci_strip_app p q s :
  ci_strip (p ++ q) s =
  match ci_strip p s with
  | Some r => ci_strip q r
  | None => None
  end.
Proof.
  revert s; induction p as [|a p IH]; intros s; [reflexivity|].
  destruct s as [|x xs]; [reflexivity|].
  change ((a :: p) ++ q) with (a :: p ++ q). rewrite !ci_strip_cons.
  destruct (Regex.same true a x); [apply IH | reflexivity].
Qed.

Lemma same_gt x : Regex.same true Pat.gt_ x = (Pat.gt_ =? x).
Proof.
  unfold Regex.same, Regex.upper, Pat.gt_.
  change ((97 <=? 62) && (62 <=? 122)) with false. cbv iota.
  destruct ((97 <=? x) && (x <=? 122)) eqn:R; [|reflexivity].
  apply andb_true_iff in R as [R1 R2].
  apply N.leb_le in R1. apply N.leb_le in R2.
  destruct (N.eqb_spec 62 (x - 32)), (N.eqb_spec 62 x); try reflexivity; lia.
Qed.

(** The element pattern: its name. *)
Lemma element_open name b s :
  Regex.at_pos true (Pat.element name) (b, s) =
  match ci_strip (opening name) s with
  | Some rest =>
      Regex.m true (after_name name)
        (rev (firstn (List.length (opening name)) s) ++ b, rest) [] accept
  | None => None
  end.
Proof.
  unfold Regex.at_pos, Pat.element, opening.
  change (Regex.cat (Regex.Char Pat.lt_ :: Regex.str name :: ?l))
    with (Regex.Cat (Regex.Char Pat.lt_)
            (Regex.Cat (Regex.str name) (after_name name))).
  rewrite cat_at, char_at. destruct s as [|x xs]; [reflexivity|].
  rewrite ci_strip_cons. destruct (Regex.same true Pat.lt_ x); [|reflexivity].
  rewrite cat_at, str_at. destruct (ci_strip name xs); [|reflexivity].
  change (firstn (List.length (Pat.lt_ :: name)) (x :: xs))
    with (x :: firstn (List.length name) xs).
  cbn [rev]. now rewrite <- app_assoc.
Qed.

Lemma not_gt_at_ci b c (k : Regex.continuation) rest :
  Regex.m true not_gt (b, rest) c k =
  match rest with
  | x :: xs => if Pat.gt_ =? x then None else k (x :: b, xs) c
  | [] => None
  end.
Proof.
  destruct rest as [|x xs]; [reflexivity|].
  unfold not_gt, Regex.none_of. cbn [Regex.m snd fst map].
  unfold Regex.in_class. cbn [existsb Regex.in_item xorb].
  rewrite orb_false_r, same_gt. now destruct (Pat.gt_ =? x).
Qed.

(** The attributes: the run of characters up to the first [>]. *)
Lemma attributes_run fuel b attrs rest c (k : Regex.continuation) res :
  ~ In Pat.gt_ attrs -> (List.length attrs < fuel)%nat ->
  k (rev attrs ++ b, Pat.gt_ :: rest) c = Some res ->
  Regex.iterate (Regex.m true not_gt) true k fuel 0 None
    (b, attrs ++ Pat.gt_ :: rest) c = Some res.
Proof.
  revert fuel b; induction attrs as [|x xs IH]; intros fuel b N L K;
    (destruct fuel as [|fuel]; [inversion L|]);
    cbn [app]; rewrite iterate_greedy, not_gt_at_ci.
  - now rewrite N.eqb_refl.
  - destruct (Pat.gt_ =? x) eqn:E.
    + apply N.eqb_eq in E. exfalso. apply N. now left.
    + cbn [snd List.length].
      replace (Nat.leb (S (List.length (xs ++ Pat.gt_ :: rest)))
                 (List.length (xs ++ Pat.gt_ :: rest))) with false
        by (symmetry; apply Nat.leb_gt; lia).
      rewrite (IH fuel (x :: b)); [reflexivity | | simpl in L; lia |].
      * intros I. apply N. now right.
      * simpl in K. now rewrite <- app_assoc in K.
Qed.

Lemma iterate_lazy step k fuel z c :
  Regex.iterate step false k (S fuel) 0 None z c =
  match k z c with
  | Some x => Some x
  | None =>
      step z c (fun z' c' =>
                  if Nat.leb (List.length (snd z)) (List.length (snd z'))
                  then None
                  else Regex.iterate step false k fuel 0 None z' c')
  end.
Proof. reflexivity. Qed.

Lemma any_at b c (k : Regex.continuation) x xs :
  Regex.m true Regex.any (b, x :: xs) c k = k (x :: b, xs) c.
Proof.
  unfold Regex.any. cbn [Regex.m snd fst].
  unfold Regex.in_class. cbn [existsb Regex.in_item xorb].
  now destruct (JsString.is_space x).
Qed.

(** The content: the shortest text after which the rest of the pattern
    matches. *)
Lemma content_run fuel b inner rest c (k : Regex.continuation) res :
  (forall i, (i < List.length inner)%nat ->
             k (rev (firstn i inner) ++ b, skipn i inner ++ rest) c = None) ->
  k (rev inner ++ b, rest) c = Some res ->
  (List.length inner < fuel)%nat ->
  Regex.iterate (Regex.m true Regex.any) false k fuel 0 None
    (b, inner ++ rest) c = Some res.
Proof.
  revert fuel b; induction inner as [|x xs IH]; intros fuel b Early End L;
    (destruct fuel as [|fuel]; [inversion L|]); rewrite iterate_lazy.
  - simpl in *. now rewrite End.
  - pose proof (Early 0%nat ltac:(simpl; lia)) as E0. simpl in E0.
    cbn [app]. rewrite E0, any_at.
    cbn [snd List.length].
    replace (Nat.leb (S (List.length (xs ++ rest))) (List.length (xs ++ rest)))
      with false by (symmetry; apply Nat.leb_gt; lia).
    apply IH; [| |simpl in L; lia].
    + intros i Li. specialize (Early (S i)). simpl in Early.
      rewrite <- app_assoc in Early. apply Early. lia.
    + simpl in End. now rewrite <- app_assoc in End.
Qed.

(** The end of the element. *)
Lemma element_close name b s c :
  match ci_strip (closing_of name) s with
  | Some rest =>
      exists b', forall k : Regex.continuation,
        Regex.m true (after_content name) (b, s) c k = k (b', rest) c
  | None =>
      forall k : Regex.continuation,
        Regex.m true (after_content name) (b, s) c k = None
  end.
Proof.
  unfold after_content, closing_of.
  change (Regex.cat [Regex.str (jss "</"); Regex.str name; Regex.Char Pat.gt_])
    with (Regex.Cat (Regex.str (jss "</"))
            (Regex.Cat (Regex.str name) (Regex.str [Pat.gt_]))).
  rewrite ci_strip_app.
  destruct (ci_strip (jss "</") s) as [r1|] eqn:E1.
  2:{ intros k. now rewrite cat_at, str_at, E1. }
  rewrite ci_strip_app.
  destruct (ci_strip name r1) as [r2|] eqn:E2.
  2:{ intros k. now rewrite cat_at, str_at, E1, cat_at, str_at, E2. }
  destruct (ci_strip [Pat.gt_] r2) as [r3|] eqn:E3.
  2:{ intros k. now rewrite cat_at, str_at, E1, cat_at, str_at, E2, str_at, E3. }
  eexists. intros k.
  rewrite cat_at, str_at, E1, cat_at, str_at, E2, str_at, E3. reflexivity.
Qed.

Lemma repeat_gen_at icase mn g r z c k :
  Regex.m icase (Regex.Repeat mn None g r) z c k =
  Regex.iterate (Regex.m icase r) g k (S (mn + List.length (snd z))) mn None z c.
Proof. reflexivity. Qed.

Lemma group_at i r z c (k : Regex.continuation) :
  Regex.m true (Regex.Group i r) z c k =
  Regex.m true r z c (fun z' c' => k z' ((i, Regex.consumed z z') :: c')).
Proof. reflexivity. Qed.

Lemma starts_ci_false p s : starts_ci p s = false -> ci_strip p s = None.
Proof. unfold starts_ci. now destruct (ci_strip p s). Qed.

(** The element pattern after the name, on the text of an element. *)
Lemma element_rest name b attrs inner rest3 rest4 :
  ~ In Pat.gt_ attrs ->
  (forall i, (i < List.length inner)%nat ->
             starts_ci (closing_of name) (skipn i inner ++ rest3) = false) ->
  ci_strip (closing_of name) rest3 = Some rest4 ->
  exists z',
    Regex.m true (after_name name) (b, attrs ++ Pat.gt_ :: inner ++ rest3) [] accept
    = Some (z', [(1%nat, inner)]).
Proof.
  intros Na Early End. unfold after_name.
  change (Regex.cat (Regex.star (Regex.none_of [Pat.gt_]) :: ?l))
    with (Regex.Cat (Regex.star not_gt)
            (Regex.Cat (Regex.Char Pat.gt_)
               (Regex.Cat (Regex.Group 1 (Regex.lazy_star Regex.any))
                  (after_content name)))).
  pose proof (element_close name (rev inner ++ Pat.gt_ :: rev attrs ++ b) rest3
                [(1%nat, inner)]) as C.
  rewrite End in C. destruct C as [b' C]. exists (b', rest4).
  rewrite cat_at. unfold Regex.star. rewrite repeat_gen_at.
  apply attributes_run; [exact Na | simpl; rewrite length_app; simpl; lia|].
  rewrite cat_at, char_at, same_gt, N.eqb_refl, cat_at, group_at.
  unfold Regex.lazy_star. rewrite repeat_gen_at.
  apply content_run; [| |simpl; rewrite length_app; lia].
  - intros i Li.
    pose proof (element_close name
                  (rev (firstn i inner) ++ Pat.gt_ :: rev attrs ++ b)
                  (skipn i inner ++ rest3)
                  [(1%nat,
                    Regex.consumed (Pat.gt_ :: rev attrs ++ b, inner ++ rest3)
                      (rev (firstn i inner) ++ Pat.gt_ :: rev attrs ++ b,
                       skipn i inner ++ rest3))]) as N.
    rewrite (starts_ci_false _ _ (Early i Li)) in N. apply N.
  - rewrite consumed_prefix. apply C.
Qed.

Lemma search_here r b rest z' c :
  Regex.at_pos true r (b, rest) = Some (z', c) ->
  Regex.search true r b rest = Some ((b, rest), z', c).
Proof.
  intros A. destruct rest as [|x xs].
  - change (Regex.search true r b [])
      with (match Regex.at_pos true r (b, []) with
            | Some (z', c) => Some ((b, @nil N), z', c)
            | None => None
            end).
    now rewrite A.
  - change (Regex.search true r b (x :: xs))
      with (match Regex.at_pos true r (b, x :: xs) with
            | Some (z', c) => Some ((b, x :: xs), z', c)
            | None => Regex.search true r (x :: b) xs
            end).
    now rewrite A.
Qed.

Lemma search_skip r pre b rest :
  (forall j, (j < List.length pre)%nat ->
     Regex.at_pos true r (rev (firstn j pre) ++ b, skipn j pre ++ rest) = None) ->
  Regex.search true r b (pre ++ rest) = Regex.search true r (rev pre ++ b) rest.
Proof.
  revert b; induction pre as [|x xs IH]; intros b Early; [reflexivity|].
  cbn [app].
  change (Regex.search true r b (x :: xs ++ rest))
    with (match Regex.at_pos true r (b, x :: xs ++ rest) with
          | Some (z', c) => Some ((b, x :: xs ++ rest), z', c)
          | None => Regex.search true r (x :: b) (xs ++ rest)
          end).
  pose proof (Early 0%nat ltac:(simpl; lia)) as E0. simpl in E0. rewrite E0.
  rewrite IH; [simpl; now rewrite <- app_assoc|].
  intros j Lj. specialize (Early (S j)). simpl in Early.
  rewrite <- app_assoc in Early. apply Early. lia.
Qed.

Lemma find_ci_here p s : starts_ci p s = true -> find_ci p s = Some 0%nat.
Proof. intros S. destruct s; simpl; now rewrite S. Qed.

Lemma find_ci_spec p s i :
  find_ci p s = Some i ->
  (i <= List.length s)%nat /\
  starts_ci p (skipn i s) = true /\
  forall j, (j < i)%nat -> starts_ci p (skipn j s) = false.
Proof.
  revert i; induction s as [|x xs IH]; intros i F.
  - simpl in F. destruct (starts_ci p []) eqn:S; [|discriminate F].
    injection F as <-. simpl. split; [lia|]. split; [exact S|]. intros j Lj. lia.
  - change (find_ci p (x :: xs))
      with (if starts_ci p (x :: xs) then Some 0%nat
            else option_map S (find_ci p xs)) in F.
    destruct (starts_ci p (x :: xs)) eqn:S.
    + injection F as <-. simpl. split; [lia|]. split; [exact S|].
      intros j Lj. lia.
    + destruct (find_ci p xs) as [i'|]; [|discriminate F].
      injection F as <-. destruct (IH i' eq_refl) as [L [H E]].
      split; [simpl; lia|]. split; [exact H|].
      intros [|j] Lj; [exact S|]. apply E. lia.
Qed.

Lemma skipn_app_le {A} i (l1 l2 : list A) :
  (i <= List.length l1)%nat -> skipn i (l1 ++ l2) = skipn i l1 ++ l2.
Proof.
  intros L. rewrite skipn_app.
  replace (i - List.length l1)%nat with 0%nat by lia. reflexivity.
Qed.

(** The first element of a name, as the element pattern captures it. *)
Lemma element_capture (name html attrs rest : jsstring) (i n : nat) :
  find_ci (opening name) html = Some i ->
  ci_strip (opening name) (skipn i html) = Some (attrs ++ Pat.gt_ :: rest) ->
  ~ In Pat.gt_ attrs ->
  find_ci (closing_of name) rest = Some n ->
  first_capture true (Pat.element name) html = Some (firstn n rest).
Proof.
  intros Fo So Na Fc.
  destruct (find_ci_spec _ _ Fo) as [Li [_ Eo]].
  destruct (find_ci_spec _ _ Fc) as [Ln [Hc Ec]].
  unfold first_capture, Regex.exec.
  rewrite <- (firstn_skipn i html) at 1.
  assert (Lp : List.length (firstn i html) = i) by (apply firstn_length_le; lia).
  rewrite search_skip.
  2:{ intros j Lj. rewrite Lp in Lj. rewrite element_open.
      rewrite <- skipn_app_le by lia. rewrite firstn_skipn.
      now rewrite (starts_ci_false _ _ (Eo j Lj)). }
  assert (Ln' : List.length (firstn n rest) = n) by (apply firstn_length_le; lia).
  destruct (ci_strip (closing_of name) (skipn n rest)) as [rest4|] eqn:C.
  2:{ unfold starts_ci in Hc. rewrite C in Hc. discriminate Hc. }
  destruct (@element_rest name
              (rev (firstn (List.length (opening name)) (skipn i html))
                 ++ rev (firstn i html) ++ [])
              attrs (firstn n rest) (skipn n rest) rest4 Na) as [z' A].
  - intros j Lj. rewrite Ln' in Lj. rewrite <- skipn_app_le by lia.
    rewrite firstn_skipn. now apply Ec.
  - exact C.
  - rewrite firstn_skipn in A.
    erewrite search_here; [|rewrite element_open, So; exact A].
    simpl. reflexivity.
Qed.

Lemma found_nonempty p s i r :
  ci_strip p (skipn i s) = Some r -> p <> [] -> s <> [].
Proof.
  intros C N ->. rewrite skipn_nil in C. destruct p; [contradiction | discriminate C].
Qed.

(** X18. The heading is the content of the first h1 element. When [<h1] first
    stands (in any case) at index [i] of the page, is followed by
    attributes without [>], a [>] and the text [rest], and [</h1>] first
    stands (in any case) at index [n] of [rest], the heading is the first
    [n] characters of [rest] with the tags taken out and the white space
    around trimmed; the audit extractors keep its first 200 characters. *)
Theorem first_heading_is_extracted (html attrs rest : jsstring) (i n : nat) :
  find_ci (jss "<h1") html = Some i ->
  ci_strip (jss "<h1") (skipn i html) = Some (attrs ++ Pat.gt_ :: rest) ->
  ~ In Pat.gt_ attrs ->
  find_ci (jss "</h1>") rest = Some n ->
  exists heading,
    heading = JsString.trim (Regex.replaceAll false Pat.tag [] (firstn n rest)) /\
    Suggest.h1 (Suggest.extractStructuredContent (Some html)) = heading /\
    Audit.h1 (Audit.extractStructuredContent (Some html))
      = JsString.substring0 200 heading /\
    forall r, Server.extractStructuredContent (Some html) = Ok r ->
              Server.h1 r = JsString.substring0 200 heading.
Proof.
  intros Fo So Na Fc.
  pose proof (@element_capture (jss "h1") html attrs rest i n Fo So Na Fc) as E.
  change (Pat.element (jss "h1")) with Pat.h1 in E.
  assert (S : stripped_capture Pat.h1 html
              = JsString.trim (Regex.replaceAll false Pat.tag [] (firstn n rest)))
    by (unfold stripped_capture; now rewrite E).
  assert (N : html <> []) by (eapply found_nonempty; [exact So | discriminate]).
  eexists. split; [reflexivity|].
  destruct html as [|c s]; [contradiction|]. split; [|split].
  - unfold Suggest.extractStructuredContent. cbv beta iota delta [Suggest.h1].
    exact S.
  - unfold Audit.extractStructuredContent. cbv beta iota delta [Audit.h1].
    now rewrite S.
  - intros r R. unfold Server.extractStructuredContent in R.
    destruct (Server.font_list (c :: s)); [|discriminate R].
    apply (f_equal (fun x => match x with
                             | Ok r => Server.h1 r
                             | Throw _ => []
                             end)) in R.
    cbv beta iota delta [Server.h1] in R |- *. rewrite <- R. now rewrite S.
Qed.

(** A page whose heading has attributes, upper-case letters and a tag
    inside. *)
Lemma first_heading_is_extracted_witness :
  find_ci (jss "<h1") Double.sample_page = Some 54%nat /\
  ci_strip (jss "<h1") (skipn 54 Double.sample_page)
    = Some (jss " class='x'" ++ Pat.gt_ :: Double.after_heading) /\
  find_ci (jss "</h1>") Double.after_heading = Some 20%nat /\
  Suggest.h1 (Suggest.extractStructuredContent (Some Double.sample_page))
    = jss "Hello World" /\
  exists heading,
    heading = JsString.trim
                (Regex.replaceAll false Pat.tag [] (firstn 20 Double.after_heading)) /\
    Suggest.h1 (Suggest.extractStructuredContent (Some Double.sample_page))
      = heading /\
    Audit.h1 (Audit.extractStructuredContent (Some Double.sample_page))
      = JsString.substring0 200 heading /\
    forall r, Server.extractStructuredContent (Some Double.sample_page) = Ok r ->
              Server.h1 r = JsString.substring0 200 heading.
Proof.
  assert (F : find_ci (jss "<h1") Double.sample_page = Some 54%nat)
    by (vm_compute; reflexivity).
  assert (S : ci_strip (jss "<h1") (skipn 54 Double.sample_page)
              = Some (jss " class='x'" ++ Pat.gt_ :: Double.after_heading))
    by (vm_compute; reflexivity).
  assert (N : ~ In Pat.gt_ (jss " class='x'"))
    by (intros I; vm_compute in I; intuition discriminate).
  assert (C : find_ci (jss "</h1>") Double.after_heading = Some 20%nat)
    by (vm_compute; reflexivity).
  split; [exact F|]. split; [exact S|]. split; [exact C|].
  split; [vm_compute; reflexivity|].
  exact (@first_heading_is_extracted _ _ _ _ _ F S N C).
Defined.

(** X19. The title is the content of the first title element, trimmed: with the
    title element found as the h1 element above, the Netlify audit keeps
    the whole text and the server its first 200 characters. *)
Theorem first_title_is_extracted (html attrs rest : jsstring) (i n : nat) :
  find_ci (jss "<title") html = Some i ->
  ci_strip (jss "<title") (skipn i html) = Some (attrs ++ Pat.gt_ :: rest) ->
  ~ In Pat.gt_ attrs ->
  find_ci (jss "</title>") rest = Some n ->
  Audit.metaTitle (Audit.extractStructuredContent (Some html))
    = JsString.trim (firstn n rest) /\
  forall r, Server.extractStructuredContent (Some html) = Ok r ->
            Server.metaTitle r
            = JsString.substring0 200 (JsString.trim (firstn n rest)).
Proof.
  intros Fo So Na Fc.
  pose proof (@element_capture (jss "title") html attrs rest i n Fo So Na Fc) as E.
  change (Pat.element (jss "title")) with Pat.title in E.
  assert (S : trimmed_capture Pat.title html = JsString.trim (firstn n rest))
    by (unfold trimmed_capture; now rewrite E).
  assert (N : html <> []) by (eapply found_nonempty; [exact So | discriminate]).
  destruct html as [|c s]; [contradiction|]. split.
  - unfold Audit.extractStructuredContent. cbv beta iota delta [Audit.metaTitle].
    exact S.
  - intros r R. unfold Server.extractStructuredContent in R.
    destruct (Server.font_list (c :: s)); [|discriminate R].
    apply (f_equal (fun x => match x with
                             | Ok r => Server.metaTitle r
                             | Throw _ => []
                             end)) in R.
    cbv beta iota delta [Server.metaTitle] in R |- *. rewrite <- R. now rewrite S.
Qed.

(** The title of the same page, in upper case and without attributes. *)
Lemma first_title_is_extracted_witness :
  find_ci (jss "<title") Double.sample_page = Some 12%nat /\
  ci_strip (jss "<title") (skipn 12 Double.sample_page)
    = Some ([] ++ Pat.gt_ :: Double.after_title) /\
  find_ci (jss "</title>") Double.after_title = Some 14%nat /\
  Audit.metaTitle (Audit.extractStructuredContent (Some Double.sample_page))
    = jss "Acme Rockets" /\
  (Audit.metaTitle (Audit.extractStructuredContent (Some Double.sample_page))
     = JsString.trim (firstn 14 Double.after_title) /\
   forall r, Server.extractStructuredContent (Some Double.sample_page) = Ok r ->
             Server.metaTitle r
             = JsString.substring0 200 (JsString.trim (firstn 14 Double.after_title))).
Proof.
  assert (F : find_ci (jss "<title") Double.sample_page = Some 12%nat)
    by (vm_compute; reflexivity).
  assert (S : ci_strip (jss "<title") (skipn 12 Double.sample_page)
              = Some ([] ++ Pat.gt_ :: Double.after_title))
    by (vm_compute; reflexivity).
  assert (N : ~ In Pat.gt_ (@nil N)) by (intros []).
  assert (C : find_ci (jss "</title>") Double.after_title = Some 14%nat)
    by (vm_compute; reflexivity).
  split; [exact F|]. split; [exact S|]. split; [exact C|].
  split; [vm_compute; reflexivity|].
  exact (@first_title_is_extracted _ _ _ _ _ F S N C).
Defined.

(** ** Colours *)

Lemma defined_nonempty_all f xs : Forall (fun s => s <> []) (defined_nonempty f xs).
Proof.
  induction xs as [|x xs IH]; simpl; [constructor|].
  destruct (f x) as [[|c y]|]; try exact IH.
  constructor; [intros D; discriminate D | exact IH].
Qed.

Lemma distinct_Forall (P : jsstring -> Prop) xs :
  Forall P xs -> Forall P (distinct xs).
Proof.
  intros F. apply Forall_forall. intros x I. apply (proj1 (distinct_In _ _)) in I.
  rewrite Forall_forall in F. now apply F.
Qed.

Lemma firstn_Forall {A} (P : A -> Prop) n (l : list A) :
  Forall P l -> Forall P (firstn n l).
Proof.
  intros F. apply Forall_forall. intros x I. apply firstn_In in I.
  rewrite Forall_forall in F. now apply F.
Qed.

Lemma color_list_listed html : listed_colors html (Server.color_list html).
Proof.
  unfold listed_colors, Server.color_list, color_values. cbv zeta.
  split; [reflexivity|]. split; [apply firstn_le_length|].
  split; [apply firstn_NoDup, distinct_from_NoDup|].
  split; [apply firstn_Forall, distinct_Forall, defined_nonempty_all|].
  split.
  - intros c I. apply firstn_In in I. now apply (proj1 (distinct_In _ _)) in I.
  - intros c I L. rewrite firstn_all2 by exact L.
    now apply (proj2 (distinct_In _ _)).
Qed.

(** The join of strings that are not empty is not empty. *)
Lemma join_nonempty sep c cs :
  Forall (fun s => s <> []) (c :: cs) -> JsString.join sep (c :: cs) <> [].
Proof.
  intros F J. inversion F as [|? ? Nc _]; subst. apply Nc.
  destruct cs; simpl in J; [exact J|]. apply app_eq_nil in J. tauto.
Qed.

(** X20. The [colors] of the server's extractor are the first five different
    colour values of the page, in page order, joined by a comma and a
    space, or the text [Could not detect] when the page has none. A colour
    value is what a match of the colour pattern has between its first
    colon and the next, trimmed. So the list has at most five entries, all
    different and none empty, each a colour value of the page, and every
    colour value of the page when these are at most five different
    ones. *)
Theorem colors_are_a_short_list (html : jsstring) (r : Server.structured) :
  Server.extractStructuredContent (Some html) = Ok r ->
  exists colors,
    listed_colors html colors /\
    Server.colors r = (match colors with
                       | [] => jss "Could not detect"
                       | _ => JsString.join (jss ", ") colors
                       end).
Proof.
  intros E. exists (Server.color_list html). split; [apply color_list_listed|].
  pose proof (server_extract_cases html) as C.
  destruct (Server.font_list html); [|destruct C as [C _]; congruence].
  destruct C as [r' [E' [_ [Cr _]]]]. rewrite E in E'. injection E' as <-.
  rewrite Cr. unfold joined_or_unknown.
  pose proof (color_list_listed html) as [_ [_ [_ [F _]]]].
  destruct (Server.color_list html) as [|c cs]; [reflexivity|].
  change comma_space with (jss ", ").
  pose proof (@join_nonempty (jss ", ") c cs F) as N.
  destruct (JsString.join (jss ", ") (c :: cs)) eqn:J; [now elim N | reflexivity].
Qed.

(** Three declarations, two of them the same: two colours. *)
Lemma colors_are_a_short_list_witness :
  exists r,
    Server.extractStructuredContent (Some Double.colors_page) = Ok r /\
    color_values Double.colors_page = [jss "red"; jss "#fff"; jss "red"] /\
    Server.colors r = jss "red, #fff" /\
    exists colors,
      listed_colors Double.colors_page colors /\
      Server.colors r = (match colors with
                         | [] => jss "Could not detect"
                         | _ => JsString.join (jss ", ") colors
                         end).
Proof.
  let x := eval vm_compute in
             (Server.extractStructuredContent (Some Double.colors_page)) in
  lazymatch x with
  | Ok ?r =>
      exists r;
      assert (E : Server.extractStructuredContent (Some Double.colors_page) = Ok r)
        by (vm_compute; reflexivity);
      split; [exact E|]; split; [vm_compute; reflexivity|];
      split; [vm_compute; reflexivity|];
      exact (@colors_are_a_short_list _ _ E)
  end.
Defined.

(** Of six different colours the sixth is left out. *)
Lemma sixth_color_is_dropped :
  exists r,
    Server.extractStructuredContent (Some Double.rainbow_page) = Ok r /\
    Server.colors r = jss "red, orange, yellow, green, blue".
Proof. eexists. split; vm_compute; reflexivity. Qed.

(** A value may hold the separator itself. *)
Lemma color_value_with_comma :
  exists r,
    Server.extractStructuredContent (Some Double.rgb_page) = Ok r /\
    Server.color_list Double.rgb_page = [jss "rgb(1, 2, 3)"] /\
    Server.colors r = jss "rgb(1, 2, 3)".
Proof. eexists. split; [|split]; vm_compute; reflexivity. Qed.
